(** * SABR Monte Carlo pricers (HW3/option_models/sabr.py)

    A shallow embedding of the Python module [sabr.py]: the volatility path
    generator, the trapezoidal variance aggregator and the four Monte Carlo
    pricers (direct / conditional, log-normal / normal).

    Conventions of the embedding.
    - Python and NumPy floats are read as real numbers ([R]); rounding,
      overflow, [inf] and [nan] are outside the model.  Where NumPy would
      produce [nan] (mean of an empty array, logarithm of a non-positive
      number, square root of a negative number) the theorems below carry the
      hypotheses that exclude the case, or do not depend on the value.
    - Python exceptions are results: every method is a computation in the
      monad [Py], which threads the state of NumPy's global random generator
      and may raise.  The generator state is kept when an exception is
      raised, as in Python.
    - The model attributes ([sigma], [vov], [rho], [beta], [intr], [dt]) and
      the arguments [spot], [texp] are Python scalars: a division between two
      of them raises [ZeroDivisionError] on a zero divisor.  Arithmetic on
      NumPy arrays never raises.  The constructor checks no type, so [rho]
      and [vov] may also be NumPy scalars; their division
      [self.rho / self.vov] then never raises, and the conditional pricers
      are given for both readings ([price_as]).
    - [n_path] is a count ([nat]).
    - The closed-form kernels of [pyfeng] ([pf.Bsm], [pf.Norm]) are external;
      they are parameters of the development. *)

From Stdlib Require Import Reals Lra Lia ZArith List Bool.
Import ListNotations.

Open Scope R_scope.

(** ** Exceptions, random generator, and the monad of Python computations *)

Inductive exn : Type :=
| ZeroDivisionError
| IndexError
| ValueError
| AssertionError.

Inductive outcome (A : Type) : Type :=
| Ok (a : A)
| Raise (e : exn).
Arguments Ok {A} a.
Arguments Raise {A} e.

(** NumPy's global generator: the sequence of standard-normal draws still to
    come ([tape]) and how many have been consumed ([cursor]). *)
Record Rng : Type := mkRng { tape : nat -> R; cursor : nat }.

Definition advance (g : Rng) (k : nat) : Rng := mkRng (tape g) (cursor g + k).

Definition Py (A : Type) : Type := Rng -> outcome A * Rng.

Definition ret {A} (a : A) : Py A := fun g => (Ok a, g).
Definition raise {A} (e : exn) : Py A := fun g => (Raise e, g).
Definition bind {A B} (c : Py A) (k : A -> Py B) : Py B :=
  fun g => match c g with
           | (Ok a, g') => k a g'
           | (Raise e, g') => (Raise e, g')
           end.

Notation "x <- c ;; k" := (bind c (fun x => k))
  (at level 61, c at next level, right associativity).
Notation "' pat <- c ;; k" := (bind c (fun x => match x with pat => k end))
  (at level 61, pat pattern, c at next level, right associativity).

(** [for x in xs: s = body(x, s)] *)
Fixpoint for_each {A S : Type} (xs : list A) (body : A -> S -> Py S) (s : S)
  : Py S :=
  match xs with
  | [] => ret s
  | x :: xs' => s' <- body x s ;; for_each xs' body s'
  end.

(** ** Python scalars *)

(** [x / y] when both operands are Python scalars (float or int). *)
Definition py_div (x y : R) : Py R :=
  if Req_dec_T y 0 then raise ZeroDivisionError else ret (x / y).

(** How the operands of a scalar division were given: both as Python
    scalars, or at least one as a NumPy scalar ([np.float64]). *)
Inductive operands : Type := PyScalar | NpScalar.

(** [x / y] when an operand is a NumPy scalar: NumPy's division never
    raises.  On a zero divisor it warns and returns [inf] or [nan], which
    are not real numbers: the value given here for [y = 0] stands for them
    and no statement depends on it. *)
Definition np_div (x y : R) : Py R := ret (x / y).

Definition div_as (k : operands) (x y : R) : Py R :=
  match k with
  | PyScalar => py_div x y
  | NpScalar => np_div x y
  end.

(** [assert x == y] *)
Definition py_assert_eq (x y : R) : Py unit :=
  if Req_dec_T x y then ret tt else raise AssertionError.

(** [int(np.ceil(x))] *)
Definition np_ceil (x : R) : Z := (- Int_part (- x))%Z.

(** [range(n)] for a Python int [n] (empty when [n <= 0]). *)
Definition range (n : Z) : list nat := seq 0 (Z.to_nat n).

(** [np.arange(1, n + 1)] *)
Definition arange1 (n : Z) : list Z :=
  map (fun i => (Z.of_nat i + 1)%Z) (seq 0 (Z.to_nat n)).

(** ** NumPy arrays *)

(** One-dimensional arrays are lists.  A two-dimensional array keeps its
    second dimension apart from its rows, since an array of shape [(0, N)]
    still knows [N]. *)
Record ndarray : Type := mkArr { shape1 : nat; rows : list (list R) }.

Definition shape0 (a : ndarray) : nat := length (rows a).

Definition wf (a : ndarray) : Prop :=
  Forall (fun r => length r = shape1 a) (rows a).

(** [np.ones(n)] *)
Definition ones (n : nat) : list R := repeat 1 n.

(** Elementwise operations; the operands have the same shape wherever the
    program uses them. *)
Definition amap (f : R -> R) (a : ndarray) : ndarray :=
  mkArr (shape1 a) (map (map f) (rows a)).

Definition vzip (f : R -> R -> R) (u v : list R) : list R :=
  map (fun p => f (fst p) (snd p)) (combine u v).

Definition azip (f : R -> R -> R) (a b : ndarray) : ndarray :=
  mkArr (shape1 a) (map (fun p => vzip f (fst p) (snd p))
                        (combine (rows a) (rows b))).

(** [a - c[:, None]]: the t-th entry of [c] is subtracted from row t. *)
Definition sub_col (a : ndarray) (c : list R) : ndarray :=
  mkArr (shape1 a) (map (fun p => map (fun x => x - snd p) (fst p))
                        (combine (rows a) c)).

(** [c[:, None] * a] *)
Definition mul_col (c : list R) (a : ndarray) : ndarray :=
  mkArr (shape1 a) (map (fun p => map (fun x => fst p * x) (snd p))
                        (combine c (rows a))).

(** [np.cumsum(a, axis=0)] *)
Fixpoint cumsum_from (acc : list R) (rs : list (list R)) : list (list R) :=
  match rs with
  | [] => []
  | r :: rs' => let acc' := vzip Rplus acc r in acc' :: cumsum_from acc' rs'
  end.

Definition cumsum (a : ndarray) : ndarray :=
  mkArr (shape1 a)
        match rows a with
        | [] => []
        | r :: rs => r :: cumsum_from r rs
        end.

(** [np.insert(a, 0, row, axis=0)] *)
Definition insert_row0 (a : ndarray) (row : list R) : ndarray :=
  mkArr (shape1 a) (row :: rows a).

(** [np.sum(a, axis=0)] *)
Definition sum_axis0 (a : ndarray) : list R :=
  fold_left (vzip Rplus) (rows a) (repeat 0 (shape1 a)).

(** [v.sum()] and [np.mean(v)] for a one-dimensional array *)
Definition vsum (v : list R) : R := fold_right Rplus 0 v.
Definition mean (v : list R) : R := vsum v / INR (length v).

(** [v[-1]] *)
Definition item_last (v : list R) : Py R :=
  match v with
  | [] => raise IndexError
  | _ => ret (last v 0)
  end.

(** [v[i]] *)
Definition getitem (v : list R) (i : nat) : Py R :=
  match nth_error v i with
  | Some x => ret x
  | None => raise IndexError
  end.

(** [a[t, i]] *)
Definition getitem2 (a : ndarray) (t i : nat) : Py R :=
  match nth_error (rows a) t with
  | Some r => getitem r i
  | None => raise IndexError
  end.

Fixpoint list_set (v : list R) (i : nat) (x : R) : list R :=
  match v, i with
  | [], _ => []
  | _ :: v', O => x :: v'
  | y :: v', S i' => y :: list_set v' i' x
  end.

(** [v[i] = x] *)
Definition setitem (v : list R) (i : nat) (x : R) : Py (list R) :=
  if (i <? length v)%nat then ret (list_set v i x) else raise IndexError.

(** [v[[0, -1]] = x] *)
Definition setitem_first_last (v : list R) (x : R) : Py (list R) :=
  match v with
  | [] => raise IndexError
  | _ => ret (list_set (list_set v 0 x) (length v - 1) x)
  end.

(** [np.random.standard_normal((n0, n1))]: the array is filled row by row
    from the generator. *)
Definition standard_normal (n0 : Z) (n1 : nat) : Py ndarray :=
  fun g =>
    if (n0 <? 0)%Z then (Raise ValueError, g)
    else
      (Ok (mkArr n1
             (map (fun t =>
                     map (fun k => tape g (cursor g + t * n1 + k)%nat)
                         (seq 0 n1))
                  (seq 0 (Z.to_nat n0)))),
       advance g (Z.to_nat n0 * n1)).

(** ** class ModelABC *)

Record Model : Type := mkModel {
  sigma : R;
  vov : R;
  rho : R;
  beta : R;
  intr : R;
  dt : R;          (* numerical parameter, class default 0.1 *)
  n_path : nat     (* numerical parameter, class default 10000 *)
}.

(** [ModelABC.__init__(sigma, vov, rho, beta, intr)] (lines 22-27) stores
    its arguments and checks nothing; the numerical parameters start at the
    class defaults [dt = 0.1] and [n_path = 10000]. *)
Definition init (sigma vov rho beta intr : R) : Model :=
  mkModel sigma vov rho beta intr 0.1 (100 * 100).

(** [self.dt = ...] and [self.n_path = ...] on an instance. *)
Definition set_dt (self : Model) (x : R) : Model :=
  mkModel (sigma self) (vov self) (rho self) (beta self) (intr self)
          x (n_path self).

Definition set_n_path (self : Model) (n : nat) : Model :=
  mkModel (sigma self) (vov self) (rho self) (beta self) (intr self)
          (dt self) n.

(** [self.beta = ...] *)
Definition set_beta (self : Model) (b : R) : Model :=
  mkModel (sigma self) (vov self) (rho self) b (intr self)
          (dt self) (n_path self).

(** The observation grid of lines 76 and 117:
    [tobs = np.arange(1, n_dt + 1) / n_dt * texp]. *)
Definition tobs_grid (n_dt : Z) (texp : R) : list R :=
  map (fun i => IZR i / IZR n_dt * texp) (arange1 n_dt).

(** [ModelABC.sigma_path] (lines 65-85).  The local [dt] of line 77 is
    [dt_loc] here. *)
Definition sigma_path (self : Model) (texp : R) : Py ndarray :=
  q <- py_div texp (dt self) ;;
  let n_dt := np_ceil q in
  let tobs := tobs_grid n_dt texp in
  dt_loc <- py_div texp (IZR n_dt) ;;
  t_last <- item_last tobs ;;
  _ <- py_assert_eq texp t_last ;;
  Z <- standard_normal n_dt (n_path self) ;;
  let Z_t := cumsum (amap (fun z => z * sqrt dt_loc) Z) in
  let sigma_t :=
    amap exp
      (amap (fun x => vov self * x)
         (sub_col Z_t (map (fun t => vov self / 2 * t) tobs))) in
  let sigma_t := insert_row0 sigma_t (ones (shape1 sigma_t)) in
  ret sigma_t.

(** [ModelABC.intvar_normalized] (lines 88-103). *)
Definition intvar_normalized (sigma_path : ndarray) : Py (list R) :=
  let weight := ones (shape0 sigma_path) in
  weight <- setitem_first_last weight 0.5 ;;
  let weight := map (fun w => w / vsum weight) weight in
  let intvar := sum_axis0 (mul_col weight (amap (fun x => x ^ 2) sigma_path)) in
  ret intvar.

(** ** The closed-form collaborator (pyfeng) *)

Inductive pf_kind : Type := Norm | Bsm.

(** A volatility or spot argument: a Python scalar or an array with one
    entry per path. *)
Inductive pyval : Type :=
| Scalar (x : R)
| Vector (v : list R).

(** The object built by [pf.Norm(sigma, intr=...)] or [pf.Bsm(sigma, intr=...)]. *)
Record pf_model : Type := mk_pf {
  pf_kind_of : pf_kind;
  pf_sigma : pyval;
  pf_intr : R
}.

(** What pyfeng computes for one option: the price at
    (sigma, intr, strike, spot, texp, cp) and the implied volatility at
    (intr, price, strike, spot, texp, cp). *)
Record pyfeng : Type := mk_pyfeng {
  kernel_price : pf_kind -> R -> R -> R -> R -> R -> Z -> R;
  kernel_impvol : pf_kind -> R -> R -> R -> R -> R -> Z -> R
}.

Definition broadcast (x : pyval) (n : nat) : list R :=
  match x with
  | Scalar c => repeat c n
  | Vector v => v
  end.

(** [m.price(strike[:, None], spot, texp, cp)] with [spot] an array over
    paths: one row per strike, one column per path. *)
Definition pf_price (pf : pyfeng) (m : pf_model) (strike spot : list R)
    (texp : R) (cp : Z) : list (list R) :=
  map (fun k =>
         map (fun sv => kernel_price pf (pf_kind_of m) (snd sv) (pf_intr m)
                          k (fst sv) texp cp)
             (combine spot (broadcast (pf_sigma m) (length spot))))
      strike.

(** [m.impvol(price, strike, spot, texp, cp)] with [price] and [strike]
    arrays of the same length. *)
Definition pf_impvol (pf : pyfeng) (m : pf_model) (price strike : list R)
    (spot texp : R) (cp : Z) : list R :=
  map (fun pk => kernel_impvol pf (pf_kind_of m) (pf_intr m)
                   (fst pk) (snd pk) spot texp cp)
      (combine price strike).

(** [ModelABC.base_model] (lines 29-38). *)
Definition base_model (self : Model) (sigma_arg : option pyval) : Py pf_model :=
  let sigma_v := match sigma_arg with
                 | None => Scalar (sigma self)
                 | Some s => s
                 end in
  if Req_dec_T (beta self) 0 then ret (mk_pf Norm sigma_v (intr self))
  else if Req_dec_T (beta self) 1 then ret (mk_pf Bsm sigma_v (intr self))
  else raise ValueError.

(** The signature of the abstract method [price]. *)
Definition price_method : Type :=
  Model -> list R -> R -> R -> Z -> Py (list R).

(** [ModelABC.vol_smile] (lines 40-47); [price] is the method of the
    concrete class. *)
Definition vol_smile (pf : pyfeng) (price : price_method) (self : Model)
    (strike : list R) (spot texp : R) : Py (list R) :=
  price_v <- price self strike spot texp 1%Z ;;
  m <- base_model self None ;;
  let iv := pf_impvol pf m price_v strike spot texp 1%Z in
  ret iv.

(** ** The direct Monte Carlo pricers *)

Module ModelBsmMC.

(** [ModelBsmMC.price] (lines 113-137). *)
Definition price (self : Model) (strike : list R) (spot texp : R) (cp : Z)
  : Py (list R) :=
  (* (1) Generate the paths of sigma_t. *)
  q <- py_div texp (dt self) ;;
  let n_dt := np_ceil q in
  let tobs := tobs_grid n_dt texp in
  W <- standard_normal n_dt (n_path self) ;;
  Z <- standard_normal n_dt (n_path self) ;;
  let W := azip Rplus (amap (fun z => rho self * z) Z)
                (amap (fun w => sqrt (1 - rho self ^ 2) * w) W) in
  let Z_t := cumsum (amap (fun z => z * sqrt (dt self)) Z) in
  let log_sigma :=
    amap (fun x => vov self * x)
      (sub_col Z_t (map (fun t => vov self / 2 * t) tobs)) in
  let sigma_t := amap exp log_sigma in
  let sigma_t :=
    amap (fun x => sigma self * x)
      (insert_row0 sigma_t (ones (shape1 sigma_t))) in
  (* (2) Simulate S_0, ...., S_T. *)
  let S_T := map (fun o => spot * o) (ones (n_path self)) in
  S_T <-
    for_each (seq 0 (n_path self))
      (fun i S_T =>
         s <- getitem S_T i ;;
         log_temp <-
           for_each (range n_dt)
             (fun t log_temp =>
                s_ti <- getitem2 sigma_t t i ;;
                w_ti <- getitem2 W t i ;;
                ret (log_temp
                     + (s_ti * w_ti * sqrt (dt self)
                        - 0.5 * s_ti ^ 2 * dt self)))
             (ln s) ;;
         setitem S_T i (exp log_temp))
      S_T ;;
  (* (3) Calculate option prices (vector) for all strikes *)
  let df := exp (- intr self * texp) in
  let p :=
    map (fun k => df * mean (map (fun s => Rmax (IZR cp * (s - k)) 0) S_T))
        strike in
  ret p.

End ModelBsmMC.

Module ModelNormalMC.

(** [ModelNormalMC.price] (lines 147-170). *)
Definition price (self : Model) (strike : list R) (spot texp : R) (cp : Z)
  : Py (list R) :=
  (* (1) Generate the paths of sigma_t. *)
  q <- py_div texp (dt self) ;;
  let n_dt := np_ceil q in
  let tobs := tobs_grid n_dt texp in
  W <- standard_normal n_dt (n_path self) ;;
  Z <- standard_normal n_dt (n_path self) ;;
  let W := azip Rplus (amap (fun z => rho self * z) Z)
                (amap (fun w => sqrt (1 - rho self ^ 2) * w) W) in
  let Z_t := cumsum (amap (fun z => z * sqrt (dt self)) Z) in
  let log_sigma :=
    amap (fun x => vov self * x)
      (sub_col Z_t (map (fun t => vov self / 2 * t) tobs)) in
  let sigma_t := amap exp log_sigma in
  let sigma_t :=
    amap (fun x => sigma self * x)
      (insert_row0 sigma_t (ones (shape1 sigma_t))) in
  (* (2) Simulate S_0, ...., S_T. *)
  let S_T := map (fun o => spot * o) (ones (n_path self)) in
  S_T <-
    for_each (seq 0 (n_path self))
      (fun k S_T =>
         for_each (range n_dt)
           (fun t S_T =>
              s <- getitem S_T k ;;
              s_tk <- getitem2 sigma_t t k ;;
              w_tk <- getitem2 W t k ;;
              setitem S_T k (s + s_tk * w_tk * sqrt (dt self)))
           S_T)
      S_T ;;
  (* (3) Calculate option prices (vector) for all strikes *)
  let df := exp (- intr self * texp) in
  let p :=
    map (fun k => df * mean (map (fun s => Rmax (IZR cp * (s - k)) 0) S_T))
        strike in
  ret p.

End ModelNormalMC.

(** ** The conditional Monte Carlo pricers *)

(** [a[-1, :]] and [a[0, :]] *)
Definition row_last (a : ndarray) : Py (list R) :=
  match rows a with
  | [] => raise IndexError
  | _ => ret (last (rows a) [])
  end.

Definition row_first (a : ndarray) : Py (list R) :=
  match rows a with
  | [] => raise IndexError
  | r :: _ => ret r
  end.

Module ModelBsmCondMC.

(** [ModelBsmCondMC.price] (lines 178-194). *)
Definition price (pf : pyfeng) (self : Model) (strike : list R)
    (spot texp : R) (cp : Z) : Py (list R) :=
  (* (1) Generate the paths of sigma_t and normalized integrated variance *)
  vol_path <- sigma_path self texp ;;
  row_T <- row_last vol_path ;;
  let sigma_t := map (fun x => sigma self * x) row_T in
  I_t <- intvar_normalized vol_path ;;
  (* (2) Calculate the equivalent spot and volatility of the BS model *)
  let vol := map (fun x => sigma self * sqrt ((1 - rho self ^ 2) * x)) I_t in
  c <- py_div (rho self) (vov self) ;;
  let log_temp :=
    vzip Rminus
      (map (fun s => c * (s - sigma self)) sigma_t)
      (map (fun x => rho self ^ 2 * sigma self ^ 2 * texp / 2 * x) I_t) in
  let spot_equiv := map (fun l => spot * exp l) log_temp in
  (* (3) Calculate option prices (vector) by averaging the BS prices *)
  m <- base_model self (Some (Vector vol)) ;;
  let p := map mean (pf_price pf m strike spot_equiv texp cp) in
  ret p.

(** The same method (lines 178-194) with the operands of
    [self.rho / self.vov] (line 187) given as [k]; [price] above is
    [price_as PyScalar]. *)
Definition price_as (k : operands) (pf : pyfeng) (self : Model)
    (strike : list R) (spot texp : R) (cp : Z) : Py (list R) :=
  (* (1) Generate the paths of sigma_t and normalized integrated variance *)
  vol_path <- sigma_path self texp ;;
  row_T <- row_last vol_path ;;
  let sigma_t := map (fun x => sigma self * x) row_T in
  I_t <- intvar_normalized vol_path ;;
  (* (2) Calculate the equivalent spot and volatility of the BS model *)
  let vol := map (fun x => sigma self * sqrt ((1 - rho self ^ 2) * x)) I_t in
  c <- div_as k (rho self) (vov self) ;;
  let log_temp :=
    vzip Rminus
      (map (fun s => c * (s - sigma self)) sigma_t)
      (map (fun x => rho self ^ 2 * sigma self ^ 2 * texp / 2 * x) I_t) in
  let spot_equiv := map (fun l => spot * exp l) log_temp in
  (* (3) Calculate option prices (vector) by averaging the BS prices *)
  m <- base_model self (Some (Vector vol)) ;;
  let p := map mean (pf_price pf m strike spot_equiv texp cp) in
  ret p.

End ModelBsmCondMC.

Module ModelNormalCondMC.

(** [ModelNormalCondMC.price] (lines 203-220). *)
Definition price (pf : pyfeng) (self : Model) (strike : list R)
    (spot texp : R) (cp : Z) : Py (list R) :=
  (* (1) Generate the paths of sigma_t and normalized integrated variance *)
  vol_path <- sigma_path self texp ;;
  sigma_t <- row_last vol_path ;;
  sigma_0 <- row_first vol_path ;;
  I_t <- intvar_normalized vol_path ;;
  (* (2) Calculate the equivalent spot and volatility of the BS model *)
  let vol := map (fun x => sigma self * sqrt ((1 - rho self ^ 2) * x)) I_t in
  c <- py_div (rho self) (vov self) ;;
  let spot_equiv :=
    map (fun d => spot + c * d) (vzip Rminus sigma_t sigma_0) in
  (* (3) Calculate option prices (vector) by averaging the Bachelier prices *)
  m <- base_model self (Some (Vector vol)) ;;
  let p := map mean (pf_price pf m strike spot_equiv texp cp) in
  ret p.

(** The same method (lines 203-220) with the operands of
    [self.rho / self.vov] (line 214) given as [k]; [price] above is
    [price_as PyScalar]. *)
Definition price_as (k : operands) (pf : pyfeng) (self : Model)
    (strike : list R) (spot texp : R) (cp : Z) : Py (list R) :=
  (* (1) Generate the paths of sigma_t and normalized integrated variance *)
  vol_path <- sigma_path self texp ;;
  sigma_t <- row_last vol_path ;;
  sigma_0 <- row_first vol_path ;;
  I_t <- intvar_normalized vol_path ;;
  (* (2) Calculate the equivalent spot and volatility of the BS model *)
  let vol := map (fun x => sigma self * sqrt ((1 - rho self ^ 2) * x)) I_t in
  c <- div_as k (rho self) (vov self) ;;
  let spot_equiv :=
    map (fun d => spot + c * d) (vzip Rminus sigma_t sigma_0) in
  (* (3) Calculate option prices (vector) by averaging the Bachelier prices *)
  m <- base_model self (Some (Vector vol)) ;;
  let p := map mean (pf_price pf m strike spot_equiv texp cp) in
  ret p.

End ModelNormalCondMC.

(** The four concrete classes and the dispatch of [price]. *)
Inductive pricer : Type := BsmMC | NormalMC | BsmCondMC | NormalCondMC.

Definition price_of (pf : pyfeng) (c : pricer) : price_method :=
  match c with
  | BsmMC => ModelBsmMC.price
  | NormalMC => ModelNormalMC.price
  | BsmCondMC => ModelBsmCondMC.price pf
  | NormalCondMC => ModelNormalCondMC.price pf
  end.

(** ** The pricing methods, step by step

    Each [price] above runs its three commented steps in sequence.  The
    steps are named here so that the statements can speak of the terminal
    spots and of the equivalent spot and volatility; [price] is proved equal
    to their composition below. *)

(** Step (1) of [ModelBsmMC.price] (lines 116-124); lines 150-158 of
    [ModelNormalMC.price] are the same text.  Returns [n_dt], the correlated
    [W] and the un-normalized [sigma_t]. *)
Definition mc_paths (self : Model) (texp : R) : Py (Z * ndarray * ndarray) :=
  q <- py_div texp (dt self) ;;
  let n_dt := np_ceil q in
  let tobs := tobs_grid n_dt texp in
  W <- standard_normal n_dt (n_path self) ;;
  Z <- standard_normal n_dt (n_path self) ;;
  let W := azip Rplus (amap (fun z => rho self * z) Z)
                (amap (fun w => sqrt (1 - rho self ^ 2) * w) W) in
  let Z_t := cumsum (amap (fun z => z * sqrt (dt self)) Z) in
  let log_sigma :=
    amap (fun x => vov self * x)
      (sub_col Z_t (map (fun t => vov self / 2 * t) tobs)) in
  let sigma_t := amap exp log_sigma in
  let sigma_t :=
    amap (fun x => sigma self * x)
      (insert_row0 sigma_t (ones (shape1 sigma_t))) in
  ret (n_dt, W, sigma_t).

(** Step (3) of both direct pricers (lines 135-136 and 168-169):
    [df * np.mean(np.fmax(cp*(S_T - strike[:, None]), 0.0), axis=1)]. *)
Definition mc_prices (self : Model) (strike : list R) (texp : R) (cp : Z)
    (S_T : list R) : list R :=
  let df := exp (- intr self * texp) in
  map (fun k => df * mean (map (fun s => Rmax (IZR cp * (s - k)) 0) S_T))
      strike.

(** Step (2) of [ModelBsmMC.price], lines 127-132. *)
Definition bsm_simulate (self : Model) (spot : R) (n_dt : Z)
    (W sigma_t : ndarray) : Py (list R) :=
  let S_T := map (fun o => spot * o) (ones (n_path self)) in
  for_each (seq 0 (n_path self))
    (fun i S_T =>
       s <- getitem S_T i ;;
       log_temp <-
         for_each (range n_dt)
           (fun t log_temp =>
              s_ti <- getitem2 sigma_t t i ;;
              w_ti <- getitem2 W t i ;;
              ret (log_temp
                   + (s_ti * w_ti * sqrt (dt self)
                      - 0.5 * s_ti ^ 2 * dt self)))
           (ln s) ;;
       setitem S_T i (exp log_temp))
    S_T.

(** The terminal spots [S_T] of one call of [ModelBsmMC.price]: steps (1)
    and (2). *)
Definition bsm_terminal_spot (self : Model) (spot texp : R) : Py (list R) :=
  ' (n_dt, W, sigma_t) <- mc_paths self texp ;;
  bsm_simulate self spot n_dt W sigma_t.

(** Step (2) of [ModelNormalMC.price], lines 162-165. *)
Definition normal_simulate (self : Model) (spot : R) (n_dt : Z)
    (W sigma_t : ndarray) : Py (list R) :=
  let S_T := map (fun o => spot * o) (ones (n_path self)) in
  for_each (seq 0 (n_path self))
    (fun k S_T =>
       for_each (range n_dt)
         (fun t S_T =>
            s <- getitem S_T k ;;
            s_tk <- getitem2 sigma_t t k ;;
            w_tk <- getitem2 W t k ;;
            setitem S_T k (s + s_tk * w_tk * sqrt (dt self)))
         S_T)
    S_T.

(** The terminal spots [S_T] of one call of [ModelNormalMC.price]. *)
Definition normal_terminal_spot (self : Model) (spot texp : R)
  : Py (list R) :=
  ' (n_dt, W, sigma_t) <- mc_paths self texp ;;
  normal_simulate self spot n_dt W sigma_t.

(** Steps (1) and (2) of [ModelBsmCondMC.price], lines 181-188: the
    equivalent spot and the effective volatility of every path. *)
Definition bsm_cond_equiv (self : Model) (spot texp : R)
  : Py (list R * list R) :=
  vol_path <- sigma_path self texp ;;
  row_T <- row_last vol_path ;;
  let sigma_t := map (fun x => sigma self * x) row_T in
  I_t <- intvar_normalized vol_path ;;
  let vol := map (fun x => sigma self * sqrt ((1 - rho self ^ 2) * x)) I_t in
  c <- py_div (rho self) (vov self) ;;
  let log_temp :=
    vzip Rminus
      (map (fun s => c * (s - sigma self)) sigma_t)
      (map (fun x => rho self ^ 2 * sigma self ^ 2 * texp / 2 * x) I_t) in
  let spot_equiv := map (fun l => spot * exp l) log_temp in
  ret (spot_equiv, vol).

(** Steps (1) and (2) of [ModelNormalCondMC.price], lines 207-214. *)
Definition normal_cond_equiv (self : Model) (spot texp : R)
  : Py (list R * list R) :=
  vol_path <- sigma_path self texp ;;
  sigma_t <- row_last vol_path ;;
  sigma_0 <- row_first vol_path ;;
  I_t <- intvar_normalized vol_path ;;
  let vol := map (fun x => sigma self * sqrt ((1 - rho self ^ 2) * x)) I_t in
  c <- py_div (rho self) (vov self) ;;
  let spot_equiv :=
    map (fun d => spot + c * d) (vzip Rminus sigma_t sigma_0) in
  ret (spot_equiv, vol).

(** Step (3) of both conditional pricers (lines 191-192 and 217-218). *)
Definition cond_prices (pf : pyfeng) (self : Model) (strike : list R)
    (texp : R) (cp : Z) (sv : list R * list R) : Py (list R) :=
  m <- base_model self (Some (Vector (snd sv))) ;;
  let p := map mean (pf_price pf m strike (fst sv) texp cp) in
  ret p.

(** ** Vocabulary of the statements *)

(** [a[t, k]], read without bounds check (0 outside the array). *)
Definition entry (a : ndarray) (t k : nat) : R := nth k (nth t (rows a) []) 0.

(** The sum of [f 0], ..., [f (n - 1)]. *)
Definition sum_over (n : nat) (f : nat -> R) : R := vsum (map f (seq 0 n)).

(** Trapezoidal weights on the time indices [0 .. n_steps]. *)
Definition trap_weight (n_steps t : nat) : R :=
  if ((t =? 0) || (t =? n_steps))%nat then 0.5 else 1.

(** The quantity accumulated along path [i] by the inner loop of
    [ModelBsmMC.price] over [n] steps, and by that of [ModelNormalMC.price]. *)
Definition bsm_log_return (self : Model) (W sigma_t : ndarray) (n i : nat) : R :=
  sum_over n (fun t => entry sigma_t t i * entry W t i * sqrt (dt self)
                       - 0.5 * entry sigma_t t i ^ 2 * dt self).

Definition normal_increment (self : Model) (W sigma_t : ndarray) (n i : nat)
  : R :=
  sum_over n (fun t => entry sigma_t t i * entry W t i * sqrt (dt self)).

(** The draw that lands at row [t], column [k] of an array of [N] columns
    filled from generator [g]. *)
Definition draw (g : Rng) (N t k : nat) : R :=
  tape g (cursor g + t * N + k)%nat.

(** The normalized volatility after [t + 1] steps of size-[h] increments
    [z 0 k], ..., [z t k], observed at time [nth t tobs 0]. *)
Definition vol_value (nu h : R) (z : nat -> nat -> R) (tobs : list R)
    (t k : nat) : R :=
  exp (nu * (sum_over (S t) (fun s => z s k * sqrt h) - nu / 2 * nth t tobs 0)).

(** The arrays of step (1) of the direct pricers, entry by entry: [g] is the
    generator state at the call (it fills [W]) and [g1] the state after [W]
    has been drawn (it fills [Z]). *)
Definition mc_W (self : Model) (g g1 : Rng) (t k : nat) : R :=
  rho self * draw g1 (n_path self) t k
  + sqrt (1 - rho self ^ 2) * draw g (n_path self) t k.

Definition mc_sigma (self : Model) (g1 : Rng) (tobs : list R) (t k : nat) : R :=
  match t with
  | O => sigma self * 1
  | S t' =>
      sigma self
      * vol_value (vov self) (dt self) (draw g1 (n_path self)) tobs t' k
  end.

(** Two generator states that stand at the same position and hold the same
    next [m] draws. *)
Definition agree_on (g g' : Rng) (m : nat) : Prop :=
  cursor g = cursor g' /\
  forall i, (i < m)%nat -> tape g (cursor g + i) = tape g' (cursor g' + i).

(** * Proofs *)

(** ** The monad *)

Lemma bind_ok {A B} (c : Py A) (k : A -> Py B) g a g' :
  c g = (Ok a, g') -> bind c k g = k a g'.
Proof. intros H; unfold bind; now rewrite H. Qed.

Lemma bind_raise {A B} (c : Py A) (k : A -> Py B) g e g' :
  c g = (Raise e, g') -> bind c k g = (Raise e, g').
Proof. intros H; unfold bind; now rewrite H. Qed.

Lemma py_div_ok x y g : y <> 0 -> py_div x y g = (Ok (x / y), g).
Proof.
  intros Hy; unfold py_div; destruct (Req_dec_T y 0); [contradiction | reflexivity].
Qed.

Lemma py_div_zero x g : py_div x 0 g = (Raise ZeroDivisionError, g).
Proof.
  unfold py_div; destruct (Req_dec_T 0 0); [reflexivity | congruence].
Qed.

Lemma py_assert_eq_refl x g : py_assert_eq x x g = (Ok tt, g).
Proof.
  unfold py_assert_eq; destruct (Req_dec_T x x); [reflexivity | congruence].
Qed.

(** ** Each [price] is the composition of its steps *)

Lemma bind_assoc {A B C} (c : Py A) (k1 : A -> Py B) (k2 : B -> Py C) g :
  bind (bind c k1) k2 g = bind c (fun a => bind (k1 a) k2) g.
Proof. unfold bind. destruct (c g) as [[a | e] g']; reflexivity. Qed.

Lemma bind_ext {A B} (c : Py A) (k1 k2 : A -> Py B) g :
  (forall a g', k1 a g' = k2 a g') -> bind c k1 g = bind c k2 g.
Proof.
  intros H. unfold bind. destruct (c g) as [[a | e] g']; [apply H | reflexivity].
Qed.

Lemma bsm_price_steps self strike spot texp cp g :
  ModelBsmMC.price self strike spot texp cp g
  = (S_T <- bsm_terminal_spot self spot texp ;;
     ret (mc_prices self strike texp cp S_T)) g.
Proof.
  unfold bsm_terminal_spot, mc_paths. symmetry.
  rewrite bind_assoc, bind_assoc. apply bind_ext. intros q g1.
  rewrite bind_assoc. apply bind_ext. intros W g2.
  rewrite bind_assoc. apply bind_ext. intros Z g3.
  reflexivity.
Qed.

Lemma normal_price_steps self strike spot texp cp g :
  ModelNormalMC.price self strike spot texp cp g
  = (S_T <- normal_terminal_spot self spot texp ;;
     ret (mc_prices self strike texp cp S_T)) g.
Proof.
  unfold normal_terminal_spot, mc_paths. symmetry.
  rewrite bind_assoc, bind_assoc. apply bind_ext. intros q g1.
  rewrite bind_assoc. apply bind_ext. intros W g2.
  rewrite bind_assoc. apply bind_ext. intros Z g3.
  reflexivity.
Qed.

Lemma bsm_cond_price_steps pf self strike spot texp cp g :
  ModelBsmCondMC.price pf self strike spot texp cp g
  = (sv <- bsm_cond_equiv self spot texp ;;
     cond_prices pf self strike texp cp sv) g.
Proof.
  unfold bsm_cond_equiv. symmetry.
  rewrite bind_assoc. apply bind_ext. intros vol_path g1.
  rewrite bind_assoc. apply bind_ext. intros row_T g2.
  rewrite bind_assoc. apply bind_ext. intros I_t g3.
  rewrite bind_assoc. apply bind_ext. intros c g4.
  reflexivity.
Qed.

Lemma normal_cond_price_steps pf self strike spot texp cp g :
  ModelNormalCondMC.price pf self strike spot texp cp g
  = (sv <- normal_cond_equiv self spot texp ;;
     cond_prices pf self strike texp cp sv) g.
Proof.
  unfold normal_cond_equiv. symmetry.
  rewrite bind_assoc. apply bind_ext. intros vol_path g1.
  rewrite bind_assoc. apply bind_ext. intros sigma_t g2.
  rewrite bind_assoc. apply bind_ext. intros sigma_0 g3.
  rewrite bind_assoc. apply bind_ext. intros I_t g4.
  rewrite bind_assoc. apply bind_ext. intros c g5.
  reflexivity.
Qed.

(** ** Ceiling *)

Lemma np_ceil_spec x : IZR (np_ceil x) - 1 < x <= IZR (np_ceil x).
Proof.
  unfold np_ceil, Int_part.
  destruct (archimed (- x)) as [H1 H2].
  rewrite opp_IZR, minus_IZR. lra.
Qed.

Lemma np_ceil_unique x n : IZR n - 1 < x <= IZR n -> np_ceil x = n.
Proof.
  intros [H1 H2]. destruct (np_ceil_spec x) as [H3 H4].
  assert (Hlt1 : IZR (np_ceil x - 1) < IZR n) by (rewrite minus_IZR; lra).
  assert (Hlt2 : IZR (n - 1) < IZR (np_ceil x)) by (rewrite minus_IZR; lra).
  apply lt_IZR in Hlt1, Hlt2. lia.
Qed.

Lemma np_ceil_pos x : 0 < x -> (1 <= np_ceil x)%Z.
Proof.
  intros Hx. destruct (np_ceil_spec x) as [_ H].
  assert (Hlt : IZR 0 < IZR (np_ceil x)) by lra.
  apply lt_IZR in Hlt. lia.
Qed.

Lemma div_pos x y : 0 < x -> 0 < y -> 0 < x / y.
Proof. intros; apply Rdiv_lt_0_compat; assumption. Qed.

(** ** Lists and arrays *)

Lemma vsum_app u v : vsum (u ++ v) = vsum u + vsum v.
Proof. induction u as [|x u IH]; simpl; [lra | rewrite IH; lra]. Qed.

Lemma vsum_repeat c n : vsum (repeat c n) = INR n * c.
Proof.
  induction n as [|n IH]; [simpl; lra |].
  rewrite S_INR. simpl repeat. simpl vsum. rewrite IH. lra.
Qed.

Lemma vsum_nonneg v : Forall (fun x => 0 <= x) v -> 0 <= vsum v.
Proof.
  induction 1 as [|x v Hx _ IH]; simpl; lra.
Qed.

Lemma vsum_map_ext {A} (f h : A -> R) l :
  (forall x, In x l -> f x = h x) -> vsum (map f l) = vsum (map h l).
Proof.
  intros H. f_equal. apply map_ext_in. exact H.
Qed.

Lemma sum_over_ext n f h :
  (forall t, (t < n)%nat -> f t = h t) -> sum_over n f = sum_over n h.
Proof.
  intros H. unfold sum_over. apply vsum_map_ext.
  intros t Ht. apply in_seq in Ht. apply H. lia.
Qed.

Lemma sum_over_S_left n f :
  sum_over (S n) f = f 0%nat + sum_over n (fun t => f (S t)).
Proof.
  unfold sum_over. simpl. rewrite <- seq_shift, map_map. reflexivity.
Qed.

Lemma sum_over_S_right n f : sum_over (S n) f = sum_over n f + f n.
Proof.
  unfold sum_over. rewrite seq_S, map_app, vsum_app. simpl. lra.
Qed.

Lemma sum_over_nonneg n f :
  (forall t, (t < n)%nat -> 0 <= f t) -> 0 <= sum_over n f.
Proof.
  intros H. unfold sum_over. apply vsum_nonneg.
  apply Forall_forall. intros x Hx. apply in_map_iff in Hx.
  destruct Hx as [t [<- Ht]]. apply in_seq in Ht. apply H. lia.
Qed.

Lemma vsum_nth v : vsum v = sum_over (length v) (fun t => nth t v 0).
Proof.
  induction v as [|x v IH]; [reflexivity |].
  cbn [length]. rewrite sum_over_S_left. simpl. now rewrite IH.
Qed.

Lemma length_list_set v i x : length (list_set v i x) = length v.
Proof.
  revert i; induction v as [|y v IH]; intros [|i]; simpl; auto.
Qed.

Lemma nth_list_set_eq v i x d :
  (i < length v)%nat -> nth i (list_set v i x) d = x.
Proof.
  revert i; induction v as [|y v IH]; intros [|i] H; simpl in *; try lia; auto.
  apply IH. lia.
Qed.

Lemma nth_list_set_neq v i j x d :
  i <> j -> nth j (list_set v i x) d = nth j v d.
Proof.
  revert i j; induction v as [|y v IH]; intros [|i] [|j] H; simpl; auto; try lia.
Qed.

Lemma vsum_list_set v i x :
  (i < length v)%nat -> vsum (list_set v i x) = vsum v - nth i v 0 + x.
Proof.
  revert i; induction v as [|y v IH]; intros [|i] H; simpl in *; try lia; try lra.
  rewrite IH by lia. lra.
Qed.

Lemma nth_repeat_lt (c d : R) n i : (i < n)%nat -> nth i (repeat c n) d = c.
Proof.
  revert i; induction n as [|n IH]; intros [|i] H; simpl; try lia; auto.
  apply IH. lia.
Qed.

Lemma length_vzip f u v : length u = length v -> length (vzip f u v) = length u.
Proof.
  intros H. unfold vzip. rewrite length_map, length_combine. lia.
Qed.

Lemma nth_vzip f u v k :
  length u = length v -> (k < length u)%nat ->
  nth k (vzip f u v) 0 = f (nth k u 0) (nth k v 0).
Proof.
  revert v k; induction u as [|x u IH]; intros [|y v] [|k] Hl Hk;
    simpl in *; try lia; auto.
  apply IH; lia.
Qed.

(** Column sums: entry [k] of [np.sum(., axis=0)]. *)
Lemma fold_vzip_plus rs : forall acc N,
  length acc = N -> Forall (fun r => length r = N) rs ->
  length (fold_left (vzip Rplus) rs acc) = N /\
  forall k, (k < N)%nat ->
    nth k (fold_left (vzip Rplus) rs acc) 0
    = nth k acc 0 + sum_over (length rs) (fun t => nth k (nth t rs []) 0).
Proof.
  induction rs as [|r rs IH]; intros acc N Hacc Hrs.
  - simpl. split; [exact Hacc |]. intros k _. unfold sum_over. simpl. lra.
  - inversion Hrs as [|? ? Hr Hrs']; subst.
    assert (Hlen : length (vzip Rplus acc r) = length acc).
    { rewrite length_vzip; congruence. }
    destruct (IH (vzip Rplus acc r) (length acc) Hlen Hrs') as [IH1 IH2].
    simpl fold_left. split; [exact IH1 |].
    intros k Hk. rewrite IH2 by exact Hk.
    rewrite nth_vzip by (try congruence; lia).
    cbn [length]. rewrite sum_over_S_left. simpl. lra.
Qed.

Lemma sum_axis0_spec a :
  wf a ->
  length (sum_axis0 a) = shape1 a /\
  forall k, (k < shape1 a)%nat ->
    nth k (sum_axis0 a) 0 = sum_over (shape0 a) (fun t => entry a t k).
Proof.
  intros Hwf. unfold sum_axis0.
  destruct (fold_vzip_plus (rows a) (repeat 0 (shape1 a)) (shape1 a)) as [H1 H2].
  - apply repeat_length.
  - exact Hwf.
  - split; [exact H1 |]. intros k Hk. rewrite H2 by exact Hk.
    rewrite nth_repeat_lt by exact Hk. unfold entry, shape0. lra.
Qed.

Lemma nth_map_lt {A B} (f : A -> B) l t da db :
  (t < length l)%nat -> nth t (map f l) db = f (nth t l da).
Proof.
  revert t; induction l as [|x l IH]; intros [|t] H; simpl in *; try lia; auto.
  apply IH. lia.
Qed.

Lemma nth_combine_lt {A B} (u : list A) (v : list B) t da db :
  (t < length u)%nat -> (t < length v)%nat ->
  nth t (combine u v) (da, db) = (nth t u da, nth t v db).
Proof.
  revert v t; induction u as [|x u IH]; intros [|y v] [|t] Hu Hv;
    simpl in *; try lia; auto.
  apply IH; lia.
Qed.

Lemma entry_amap f a t k :
  wf a -> (t < shape0 a)%nat -> (k < shape1 a)%nat ->
  entry (amap f a) t k = f (entry a t k).
Proof.
  intros Hwf Ht Hk. unfold entry, amap, shape0 in *. simpl.
  rewrite (nth_map_lt (map f) (rows a) t [] []) by exact Ht.
  apply nth_map_lt.
  unfold wf in Hwf. rewrite Forall_forall in Hwf.
  rewrite (Hwf (nth t (rows a) [])); [exact Hk | apply nth_In; exact Ht].
Qed.

Lemma wf_amap f a : wf a -> wf (amap f a).
Proof.
  unfold wf, amap. simpl. intros H. apply Forall_map.
  eapply Forall_impl; [| exact H]. simpl. intros r Hr. now rewrite length_map.
Qed.

Lemma shape0_amap f a : shape0 (amap f a) = shape0 a.
Proof. unfold shape0, amap. simpl. apply length_map. Qed.

Lemma wf_mul_col c a : wf a -> wf (mul_col c a).
Proof.
  unfold wf, mul_col. simpl. intros H. apply Forall_map.
  apply Forall_forall. intros [x r] Hin. simpl. rewrite length_map.
  apply in_combine_r in Hin. rewrite Forall_forall in H. now apply H.
Qed.

Lemma shape0_mul_col c a :
  length c = shape0 a -> shape0 (mul_col c a) = shape0 a.
Proof.
  intros H. unfold shape0, mul_col in *. simpl.
  rewrite length_map, length_combine. lia.
Qed.

Lemma entry_mul_col c a t k :
  wf a -> length c = shape0 a -> (t < shape0 a)%nat -> (k < shape1 a)%nat ->
  entry (mul_col c a) t k = nth t c 0 * entry a t k.
Proof.
  intros Hwf Hc Ht Hk. unfold entry, mul_col, shape0 in *. simpl.
  rewrite (nth_map_lt _ (combine c (rows a)) t (0, []) [])
    by (rewrite length_combine; lia).
  rewrite nth_combine_lt by lia. simpl.
  apply nth_map_lt.
  unfold wf in Hwf. rewrite Forall_forall in Hwf.
  rewrite (Hwf (nth t (rows a) [])); [exact Hk | apply nth_In; exact Ht].
Qed.

(** ** The variance aggregator *)

(** The weights of line 100, before normalization. *)
Lemma trapezoid_weights n :
  (1 <= n)%nat ->
  let w := list_set (list_set (ones (S n)) 0 0.5) (S n - 1) 0.5 in
  length w = S n /\ vsum w = INR n /\
  forall t, (t <= n)%nat -> nth t w 0 = trap_weight n t.
Proof.
  intros Hn w. subst w.
  replace (S n - 1)%nat with n by lia.
  assert (Hl0 : length (list_set (ones (S n)) 0 0.5) = S n).
  { rewrite length_list_set. apply repeat_length. }
  split; [| split].
  - now rewrite length_list_set.
  - rewrite vsum_list_set by lia.
    rewrite nth_list_set_neq by lia.
    rewrite vsum_list_set by (unfold ones; rewrite repeat_length; lia).
    unfold ones. rewrite !nth_repeat_lt by lia.
    rewrite vsum_repeat, S_INR. lra.
  - intros t Ht. unfold trap_weight.
    destruct (Nat.eqb_spec t n) as [-> | Hne].
    + rewrite orb_true_r. apply nth_list_set_eq. lia.
    + rewrite orb_false_r. rewrite nth_list_set_neq by lia.
      destruct (Nat.eqb_spec t 0) as [-> | Hne0].
      * apply nth_list_set_eq. unfold ones. rewrite repeat_length. lia.
      * rewrite nth_list_set_neq by lia. apply nth_repeat_lt. lia.
Qed.

Lemma sum_trap_weight n :
  (1 <= n)%nat -> sum_over (S n) (trap_weight n) = INR n.
Proof.
  intros Hn. destruct (trapezoid_weights n Hn) as [Hl [Hs Hw]].
  rewrite <- Hs, vsum_nth, Hl. apply sum_over_ext. intros t Ht.
  symmetry. apply Hw. lia.
Qed.

(** What [intvar_normalized] returns on an array with at least two rows. *)
Lemma intvar_normalized_ok (a : ndarray) (n : nat) g :
  (1 <= n)%nat -> shape0 a = S n -> wf a ->
  exists v,
    intvar_normalized a g = (Ok v, g) /\
    length v = shape1 a /\
    forall k, (k < shape1 a)%nat ->
      nth k v 0
      = sum_over (S n) (fun t => trap_weight n t / INR n * entry a t k ^ 2).
Proof.
  intros Hn Hs Hwf.
  destruct (trapezoid_weights n Hn) as [Hl [Hsum Hw]].
  unfold intvar_normalized. rewrite Hs.
  unfold setitem_first_last. simpl ones at 1.
  cbv beta iota. unfold bind, ret.
  change (1 :: repeat 1 n) with (ones (S n)).
  replace (length (ones (S n)) - 1)%nat with (S n - 1)%nat
    by (unfold ones; now rewrite repeat_length).
  set (w := list_set (list_set (ones (S n)) 0 0.5) (S n - 1) 0.5) in *.
  eexists. split; [reflexivity |].
  set (wn := map (fun x => x / vsum w) w).
  set (b := amap (fun x => x ^ 2) a).
  assert (Hwfb : wf b) by (apply wf_amap; exact Hwf).
  assert (Hsb : shape0 b = S n) by (unfold b; rewrite shape0_amap; exact Hs).
  assert (Hlwn : length wn = shape0 b).
  { unfold wn. rewrite length_map. congruence. }
  destruct (sum_axis0_spec (mul_col wn b) (wf_mul_col wn b Hwfb)) as [H1 H2].
  split; [exact H1 |].
  intros k Hk. rewrite H2 by exact Hk.
  rewrite shape0_mul_col, Hsb by exact Hlwn.
  apply sum_over_ext. intros t Ht.
  rewrite entry_mul_col by (try assumption; try lia; exact Hk).
  unfold b. rewrite entry_amap by (try assumption; try lia; exact Hk).
  unfold wn. rewrite (nth_map_lt _ w t 0 0) by lia.
  rewrite Hsum, Hw by lia. reflexivity.
Qed.

Lemma sum_over_scal n f c :
  sum_over n (fun t => f t * c) = sum_over n f * c.
Proof.
  induction n as [|n IH]; [unfold sum_over; simpl; lra |].
  rewrite !sum_over_S_right, IH. lra.
Qed.

Lemma trap_weight_nonneg n t : 0 <= trap_weight n t.
Proof. unfold trap_weight. destruct (_ || _); lra. Qed.

(** ** The path generator *)

Lemma length_arange1 n : length (arange1 n) = Z.to_nat n.
Proof. unfold arange1. now rewrite length_map, length_seq. Qed.

Lemma length_tobs_grid n texp : length (tobs_grid n texp) = Z.to_nat n.
Proof. unfold tobs_grid. now rewrite length_map, length_arange1. Qed.

Lemma nth_tobs_grid n texp i :
  (i < Z.to_nat n)%nat ->
  nth i (tobs_grid n texp) 0 = IZR (Z.of_nat i + 1) / IZR n * texp.
Proof.
  intros Hi. unfold tobs_grid, arange1. rewrite map_map.
  rewrite (nth_map_lt _ (seq 0 (Z.to_nat n)) i 0%nat 0)
    by (rewrite length_seq; exact Hi).
  rewrite seq_nth by exact Hi. reflexivity.
Qed.

Lemma last_as_nth {A} (v : list A) d : last v d = nth (length v - 1) v d.
Proof.
  induction v as [|x v IH]; [reflexivity |].
  destruct v as [|y v]; [reflexivity |].
  change (last (x :: y :: v) d) with (last (y :: v) d). rewrite IH.
  simpl. now rewrite Nat.sub_0_r.
Qed.

Lemma item_last_ok v g :
  (0 < length v)%nat -> item_last v g = (Ok (last v 0), g).
Proof. destruct v; simpl; [lia | reflexivity]. Qed.

Lemma item_last_empty g : item_last [] g = (Raise IndexError, g).
Proof. reflexivity. Qed.

(** The grid ends at [texp]: [n_dt / n_dt * texp]. *)
Lemma last_tobs_grid n texp :
  (1 <= n)%Z -> last (tobs_grid n texp) 0 = texp.
Proof.
  intros Hn. rewrite last_as_nth, length_tobs_grid.
  rewrite nth_tobs_grid by lia.
  replace (Z.of_nat (Z.to_nat n - 1) + 1)%Z with n by lia.
  assert (IZR n <> 0) by (apply not_0_IZR; lia).
  field. assumption.
Qed.

Lemma standard_normal_ok n0 n1 g :
  (0 <= n0)%Z ->
  exists a,
    standard_normal n0 n1 g = (Ok a, advance g (Z.to_nat n0 * n1)) /\
    shape0 a = Z.to_nat n0 /\ shape1 a = n1 /\ wf a /\
    forall t k, (t < Z.to_nat n0)%nat -> (k < n1)%nat ->
      entry a t k = tape g (cursor g + t * n1 + k)%nat.
Proof.
  intros Hn. unfold standard_normal.
  destruct (Z.ltb_spec n0 0); [lia |].
  eexists. split; [reflexivity |].
  unfold shape0, wf, entry. simpl. repeat split.
  - now rewrite length_map, length_seq.
  - apply Forall_map, Forall_forall. intros t _.
    now rewrite length_map, length_seq.
  - intros t k Ht Hk.
    rewrite (nth_map_lt _ (seq 0 (Z.to_nat n0)) t 0%nat [])
      by (rewrite length_seq; exact Ht).
    rewrite (nth_map_lt _ (seq 0 n1) k 0%nat 0)
      by (rewrite length_seq; exact Hk).
    now rewrite !seq_nth by assumption.
Qed.

Lemma standard_normal_negative n0 n1 g :
  (n0 < 0)%Z -> standard_normal n0 n1 g = (Raise ValueError, g).
Proof.
  intros Hn. unfold standard_normal. destruct (Z.ltb_spec n0 0); [reflexivity | lia].
Qed.

Lemma length_cumsum_from rs : forall acc,
  length (cumsum_from acc rs) = length rs.
Proof. induction rs as [|r rs IH]; intros acc; simpl; auto. Qed.

Lemma wf_cumsum_from N rs : forall acc,
  length acc = N -> Forall (fun r => length r = N) rs ->
  Forall (fun r => length r = N) (cumsum_from acc rs).
Proof.
  induction rs as [|r rs IH]; intros acc Hacc Hrs; simpl; [constructor |].
  inversion Hrs; subst.
  assert (Hl : length (vzip Rplus acc r) = length acc)
    by (apply length_vzip; congruence).
  constructor; [exact Hl | apply IH; assumption].
Qed.

Lemma shape0_cumsum a : shape0 (cumsum a) = shape0 a.
Proof.
  unfold shape0, cumsum. simpl. destruct (rows a) as [|r rs]; [reflexivity |].
  simpl. now rewrite length_cumsum_from.
Qed.

Lemma wf_cumsum a : wf a -> wf (cumsum a).
Proof.
  unfold wf, cumsum. simpl. intros H.
  destruct (rows a) as [|r rs]; [constructor |].
  inversion H; subst. constructor; [assumption |].
  apply wf_cumsum_from; assumption.
Qed.

Lemma shape0_sub_col a c :
  length c = shape0 a -> shape0 (sub_col a c) = shape0 a.
Proof.
  intros H. unfold shape0, sub_col in *. simpl.
  rewrite length_map, length_combine. lia.
Qed.

Lemma wf_sub_col a c : wf a -> wf (sub_col a c).
Proof.
  unfold wf, sub_col. simpl. intros H. apply Forall_map.
  apply Forall_forall. intros [r x] Hin. simpl. rewrite length_map.
  apply in_combine_l in Hin. rewrite Forall_forall in H. now apply H.
Qed.

Lemma wf_insert_row0 a row :
  wf a -> length row = shape1 a -> wf (insert_row0 a row).
Proof.
  unfold wf, insert_row0. simpl. intros H Hr. constructor; assumption.
Qed.

Lemma nth_row_length a t :
  wf a -> (t < shape0 a)%nat -> length (nth t (rows a) []) = shape1 a.
Proof.
  intros Hwf Ht. unfold wf in Hwf. rewrite Forall_forall in Hwf.
  apply Hwf, nth_In, Ht.
Qed.

Lemma entry_azip f a b t k :
  wf a -> wf b -> shape0 a = shape0 b -> shape1 a = shape1 b ->
  (t < shape0 a)%nat -> (k < shape1 a)%nat ->
  entry (azip f a b) t k = f (entry a t k) (entry b t k).
Proof.
  intros Ha Hb H0 H1 Ht Hk. unfold entry, azip. simpl.
  rewrite (nth_map_lt _ (combine (rows a) (rows b)) t ([], []) [])
    by (rewrite length_combine; unfold shape0 in *; lia).
  rewrite nth_combine_lt by (unfold shape0 in *; lia). simpl.
  apply nth_vzip; rewrite !nth_row_length; auto; lia.
Qed.

Lemma entry_sub_col a c t k :
  wf a -> length c = shape0 a -> (t < shape0 a)%nat -> (k < shape1 a)%nat ->
  entry (sub_col a c) t k = entry a t k - nth t c 0.
Proof.
  intros Hwf Hc Ht Hk. unfold entry, sub_col. simpl.
  rewrite (nth_map_lt _ (combine (rows a) c) t ([], 0) [])
    by (rewrite length_combine; unfold shape0 in *; lia).
  rewrite nth_combine_lt by (unfold shape0 in *; lia). simpl.
  apply (nth_map_lt (fun x => x - nth t c 0)).
  rewrite nth_row_length; assumption.
Qed.

Lemma entry_cumsum_from N rs : forall acc t k,
  length acc = N -> Forall (fun r => length r = N) rs ->
  (t < length rs)%nat -> (k < N)%nat ->
  nth k (nth t (cumsum_from acc rs) []) 0
  = nth k acc 0 + sum_over (S t) (fun s => nth k (nth s rs []) 0).
Proof.
  induction rs as [|r rs IH]; intros acc t k Hacc Hrs Ht Hk;
    [simpl in Ht; lia |].
  inversion Hrs; subst.
  assert (Hl : length (vzip Rplus acc r) = length acc)
    by (apply length_vzip; congruence).
  destruct t as [|t].
  - simpl. rewrite nth_vzip by (try congruence; lia).
    unfold sum_over. simpl. lra.
  - cbn [cumsum_from nth]. rewrite IH by (simpl in Ht; auto; lia).
    rewrite nth_vzip by (try congruence; lia).
    rewrite (sum_over_S_left (S t)). simpl. lra.
Qed.

Lemma entry_cumsum a t k :
  wf a -> (t < shape0 a)%nat -> (k < shape1 a)%nat ->
  entry (cumsum a) t k = sum_over (S t) (fun s => entry a s k).
Proof.
  intros Hwf Ht Hk. unfold entry, cumsum, shape0, wf in *. simpl.
  destruct (rows a) as [|r rs]; [simpl in Ht; lia |].
  inversion Hwf; subst.
  destruct t as [|t].
  - unfold sum_over. simpl. lra.
  - cbn [nth]. rewrite (entry_cumsum_from (shape1 a)) by (simpl in Ht; auto; lia).
    rewrite (sum_over_S_left (S t)). reflexivity.
Qed.

(** The log-normal volatility construction shared by lines 81-82 and
    121-123: shape and entries. *)
Lemma vol_construction Z nu h tobs n N :
  wf Z -> shape0 Z = n -> shape1 Z = N -> length tobs = n ->
  let V := amap exp
             (amap (fun x => nu * x)
                (sub_col (cumsum (amap (fun z => z * sqrt h) Z))
                   (map (fun t => nu / 2 * t) tobs))) in
  wf V /\ shape0 V = n /\ shape1 V = N /\
  forall t k, (t < n)%nat -> (k < N)%nat ->
    entry V t k = vol_value nu h (entry Z) tobs t k.
Proof.
  intros Hwf H0 H1 Hl V. subst V.
  set (Z1 := amap (fun z => z * sqrt h) Z).
  assert (Hwf1 : wf Z1) by apply wf_amap, Hwf.
  assert (Hs1 : shape0 Z1 = n) by (unfold Z1; now rewrite shape0_amap).
  assert (Hwf2 : wf (cumsum Z1)) by apply wf_cumsum, Hwf1.
  assert (Hs2 : shape0 (cumsum Z1) = n) by now rewrite shape0_cumsum.
  set (c := map (fun t => nu / 2 * t) tobs).
  assert (Hc : length c = shape0 (cumsum Z1))
    by (unfold c; rewrite length_map; congruence).
  assert (Hwf3 : wf (sub_col (cumsum Z1) c)) by apply wf_sub_col, Hwf2.
  assert (Hs3 : shape0 (sub_col (cumsum Z1) c) = n)
    by (rewrite shape0_sub_col; assumption).
  split; [apply wf_amap, wf_amap, Hwf3 |].
  split; [now rewrite !shape0_amap |].
  split; [exact H1 |].
  intros t k Ht Hk.
  rewrite entry_amap;
    [| apply wf_amap, Hwf3 | rewrite shape0_amap; lia | simpl; lia].
  rewrite entry_amap; [| exact Hwf3 | lia | simpl; lia].
  rewrite entry_sub_col; [| exact Hwf2 | exact Hc | lia | simpl; lia].
  rewrite entry_cumsum; [| exact Hwf1 | lia | simpl; lia].
  unfold vol_value, c. rewrite (nth_map_lt _ tobs t 0 0) by lia.
  f_equal. f_equal. f_equal. apply sum_over_ext. intros s Hs.
  unfold Z1. apply entry_amap; [exact Hwf | lia | lia].
Qed.

(** On a positive maturity and a positive time step the path generator
    returns: [n_dt] rows of draws are consumed, and the result has one more
    row, the first being all ones. *)
Lemma sigma_path_ok self texp g :
  0 < texp -> 0 < dt self ->
  let n_dt := np_ceil (texp / dt self) in
  let n := Z.to_nat n_dt in
  exists a,
    sigma_path self texp g = (Ok a, advance g (n * n_path self)) /\
    shape0 a = S n /\ shape1 a = n_path self /\ wf a /\
    nth 0 (rows a) [] = ones (n_path self) /\
    forall t k, (t < n)%nat -> (k < n_path self)%nat ->
      entry a (S t) k
      = vol_value (vov self) (texp / IZR n_dt) (draw g (n_path self))
          (tobs_grid n_dt texp) t k.
Proof.
  intros HT Hdt n_dt n.
  pose proof (np_ceil_pos _ (div_pos _ _ HT Hdt)) as Hn. fold n_dt in Hn.
  assert (HnR : IZR n_dt <> 0) by (apply not_0_IZR; lia).
  destruct (standard_normal_ok n_dt (n_path self) g ltac:(lia))
    as (Z & HZ & HZ0 & HZ1 & HZwf & HZe).
  unfold sigma_path.
  rewrite (bind_ok _ _ _ _ _ (py_div_ok texp (dt self) g ltac:(lra))).
  fold n_dt.
  rewrite (bind_ok _ _ _ _ _ (py_div_ok texp (IZR n_dt) g HnR)).
  rewrite (bind_ok _ _ _ _ _ (item_last_ok (tobs_grid n_dt texp) g
             ltac:(rewrite length_tobs_grid; lia))).
  rewrite last_tobs_grid by exact Hn.
  rewrite (bind_ok _ _ _ _ _ (py_assert_eq_refl texp g)).
  rewrite (bind_ok _ _ _ _ _ HZ).
  unfold ret. eexists. split; [reflexivity |].
  destruct (vol_construction Z (vov self) (texp / IZR n_dt)
              (tobs_grid n_dt texp) n (n_path self) HZwf HZ0 HZ1
              (length_tobs_grid _ _)) as (Vwf & V0 & V1 & Ve).
  split; [unfold shape0, insert_row0; cbn [rows length]; f_equal; exact V0 |].
  split; [exact V1 |].
  split; [apply wf_insert_row0;
          [exact Vwf | unfold ones; now rewrite repeat_length] |].
  split; [simpl; now rewrite HZ1 |].
  intros t k Ht Hk. unfold entry at 1. cbn [insert_row0 rows nth].
  fold (entry (amap exp
                 (amap (fun x => vov self * x)
                    (sub_col (cumsum (amap (fun z => z * sqrt (texp / IZR n_dt)) Z))
                       (map (fun t0 => vov self / 2 * t0)
                          (tobs_grid n_dt texp))))) t k).
  rewrite Ve by assumption. unfold vol_value.
  f_equal. f_equal. f_equal. apply sum_over_ext. intros s Hs.
  unfold draw. rewrite HZe by lia. reflexivity.
Qed.

(** ** Indexing and loops *)

Lemma getitem_ok v i g :
  (i < length v)%nat -> getitem v i g = (Ok (nth i v 0), g).
Proof.
  intros Hi. unfold getitem.
  destruct (nth_error v i) as [x|] eqn:E.
  - now rewrite (nth_error_nth _ _ 0 E).
  - apply nth_error_None in E. lia.
Qed.

Lemma getitem2_ok a t k g :
  wf a -> (t < shape0 a)%nat -> (k < shape1 a)%nat ->
  getitem2 a t k g = (Ok (entry a t k), g).
Proof.
  intros Hwf Ht Hk. unfold getitem2, entry, shape0 in *.
  destruct (nth_error (rows a) t) as [r|] eqn:E.
  - rewrite (nth_error_nth _ _ [] E). apply getitem_ok.
    unfold wf in Hwf. rewrite Forall_forall in Hwf.
    rewrite (Hwf r); [exact Hk | eapply nth_error_In; exact E].
  - apply nth_error_None in E. lia.
Qed.

Lemma setitem_ok v i x g :
  (i < length v)%nat -> setitem v i x g = (Ok (list_set v i x), g).
Proof.
  intros Hi. unfold setitem. destruct (Nat.ltb_spec i (length v)); [reflexivity | lia].
Qed.

(** A loop whose body never raises and never draws computes a fold. *)
Lemma for_each_fold {A S} (P : S -> Prop) (f : A -> S -> S)
    (xs : list A) (body : A -> S -> Py S) g :
  (forall x s, In x xs -> P s -> body x s g = (Ok (f x s), g) /\ P (f x s)) ->
  forall s, P s ->
    for_each xs body s g = (Ok (fold_left (fun s x => f x s) xs s), g) /\
    P (fold_left (fun s x => f x s) xs s).
Proof.
  induction xs as [|x xs IH]; intros Hbody s Hs.
  - simpl. split; [reflexivity | exact Hs].
  - destruct (Hbody x s (or_introl eq_refl) Hs) as [Hx HP].
    simpl. rewrite (bind_ok _ _ _ _ _ Hx).
    apply IH; [| exact HP].
    intros y s' Hy. apply Hbody. now right.
Qed.

(** ** Step (1) of the direct pricers *)

Lemma shape0_azip f a b :
  shape0 a = shape0 b -> shape0 (azip f a b) = shape0 a.
Proof.
  intros H. unfold shape0, azip in *. simpl.
  rewrite length_map, length_combine. lia.
Qed.

Lemma wf_azip f a b :
  wf a -> wf b -> shape1 a = shape1 b -> wf (azip f a b).
Proof.
  unfold wf, azip. simpl. intros Ha Hb H1. apply Forall_map.
  apply Forall_forall. intros [r s] Hin. simpl.
  rewrite Forall_forall in Ha, Hb.
  pose proof (Ha r (in_combine_l _ _ _ _ Hin)) as Hr.
  pose proof (Hb s (in_combine_r _ _ _ _ Hin)) as Hs.
  rewrite length_vzip; congruence.
Qed.

(** Whenever the number of steps is not negative, step (1) succeeds, draws
    two arrays of [n_dt] rows, and returns arrays on which every access of
    step (2) is in range. *)
Lemma mc_paths_ok self texp g :
  dt self <> 0 -> (0 <= np_ceil (texp / dt self))%Z ->
  let n_dt := np_ceil (texp / dt self) in
  let n := Z.to_nat n_dt in
  let N := n_path self in
  let g1 := advance g (n * N) in
  exists W sigma_t,
    mc_paths self texp g = (Ok (n_dt, W, sigma_t), advance g1 (n * N)) /\
    wf W /\ shape0 W = n /\ shape1 W = N /\
    wf sigma_t /\ shape0 sigma_t = S n /\ shape1 sigma_t = N /\
    (forall t k, (t < n)%nat -> (k < N)%nat ->
       entry W t k
       = rho self * draw g1 N t k + sqrt (1 - rho self ^ 2) * draw g N t k) /\
    (forall k, (k < N)%nat -> entry sigma_t 0 k = sigma self * 1) /\
    (forall t k, (t < n)%nat -> (k < N)%nat ->
       entry sigma_t (S t) k
       = sigma self
         * vol_value (vov self) (dt self) (draw g1 N) (tobs_grid n_dt texp) t k).
Proof.
  intros Hdt Hn n_dt n N g1.
  destruct (standard_normal_ok n_dt N g Hn)
    as (W & HW & HW0 & HW1 & HWwf & HWe).
  destruct (standard_normal_ok n_dt N g1 Hn)
    as (Z & HZ & HZ0 & HZ1 & HZwf & HZe).
  fold n in HW, HW0, HZ, HZ0, HWe, HZe. fold g1 in HW.
  unfold mc_paths.
  rewrite (bind_ok _ _ _ _ _ (py_div_ok texp (dt self) g Hdt)).
  fold n_dt.
  rewrite (bind_ok _ _ _ _ _ HW).
  rewrite (bind_ok _ _ _ _ _ HZ).
  unfold ret. do 2 eexists. split; [reflexivity |].
  destruct (vol_construction Z (vov self) (dt self)
              (tobs_grid n_dt texp) n N HZwf HZ0 HZ1
              (length_tobs_grid _ _)) as (Vwf & V0 & V1 & Ve).
  set (V := amap exp
              (amap (fun x => vov self * x)
                 (sub_col (cumsum (amap (fun z => z * sqrt (dt self)) Z))
                    (map (fun t => vov self / 2 * t) (tobs_grid n_dt texp)))))
    in *.
  assert (Hins : wf (insert_row0 V (ones (shape1 V)))).
  { apply wf_insert_row0; [exact Vwf | unfold ones; now rewrite repeat_length]. }
  assert (Hins0 : shape0 (insert_row0 V (ones (shape1 V))) = S n).
  { unfold shape0, insert_row0. cbn [rows length]. f_equal. exact V0. }
  split; [apply wf_azip; [apply wf_amap, HZwf | apply wf_amap, HWwf |];
          simpl; congruence |].
  split; [rewrite shape0_azip; rewrite !shape0_amap; congruence |].
  split; [simpl; exact HZ1 |].
  split; [apply wf_amap, Hins |].
  split; [now rewrite shape0_amap |].
  split; [exact V1 |].
  split; [| split].
  - intros t k Ht Hk.
    rewrite entry_azip;
      try (apply wf_amap; assumption);
      rewrite ?shape0_amap; simpl; try congruence; try lia.
    rewrite !entry_amap by (try assumption; lia).
    unfold draw. rewrite HZe, HWe by assumption. reflexivity.
  - intros k Hk.
    rewrite entry_amap; [| exact Hins | lia | simpl; lia].
    unfold entry. cbn [insert_row0 rows nth]. unfold ones.
    rewrite nth_repeat_lt by lia. reflexivity.
  - intros t k Ht Hk.
    rewrite entry_amap; [| exact Hins | lia | simpl; lia].
    unfold entry at 1. cbn [insert_row0 rows nth].
    fold (entry V t k). rewrite Ve by assumption.
    unfold vol_value. f_equal. f_equal. f_equal. f_equal.
    apply sum_over_ext. intros s Hs.
    unfold draw. rewrite HZe by lia. reflexivity.
Qed.

Lemma mc_paths_negative self texp g :
  dt self <> 0 -> (np_ceil (texp / dt self) < 0)%Z ->
  mc_paths self texp g = (Raise ValueError, g).
Proof.
  intros Hdt Hn. unfold mc_paths.
  rewrite (bind_ok _ _ _ _ _ (py_div_ok texp (dt self) g Hdt)).
  apply bind_raise. now apply standard_normal_negative.
Qed.

(** ** Step (2) of the direct pricers *)

Lemma fold_left_plus (h : nat -> R) n l0 :
  fold_left (fun l t => l + h t) (seq 0 n) l0 = l0 + sum_over n h.
Proof.
  induction n as [|n IH]; [unfold sum_over; simpl; lra |].
  rewrite seq_S, fold_left_app, IH, sum_over_S_right. simpl. lra.
Qed.

Lemma fold_list_set_acc (h : nat -> R) k ts : forall S0,
  (k < length S0)%nat ->
  let S' := fold_left (fun S t => list_set S k (nth k S 0 + h t)) ts S0 in
  length S' = length S0 /\
  nth k S' 0 = fold_left (fun l t => l + h t) ts (nth k S0 0) /\
  forall j, j <> k -> nth j S' 0 = nth j S0 0.
Proof.
  induction ts as [|t ts IH]; intros S0 Hk; simpl.
  - repeat split.
  - destruct (IH (list_set S0 k (nth k S0 0 + h t))) as (H1 & H2 & H3).
    + now rewrite length_list_set.
    + simpl in H1, H2, H3. rewrite H1, H2, length_list_set.
      rewrite nth_list_set_eq by exact Hk.
      repeat split. intros j Hj. rewrite H3 by exact Hj.
      apply nth_list_set_neq. congruence.
Qed.

(** The loops of [ModelBsmMC.price]: every access is in range, and path [i]
    ends at [exp(log(spot) + bsm_log_return)]. *)
Lemma bsm_simulate_ok self spot n_dt W sigma_t g :
  wf W -> wf sigma_t ->
  shape0 W = Z.to_nat n_dt -> shape1 W = n_path self ->
  shape0 sigma_t = S (Z.to_nat n_dt) -> shape1 sigma_t = n_path self ->
  exists S_T,
    bsm_simulate self spot n_dt W sigma_t g = (Ok S_T, g) /\
    length S_T = n_path self /\
    forall i, (i < n_path self)%nat ->
      nth i S_T 0
      = exp (ln spot + bsm_log_return self W sigma_t (Z.to_nat n_dt) i).
Proof.
  intros HWwf Hswf HW0 HW1 Hs0 Hs1.
  unfold bsm_simulate.
  set (inner := fun (i : nat) (t : nat) =>
                  entry sigma_t t i * entry W t i * sqrt (dt self)
                  - 0.5 * entry sigma_t t i ^ 2 * dt self).
  set (outer := fun (i : nat) (S_T : list R) =>
                  list_set S_T i
                    (exp (fold_left (fun l t => l + inner i t) (range n_dt)
                            (ln (nth i S_T 0))))).
  set (P := fun (k : nat) (S_T : list R) =>
              length S_T = n_path self /\
              (forall j, (j < k)%nat ->
                 nth j S_T 0
                 = exp (ln spot
                        + bsm_log_return self W sigma_t (Z.to_nat n_dt) j)) /\
              (forall j, (k <= j < n_path self)%nat -> nth j S_T 0 = spot)).
  (* the outer loop, with the number of finished paths as a ghost index *)
  assert (Hloop : forall m k S0, (k + m = n_path self)%nat -> P k S0 ->
            exists S_T,
              for_each (seq k m)
                (fun i S_T =>
                   s <- getitem S_T i ;;
                   log_temp <-
                     for_each (range n_dt)
                       (fun t log_temp =>
                          s_ti <- getitem2 sigma_t t i ;;
                          w_ti <- getitem2 W t i ;;
                          ret (log_temp
                               + (s_ti * w_ti * sqrt (dt self)
                                  - 0.5 * s_ti ^ 2 * dt self)))
                       (ln s) ;;
                   setitem S_T i (exp log_temp)) S0 g = (Ok S_T, g) /\
              P (k + m)%nat S_T).
  { induction m as [|m IH]; intros k S0 Hkm (HL & Hdone & Htodo).
    - simpl. exists S0. split; [reflexivity |].
      split; [exact HL |]. split.
      + intros j Hj. apply Hdone. lia.
      + intros j Hj. lia.
    - assert (Hbody :
        (s <- getitem S0 k ;;
         log_temp <-
           for_each (range n_dt)
             (fun t log_temp =>
                s_ti <- getitem2 sigma_t t k ;;
                w_ti <- getitem2 W t k ;;
                ret (log_temp
                     + (s_ti * w_ti * sqrt (dt self)
                        - 0.5 * s_ti ^ 2 * dt self)))
             (ln s) ;;
         setitem S0 k (exp log_temp)) g = (Ok (outer k S0), g)).
      { rewrite (bind_ok _ _ _ _ _ (getitem_ok S0 k g ltac:(lia))).
        destruct (for_each_fold (fun _ => True)
                    (fun t l => l + inner k t) (range n_dt)
                    (fun t log_temp =>
                       s_ti <- getitem2 sigma_t t k ;;
                       w_ti <- getitem2 W t k ;;
                       ret (log_temp
                            + (s_ti * w_ti * sqrt (dt self)
                               - 0.5 * s_ti ^ 2 * dt self))) g) with
          (s := ln (nth k S0 0)) as [Hin _]; [| exact I |].
        { intros t l Ht _. split; [| exact I].
          unfold range in Ht. apply in_seq in Ht.
          rewrite (bind_ok _ _ _ _ _ (getitem2_ok sigma_t t k g Hswf
                     ltac:(lia) ltac:(lia))).
          rewrite (bind_ok _ _ _ _ _ (getitem2_ok W t k g HWwf
                     ltac:(lia) ltac:(lia))).
          reflexivity. }
        rewrite (bind_ok _ _ _ _ _ Hin).
        apply setitem_ok. lia. }
      cbn [for_each seq]. rewrite (bind_ok _ _ _ _ _ Hbody).
      destruct (IH (S k) (outer k S0)) as (S_T & HS & HP).
      + lia.
      + split; [unfold outer; now rewrite length_list_set |]. split.
        * intros j Hj. unfold outer.
          destruct (Nat.eq_dec j k) as [-> | Hne].
          -- rewrite nth_list_set_eq by lia.
             unfold range. rewrite fold_left_plus.
             rewrite Htodo by lia. reflexivity.
          -- rewrite nth_list_set_neq by lia. apply Hdone. lia.
        * intros j Hj. unfold outer.
          rewrite nth_list_set_neq by lia. apply Htodo. lia.
      + exists S_T. split; [exact HS |].
        replace (k + S m)%nat with (S k + m)%nat by lia. exact HP. }
  destruct (Hloop (n_path self) 0%nat
              (map (fun o => spot * o) (ones (n_path self))))
    as (S_T & HS & HL & Hdone & _).
  - lia.
  - split; [unfold ones; now rewrite length_map, repeat_length |]. split.
    + intros j Hj. lia.
    + intros j Hj.
      rewrite (nth_map_lt _ (ones (n_path self)) j 0 0)
        by (unfold ones; rewrite repeat_length; lia).
      unfold ones. rewrite nth_repeat_lt by lia. lra.
  - exists S_T. split; [exact HS |]. split; [exact HL |].
    intros i Hi. apply Hdone. simpl. exact Hi.
Qed.

(** The loops of [ModelNormalMC.price]: path [k] ends at
    [spot + normal_increment]. *)
Lemma normal_simulate_ok self spot n_dt W sigma_t g :
  wf W -> wf sigma_t ->
  shape0 W = Z.to_nat n_dt -> shape1 W = n_path self ->
  shape0 sigma_t = S (Z.to_nat n_dt) -> shape1 sigma_t = n_path self ->
  exists S_T,
    normal_simulate self spot n_dt W sigma_t g = (Ok S_T, g) /\
    length S_T = n_path self /\
    forall k, (k < n_path self)%nat ->
      nth k S_T 0
      = spot + normal_increment self W sigma_t (Z.to_nat n_dt) k.
Proof.
  intros HWwf Hswf HW0 HW1 Hs0 Hs1.
  unfold normal_simulate.
  set (h := fun (k : nat) (t : nat) =>
              entry sigma_t t k * entry W t k * sqrt (dt self)).
  set (outer := fun (k : nat) (S_T : list R) =>
                  fold_left (fun S t => list_set S k (nth k S 0 + h k t))
                    (range n_dt) S_T).
  set (P := fun (k : nat) (S_T : list R) =>
              length S_T = n_path self /\
              (forall j, (j < k)%nat ->
                 nth j S_T 0
                 = spot + normal_increment self W sigma_t (Z.to_nat n_dt) j) /\
              (forall j, (k <= j < n_path self)%nat -> nth j S_T 0 = spot)).
  assert (Hloop : forall m k S0, (k + m = n_path self)%nat -> P k S0 ->
            exists S_T,
              for_each (seq k m)
                (fun k S_T =>
                   for_each (range n_dt)
                     (fun t S_T =>
                        s <- getitem S_T k ;;
                        s_tk <- getitem2 sigma_t t k ;;
                        w_tk <- getitem2 W t k ;;
                        setitem S_T k (s + s_tk * w_tk * sqrt (dt self)))
                     S_T) S0 g = (Ok S_T, g) /\
              P (k + m)%nat S_T).
  { induction m as [|m IH]; intros k S0 Hkm (HL & Hdone & Htodo).
    - simpl. exists S0. split; [reflexivity |].
      split; [exact HL |]. split.
      + intros j Hj. apply Hdone. lia.
      + intros j Hj. lia.
    - destruct (for_each_fold (fun S => length S = n_path self)
                  (fun t S => list_set S k (nth k S 0 + h k t)) (range n_dt)
                  (fun t S_T =>
                     s <- getitem S_T k ;;
                     s_tk <- getitem2 sigma_t t k ;;
                     w_tk <- getitem2 W t k ;;
                     setitem S_T k (s + s_tk * w_tk * sqrt (dt self))) g)
        with (s := S0) as [Hin _]; [| exact HL |].
      { intros t S1 Ht HL1. split; [| now rewrite length_list_set].
        unfold range in Ht. apply in_seq in Ht.
        rewrite (bind_ok _ _ _ _ _ (getitem_ok S1 k g ltac:(lia))).
        rewrite (bind_ok _ _ _ _ _ (getitem2_ok sigma_t t k g Hswf
                   ltac:(lia) ltac:(lia))).
        rewrite (bind_ok _ _ _ _ _ (getitem2_ok W t k g HWwf
                   ltac:(lia) ltac:(lia))).
        apply setitem_ok. lia. }
      cbn [for_each seq]. rewrite (bind_ok _ _ _ _ _ Hin).
      destruct (fold_list_set_acc (h k) k (range n_dt) S0 ltac:(lia))
        as (F1 & F2 & F3).
      destruct (IH (S k) (outer k S0)) as (S_T & HS & HP).
      + lia.
      + split; [unfold outer; congruence |]. split.
        * intros j Hj. unfold outer.
          destruct (Nat.eq_dec j k) as [-> | Hne].
          -- rewrite F2. unfold range. rewrite fold_left_plus.
             rewrite Htodo by lia. reflexivity.
          -- rewrite F3 by exact Hne. apply Hdone. lia.
        * intros j Hj. unfold outer.
          rewrite F3 by lia. apply Htodo. lia.
      + exists S_T. split; [exact HS |].
        replace (k + S m)%nat with (S k + m)%nat by lia. exact HP. }
  destruct (Hloop (n_path self) 0%nat
              (map (fun o => spot * o) (ones (n_path self))))
    as (S_T & HS & HL & Hdone & _).
  - lia.
  - split; [unfold ones; now rewrite length_map, repeat_length |]. split.
    + intros j Hj. lia.
    + intros j Hj.
      rewrite (nth_map_lt _ (ones (n_path self)) j 0 0)
        by (unfold ones; rewrite repeat_length; lia).
      unfold ones. rewrite nth_repeat_lt by lia. lra.
  - exists S_T. split; [exact HS |]. split; [exact HL |].
    intros i Hi. apply Hdone. simpl. exact Hi.
Qed.

(** ** Steps (1)-(2) together, and step (3) *)

Lemma bsm_terminal_spot_ok self spot texp g :
  dt self <> 0 -> (0 <= np_ceil (texp / dt self))%Z ->
  let n_dt := np_ceil (texp / dt self) in
  let n := Z.to_nat n_dt in
  let N := n_path self in
  let g1 := advance g (n * N) in
  let g2 := advance g1 (n * N) in
  let tobs := tobs_grid n_dt texp in
  exists S_T,
    bsm_terminal_spot self spot texp g = (Ok S_T, g2) /\
    length S_T = N /\
    forall i, (i < N)%nat ->
      nth i S_T 0
      = exp (ln spot
             + sum_over n (fun t =>
                 mc_sigma self g1 tobs t i * mc_W self g g1 t i
                 * sqrt (dt self)
                 - 0.5 * mc_sigma self g1 tobs t i ^ 2 * dt self)).
Proof.
  intros Hdt Hn n_dt n N g1 g2 tobs.
  destruct (mc_paths_ok self texp g Hdt Hn)
    as (W & sigma_t & Hp & HWwf & HW0 & HW1 & Hswf & Hs0 & Hs1
        & HWe & Hse0 & Hse).
  fold n_dt n N g1 g2 tobs in Hp, HW0, HW1, Hs0, Hs1, HWe, Hse0, Hse.
  destruct (bsm_simulate_ok self spot n_dt W sigma_t g2
              HWwf Hswf HW0 HW1 Hs0 Hs1) as (S_T & HS & HL & HE).
  exists S_T.
  split; [| split; [exact HL |]].
  - unfold bsm_terminal_spot. rewrite (bind_ok _ _ _ _ _ Hp). exact HS.
  - intros i Hi. rewrite HE by exact Hi. unfold bsm_log_return.
    fold n. f_equal. f_equal. apply sum_over_ext. intros t Ht.
    assert (Hsig : entry sigma_t t i = mc_sigma self g1 tobs t i).
    { destruct t as [|t]; [apply Hse0; exact Hi | apply Hse; [lia | exact Hi]]. }
    rewrite Hsig, HWe by assumption. reflexivity.
Qed.

Lemma normal_terminal_spot_ok self spot texp g :
  dt self <> 0 -> (0 <= np_ceil (texp / dt self))%Z ->
  let n_dt := np_ceil (texp / dt self) in
  let n := Z.to_nat n_dt in
  let N := n_path self in
  let g1 := advance g (n * N) in
  let g2 := advance g1 (n * N) in
  let tobs := tobs_grid n_dt texp in
  exists S_T,
    normal_terminal_spot self spot texp g = (Ok S_T, g2) /\
    length S_T = N /\
    forall k, (k < N)%nat ->
      nth k S_T 0
      = spot
        + sum_over n (fun t =>
            mc_sigma self g1 tobs t k * mc_W self g g1 t k * sqrt (dt self)).
Proof.
  intros Hdt Hn n_dt n N g1 g2 tobs.
  destruct (mc_paths_ok self texp g Hdt Hn)
    as (W & sigma_t & Hp & HWwf & HW0 & HW1 & Hswf & Hs0 & Hs1
        & HWe & Hse0 & Hse).
  fold n_dt n N g1 g2 tobs in Hp, HW0, HW1, Hs0, Hs1, HWe, Hse0, Hse.
  destruct (normal_simulate_ok self spot n_dt W sigma_t g2
              HWwf Hswf HW0 HW1 Hs0 Hs1) as (S_T & HS & HL & HE).
  exists S_T.
  split; [| split; [exact HL |]].
  - unfold normal_terminal_spot. rewrite (bind_ok _ _ _ _ _ Hp).
    exact HS.
  - intros k Hk. rewrite HE by exact Hk. unfold normal_increment.
    fold n. f_equal. apply sum_over_ext. intros t Ht.
    assert (Hsig : entry sigma_t t k = mc_sigma self g1 tobs t k).
    { destruct t as [|t]; [apply Hse0; exact Hk | apply Hse; [lia | exact Hk]]. }
    rewrite Hsig, HWe by assumption. reflexivity.
Qed.

Lemma bsm_price_of_terminal self strike spot texp cp g S_T g' :
  bsm_terminal_spot self spot texp g = (Ok S_T, g') ->
  ModelBsmMC.price self strike spot texp cp g
  = (Ok (mc_prices self strike texp cp S_T), g').
Proof.
  intros H. rewrite bsm_price_steps. now rewrite (bind_ok _ _ _ _ _ H).
Qed.

Lemma normal_price_of_terminal self strike spot texp cp g S_T g' :
  normal_terminal_spot self spot texp g = (Ok S_T, g') ->
  ModelNormalMC.price self strike spot texp cp g
  = (Ok (mc_prices self strike texp cp S_T), g').
Proof.
  intros H. rewrite normal_price_steps. now rewrite (bind_ok _ _ _ _ _ H).
Qed.

Lemma length_mc_prices self strike texp cp S_T :
  length (mc_prices self strike texp cp S_T) = length strike.
Proof. unfold mc_prices. apply length_map. Qed.

Lemma nth_mc_prices self strike texp cp S_T j :
  (j < length strike)%nat ->
  nth j (mc_prices self strike texp cp S_T) 0
  = exp (- intr self * texp)
    * mean (map (fun s => Rmax (IZR cp * (s - nth j strike 0)) 0) S_T).
Proof.
  intros Hj. unfold mc_prices.
  exact (nth_map_lt _ strike j 0 0 Hj).
Qed.

Lemma mean_nonneg v :
  (0 < length v)%nat -> Forall (fun x => 0 <= x) v -> 0 <= mean v.
Proof.
  intros Hl Hv. unfold mean.
  apply Rmult_le_pos; [apply vsum_nonneg, Hv |].
  apply Rlt_le, Rinv_0_lt_compat. apply lt_0_INR. exact Hl.
Qed.

Lemma mc_prices_nonneg self strike texp cp S_T :
  (0 < length S_T)%nat ->
  Forall (fun x => 0 <= x) (mc_prices self strike texp cp S_T).
Proof.
  intros Hl. unfold mc_prices. apply Forall_map, Forall_forall. intros k _.
  apply Rmult_le_pos; [apply Rlt_le, exp_pos |].
  apply mean_nonneg; [now rewrite length_map |].
  apply Forall_map, Forall_forall. intros s _. apply Rmax_r.
Qed.

(** Call payoff minus put payoff, summed over the paths. *)
Lemma payoff_parity_sum k S_T :
  vsum (map (fun s => Rmax (IZR 1 * (s - k)) 0) S_T)
  - vsum (map (fun s => Rmax (IZR (-1) * (s - k)) 0) S_T)
  = vsum S_T - INR (length S_T) * k.
Proof.
  induction S_T as [|s S_T IH]; [simpl; lra |].
  cbn [map vsum fold_right length]. rewrite S_INR.
  change (fold_right Rplus 0) with vsum.
  assert (Hs : Rmax (1 * (s - k)) 0 - Rmax (-1 * (s - k)) 0 = s - k).
  { unfold Rmax.
    destruct (Rle_dec (1 * (s - k)) 0), (Rle_dec (-1 * (s - k)) 0); lra. }
  lra.
Qed.

Lemma mc_prices_parity self strike texp S_T j :
  (0 < length S_T)%nat -> (j < length strike)%nat ->
  nth j (mc_prices self strike texp 1 S_T) 0
  - nth j (mc_prices self strike texp (-1) S_T) 0
  = exp (- intr self * texp) * (mean S_T - nth j strike 0).
Proof.
  intros Hl Hj. rewrite !nth_mc_prices by exact Hj.
  unfold mean. rewrite !length_map.
  pose proof (payoff_parity_sum (nth j strike 0) S_T) as Hp.
  assert (HN : INR (length S_T) <> 0) by (apply not_0_INR; lia).
  set (c := vsum (map (fun s => Rmax (IZR 1 * (s - nth j strike 0)) 0) S_T)) in *.
  set (p := vsum (map (fun s => Rmax (IZR (-1) * (s - nth j strike 0)) 0) S_T)) in *.
  replace c with (p + (vsum S_T - INR (length S_T) * nth j strike 0)) by lra.
  field. exact HN.
Qed.

(** C10.  On a positive maturity, with a positive time step and at least one
    path, both direct Monte Carlo pricers return one price per strike,
    whatever the random draws and the flag [cp], and every price is
    non-negative: each payoff is clamped at 0 and the discount factor is
    positive. *)
Theorem direct_prices_nonneg self strike spot texp cp g :
  0 < texp -> 0 < dt self -> (0 < n_path self)%nat ->
  (exists p g', ModelBsmMC.price self strike spot texp cp g = (Ok p, g') /\
                length p = length strike /\ Forall (fun x => 0 <= x) p) /\
  (exists p g', ModelNormalMC.price self strike spot texp cp g = (Ok p, g') /\
                length p = length strike /\ Forall (fun x => 0 <= x) p).
Proof.
  intros HT Hdt HN.
  assert (Hdt0 : dt self <> 0) by lra.
  assert (Hn : (0 <= np_ceil (texp / dt self))%Z).
  { pose proof (np_ceil_pos _ (div_pos _ _ HT Hdt)). lia. }
  split.
  - destruct (bsm_terminal_spot_ok self spot texp g Hdt0 Hn)
      as (S_T & HS & HL & _).
    eexists; eexists. split; [apply bsm_price_of_terminal, HS |].
    split; [apply length_mc_prices | apply mc_prices_nonneg; lia].
  - destruct (normal_terminal_spot_ok self spot texp g Hdt0 Hn)
      as (S_T & HS & HL & _).
    eexists; eexists. split; [apply normal_price_of_terminal, HS |].
    split; [apply length_mc_prices | apply mc_prices_nonneg; lia].
Qed.

Lemma direct_prices_nonneg_witness :
  (exists p g',
      ModelBsmMC.price (mkModel 1 0 0 1 0 1 1) [1] 1 1 1
        (mkRng (fun _ => 0) 0) = (Ok p, g') /\
      length p = length [1] /\ Forall (fun x => 0 <= x) p) /\
  (exists p g',
      ModelNormalMC.price (mkModel 1 0 0 1 0 1 1) [1] 1 1 1
        (mkRng (fun _ => 0) 0) = (Ok p, g') /\
      length p = length [1] /\ Forall (fun x => 0 <= x) p).
Proof.
  apply (direct_prices_nonneg (mkModel 1 0 0 1 0 1 1) [1] 1 1 1%Z
           (mkRng (fun _ => 0) 0)); simpl; [lra | lra | lia].
Defined.

(** C9.  Put-call parity of the direct Monte Carlo pricers, on a valid call
    (positive maturity, time step and spot, at least one path, correlation
    in [-1, 1]).  On the same generator state (the same draws), the call and
    the put are priced on the same terminal spots [S_T], and for every strike
    the call price minus the put price is
    [exp(-intr * texp) * (mean(S_T) - strike)]. *)
Theorem direct_put_call_parity self strike spot texp g :
  0 < texp -> 0 < dt self -> (0 < n_path self)%nat ->
  0 < spot -> -1 <= rho self <= 1 ->
  (exists S_T pc pp g',
      bsm_terminal_spot self spot texp g = (Ok S_T, g') /\
      ModelBsmMC.price self strike spot texp 1 g = (Ok pc, g') /\
      ModelBsmMC.price self strike spot texp (-1) g = (Ok pp, g') /\
      length pc = length strike /\ length pp = length strike /\
      forall j, (j < length strike)%nat ->
        nth j pc 0 - nth j pp 0
        = exp (- intr self * texp) * (mean S_T - nth j strike 0)) /\
  (exists S_T pc pp g',
      normal_terminal_spot self spot texp g = (Ok S_T, g') /\
      ModelNormalMC.price self strike spot texp 1 g = (Ok pc, g') /\
      ModelNormalMC.price self strike spot texp (-1) g = (Ok pp, g') /\
      length pc = length strike /\ length pp = length strike /\
      forall j, (j < length strike)%nat ->
        nth j pc 0 - nth j pp 0
        = exp (- intr self * texp) * (mean S_T - nth j strike 0)).
Proof.
  intros HT Hdt HN _ _.
  assert (Hdt0 : dt self <> 0) by lra.
  assert (Hn : (0 <= np_ceil (texp / dt self))%Z).
  { pose proof (np_ceil_pos _ (div_pos _ _ HT Hdt)). lia. }
  split.
  - destruct (bsm_terminal_spot_ok self spot texp g Hdt0 Hn)
      as (S_T & HS & HL & _).
    exists S_T. do 3 eexists. split; [exact HS |].
    split; [apply bsm_price_of_terminal, HS |].
    split; [apply bsm_price_of_terminal, HS |].
    split; [apply length_mc_prices |]. split; [apply length_mc_prices |].
    intros j Hj. apply mc_prices_parity; lia.
  - destruct (normal_terminal_spot_ok self spot texp g Hdt0 Hn)
      as (S_T & HS & HL & _).
    exists S_T. do 3 eexists. split; [exact HS |].
    split; [apply normal_price_of_terminal, HS |].
    split; [apply normal_price_of_terminal, HS |].
    split; [apply length_mc_prices |]. split; [apply length_mc_prices |].
    intros j Hj. apply mc_prices_parity; lia.
Qed.

Lemma direct_put_call_parity_witness :
  exists S_T pc pp g',
    normal_terminal_spot (mkModel 1 0 0 0 0 1 2) 3 1
      (mkRng (fun _ => 0) 0) = (Ok S_T, g') /\
    ModelNormalMC.price (mkModel 1 0 0 0 0 1 2) [1; 5] 3 1 1
      (mkRng (fun _ => 0) 0) = (Ok pc, g') /\
    ModelNormalMC.price (mkModel 1 0 0 0 0 1 2) [1; 5] 3 1 (-1)
      (mkRng (fun _ => 0) 0) = (Ok pp, g') /\
    length pc = length [1; 5] /\ length pp = length [1; 5] /\
    forall j, (j < length [1; 5])%nat ->
      nth j pc 0 - nth j pp 0
      = exp (- intr (mkModel 1 0 0 0 0 1 2) * 1) * (mean S_T - nth j [1; 5] 0).
Proof.
  apply (direct_put_call_parity (mkModel 1 0 0 0 0 1 2) [1; 5] 3 1
           (mkRng (fun _ => 0) 0)); simpl; [lra | lra | lia | lra | lra].
Defined.

(** ** The claims on the path generator and the variance aggregator *)

Lemma IZR_to_nat n : (0 <= n)%Z -> INR (Z.to_nat n) = IZR n.
Proof. intros H. rewrite INR_IZR_INZ, Z2Nat.id by exact H. reflexivity. Qed.

(** C7.  For a positive maturity and a positive time step, [sigma_path]
    returns an array of shape [(n_steps + 1, n_path)] with
    [n_steps = ceil(texp / dt) >= 1].  Its observation grid [tobs] has
    [n_steps] equally spaced points [(i + 1) * (texp / n_steps)], the last of
    which is [texp] itself (the assertion of line 78 holds).  Row 0 of the
    array is 1 on every path, and row [t + 1] is built on that grid: from
    [t + 1] increments of step [texp / n_steps] and the observation time
    [(t + 1) * (texp / n_steps)], so that the last row is observed exactly
    at [texp]. *)
Theorem sigma_path_shape_grid_start self texp g :
  0 < texp -> 0 < dt self ->
  let n_dt := np_ceil (texp / dt self) in
  let n_steps := Z.to_nat n_dt in
  let tobs := tobs_grid n_dt texp in
  let h := texp / INR n_steps in
  (1 <= n_dt)%Z /\
  length tobs = n_steps /\
  (forall i, (i < n_steps)%nat -> nth i tobs 0 = INR (S i) * h) /\
  last tobs 0 = texp /\
  exists a,
    sigma_path self texp g = (Ok a, advance g (n_steps * n_path self)) /\
    shape0 a = S n_steps /\ shape1 a = n_path self /\ wf a /\
    (forall k, (k < n_path self)%nat -> entry a 0 k = 1) /\
    (forall t k, (t < n_steps)%nat -> (k < n_path self)%nat ->
       entry a (S t) k
       = exp (vov self
              * (sum_over (S t)
                   (fun s => draw g (n_path self) s k * sqrt h)
                 - vov self / 2 * nth t tobs 0)) /\
       nth t tobs 0 = INR (S t) * h) /\
    (forall k, (k < n_path self)%nat ->
       entry a n_steps k
       = exp (vov self
              * (sum_over n_steps
                   (fun s => draw g (n_path self) s k * sqrt h)
                 - vov self / 2 * texp))).
Proof.
  intros HT Hdt n_dt n_steps tobs h.
  pose proof (np_ceil_pos _ (div_pos _ _ HT Hdt)) as Hn. fold n_dt in Hn.
  assert (HnR : IZR n_dt <> 0) by (apply not_0_IZR; lia).
  assert (HIN : INR n_steps = IZR n_dt)
    by (unfold n_steps; apply IZR_to_nat; lia).
  assert (Hgrid : forall i, (i < n_steps)%nat -> nth i tobs 0 = INR (S i) * h).
  { intros i Hi. unfold tobs, h. rewrite nth_tobs_grid by exact Hi.
    rewrite HIN, plus_IZR, <- INR_IZR_INZ, S_INR. field. exact HnR. }
  split; [exact Hn |].
  split; [apply length_tobs_grid |].
  split; [exact Hgrid |].
  split; [apply last_tobs_grid, Hn |].
  destruct (sigma_path_ok self texp g HT Hdt)
    as (a & Ha & H0 & H1 & Hwf & Hrow & He).
  fold n_dt n_steps tobs in Ha, H0, He.
  assert (Hentry : forall t k, (t < n_steps)%nat -> (k < n_path self)%nat ->
            entry a (S t) k
            = exp (vov self
                   * (sum_over (S t)
                        (fun s => draw g (n_path self) s k * sqrt h)
                      - vov self / 2 * nth t tobs 0))).
  { intros t k Ht Hk. rewrite He by assumption.
    unfold vol_value, h. now rewrite HIN. }
  exists a. split; [exact Ha |]. split; [exact H0 |]. split; [exact H1 |].
  split; [exact Hwf |].
  split; [| split].
  - intros k Hk. unfold entry. rewrite Hrow. unfold ones.
    apply nth_repeat_lt. exact Hk.
  - intros t k Ht Hk. split; [apply Hentry; assumption | apply Hgrid, Ht].
  - intros k Hk.
    assert (Hpos : (0 < n_steps)%nat) by (unfold n_steps; lia).
    replace n_steps with (S (n_steps - 1)) at 1 2 by lia.
    rewrite Hentry by (try assumption; lia).
    rewrite Hgrid by lia.
    replace (S (n_steps - 1)) with n_steps by lia.
    do 3 f_equal. unfold h. field. rewrite HIN. exact HnR.
Qed.

Lemma sigma_path_shape_grid_start_witness :
  exists a,
    sigma_path (mkModel 1 1 0 1 0 (2/5) 2) 1 (mkRng (fun _ => 1) 0)
    = (Ok a, advance (mkRng (fun _ => 1) 0) (3 * 2)) /\
    shape0 a = 4%nat /\ shape1 a = 2%nat /\
    last (tobs_grid 3 1) 0 = 1 /\
    (forall k, (k < 2)%nat ->
       entry a 3 k
       = exp (1 * (sum_over 3 (fun s => 1 * sqrt (1 / INR 3)) - 1 / 2 * 1))).
Proof.
  assert (Hc : np_ceil (1 / (2/5)) = 3%Z).
  { apply np_ceil_unique. replace (1 / (2/5)) with (5/2) by field. lra. }
  destruct (sigma_path_shape_grid_start (mkModel 1 1 0 1 0 (2/5) 2) 1
              (mkRng (fun _ => 1) 0))
    as (_ & _ & _ & Hlast & a & Ha & H0 & H1 & _ & _ & _ & Hend);
    [simpl; lra | simpl; lra |].
  cbn [dt n_path vov] in *. rewrite Hc in *.
  change (Z.to_nat 3) with 3%nat in *.
  exists a. split; [exact Ha |]. split; [exact H0 |]. split; [exact H1 |].
  split; [exact Hlast |].
  intros k Hk. rewrite (Hend k Hk). reflexivity.
Defined.

(** C8.  On a path array of shape [(n_steps + 1, N)] with [n_steps >= 1],
    [intvar_normalized] returns a vector of length [N] whose entry [k] is the
    sum over the time indices of weight times squared path value, with
    weight 0.5 at both ends and 1 inside, divided by the sum of the weights,
    which is [n_steps].  Every entry is non-negative, and for
    [n_steps = 1] it is [0.5 * a[0,k]^2 + 0.5 * a[1,k]^2]. *)
Theorem intvar_normalized_trapezoid (a : ndarray) (n_steps N : nat) g :
  (1 <= n_steps)%nat -> shape0 a = S n_steps -> shape1 a = N -> wf a ->
  sum_over (S n_steps) (trap_weight n_steps) = INR n_steps /\
  exists v,
    intvar_normalized a g = (Ok v, g) /\
    length v = N /\
    forall k, (k < N)%nat ->
      nth k v 0
      = sum_over (S n_steps) (fun t => trap_weight n_steps t * entry a t k ^ 2)
        / INR n_steps /\
      0 <= nth k v 0 /\
      (n_steps = 1%nat ->
       nth k v 0 = 0.5 * entry a 0 k ^ 2 + 0.5 * entry a 1 k ^ 2).
Proof.
  intros Hn H0 H1 Hwf.
  split; [apply sum_trap_weight, Hn |].
  destruct (intvar_normalized_ok a n_steps g Hn H0 Hwf) as (v & Hv & Hl & He).
  assert (HnR : 0 < INR n_steps) by (apply lt_0_INR; lia).
  exists v. split; [exact Hv |]. split; [congruence |].
  intros k Hk. rewrite He by congruence.
  split; [| split].
  - unfold Rdiv at 2. rewrite <- sum_over_scal.
    apply sum_over_ext. intros t _. field. lra.
  - apply sum_over_nonneg. intros t _.
    apply Rmult_le_pos; [| apply pow2_ge_0].
    apply Rmult_le_pos; [apply trap_weight_nonneg |].
    apply Rlt_le, Rinv_0_lt_compat, HnR.
  - intros ->. unfold sum_over, trap_weight. simpl. lra.
Qed.

Lemma intvar_normalized_trapezoid_witness :
  sum_over 2 (trap_weight 1) = INR 1 /\
  exists v,
    intvar_normalized (mkArr 1 [[1]; [2]]) (mkRng (fun _ => 0) 0)
    = (Ok v, mkRng (fun _ => 0) 0) /\
    length v = 1%nat /\
    forall k, (k < 1)%nat ->
      nth k v 0
      = sum_over 2 (fun t => trap_weight 1 t * entry (mkArr 1 [[1]; [2]]) t k ^ 2)
        / INR 1 /\
      0 <= nth k v 0 /\
      (1%nat = 1%nat ->
       nth k v 0 = 0.5 * entry (mkArr 1 [[1]; [2]]) 0 k ^ 2
                   + 0.5 * entry (mkArr 1 [[1]; [2]]) 1 k ^ 2).
Proof.
  apply (intvar_normalized_trapezoid (mkArr 1 [[1]; [2]]) 1 1
           (mkRng (fun _ => 0) 0)).
  - lia.
  - reflexivity.
  - reflexivity.
  - repeat constructor.
Defined.

(** ** The conditional pricers *)

Lemma row_last_ok a g :
  (0 < shape0 a)%nat ->
  row_last a g = (Ok (nth (shape0 a - 1) (rows a) []), g).
Proof.
  unfold row_last, shape0. intros H. rewrite <- last_as_nth.
  destruct (rows a); [simpl in H; lia | reflexivity].
Qed.

Lemma row_first_ok a g :
  (0 < shape0 a)%nat -> row_first a g = (Ok (nth 0 (rows a) []), g).
Proof.
  unfold row_first, shape0. intros H.
  destruct (rows a); [simpl in H; lia | reflexivity].
Qed.

Lemma map_combine_seq {B} (F : R * R -> B) (u v : list R) :
  length u = length v ->
  map F (combine u v)
  = map (fun k => F (nth k u 0, nth k v 0)) (seq 0 (length u)).
Proof.
  revert v; induction u as [|x u IH]; intros [|y v] H; simpl in *;
    try discriminate; [reflexivity |].
  f_equal. rewrite <- seq_shift, map_map. apply IH. lia.
Qed.

(** Steps (1) of both conditional pricers: the path, its last and first
    rows and the integrated variance, on a positive maturity. *)
Lemma cond_paths_ok self texp g :
  0 < texp -> 0 < dt self ->
  let n := Z.to_nat (np_ceil (texp / dt self)) in
  let N := n_path self in
  let g1 := advance g (n * N) in
  exists a I_t,
    sigma_path self texp g = (Ok a, g1) /\
    wf a /\ shape0 a = S n /\ shape1 a = N /\ (1 <= n)%nat /\
    row_last a g1 = (Ok (nth n (rows a) []), g1) /\
    row_first a g1 = (Ok (ones N), g1) /\
    length (nth n (rows a) []) = N /\
    intvar_normalized a g1 = (Ok I_t, g1) /\
    length I_t = N /\
    (forall k, (k < N)%nat ->
       nth k I_t 0
       = sum_over (S n) (fun t => trap_weight n t / INR n * entry a t k ^ 2)) /\
    (forall t k, (t < n)%nat -> (k < N)%nat ->
       entry a (S t) k
       = vol_value (vov self) (texp / IZR (np_ceil (texp / dt self)))
           (draw g N) (tobs_grid (np_ceil (texp / dt self)) texp) t k).
Proof.
  intros HT Hdt n N g1.
  pose proof (np_ceil_pos _ (div_pos _ _ HT Hdt)) as Hn.
  destruct (sigma_path_ok self texp g HT Hdt)
    as (a & Ha & H0 & H1 & Hwf & Hrow & He).
  fold n N g1 in Ha, H0, H1, Hrow, He.
  assert (Hn1 : (1 <= n)%nat) by (unfold n; lia).
  destruct (intvar_normalized_ok a n g1 Hn1 H0 Hwf) as (I_t & HI & HIl & HIe).
  exists a, I_t.
  split; [exact Ha |]. split; [exact Hwf |]. split; [exact H0 |].
  split; [exact H1 |]. split; [exact Hn1 |].
  split; [rewrite row_last_ok by lia; rewrite H0; simpl;
          now rewrite Nat.sub_0_r |].
  split; [rewrite row_first_ok by lia; now rewrite Hrow |].
  split; [rewrite nth_row_length; [exact H1 | exact Hwf | lia] |].
  split; [exact HI |]. split; [congruence |].
  split; [intros k Hk; apply HIe; congruence | exact He].
Qed.

(** Steps (1)-(2) of [ModelBsmCondMC.price] when [vov] is not zero. *)
Lemma bsm_cond_equiv_ok self spot texp g :
  0 < texp -> 0 < dt self -> vov self <> 0 ->
  let n := Z.to_nat (np_ceil (texp / dt self)) in
  let N := n_path self in
  let g1 := advance g (n * N) in
  exists a I_t spot_eq vol,
    sigma_path self texp g = (Ok a, g1) /\
    intvar_normalized a g1 = (Ok I_t, g1) /\
    bsm_cond_equiv self spot texp g = (Ok (spot_eq, vol), g1) /\
    length spot_eq = N /\ length vol = N /\
    forall k, (k < N)%nat ->
      nth k vol 0 = sigma self * sqrt ((1 - rho self ^ 2) * nth k I_t 0) /\
      nth k spot_eq 0
      = spot * exp (rho self / vov self
                    * (sigma self * entry a n k - sigma self)
                    - rho self ^ 2 * sigma self ^ 2 * texp / 2 * nth k I_t 0).
Proof.
  intros HT Hdt Hv n N g1.
  destruct (cond_paths_ok self texp g HT Hdt)
    as (a & I_t & Ha & Hwf & H0 & H1 & Hn & HrT & _ & HlT & HI & HIl & _).
  fold n N g1 in Ha, H0, H1, Hn, HrT, HlT, HI, HIl.
  exists a, I_t. do 2 eexists.
  split; [exact Ha |]. split; [exact HI |].
  split.
  { unfold bsm_cond_equiv.
    rewrite (bind_ok _ _ _ _ _ Ha), (bind_ok _ _ _ _ _ HrT),
      (bind_ok _ _ _ _ _ HI),
      (bind_ok _ _ _ _ _ (py_div_ok (rho self) (vov self) g1 Hv)).
    reflexivity. }
  assert (Hlz : length
                  (vzip Rminus
                     (map (fun s => rho self / vov self * (s - sigma self))
                        (map (fun x => sigma self * x) (nth n (rows a) [])))
                     (map (fun x => rho self ^ 2 * sigma self ^ 2 * texp / 2 * x)
                        I_t)) = N).
  { rewrite length_vzip; rewrite !length_map; congruence. }
  split; [rewrite length_map; exact Hlz |].
  split; [rewrite length_map; exact HIl |].
  intros k Hk. split.
  - apply (nth_map_lt (fun x => sigma self * sqrt ((1 - rho self ^ 2) * x))).
    lia.
  - rewrite (nth_map_lt (fun l => spot * exp l) _ k 0 0) by lia.
    rewrite nth_vzip by (rewrite !length_map; lia).
    rewrite (nth_map_lt (fun s => rho self / vov self * (s - sigma self))
               _ k 0 0) by (rewrite length_map; lia).
    rewrite (nth_map_lt (fun x => sigma self * x) _ k 0 0) by lia.
    rewrite (nth_map_lt (fun x => rho self ^ 2 * sigma self ^ 2 * texp / 2 * x)
               _ k 0 0) by lia.
    reflexivity.
Qed.

(** Steps (1)-(2) of [ModelNormalCondMC.price] when [vov] is not zero: the
    shift of the spot is computed from the normalized path values. *)
Lemma normal_cond_equiv_ok self spot texp g :
  0 < texp -> 0 < dt self -> vov self <> 0 ->
  let n := Z.to_nat (np_ceil (texp / dt self)) in
  let N := n_path self in
  let g1 := advance g (n * N) in
  exists a I_t spot_eq vol,
    sigma_path self texp g = (Ok a, g1) /\
    intvar_normalized a g1 = (Ok I_t, g1) /\
    normal_cond_equiv self spot texp g = (Ok (spot_eq, vol), g1) /\
    length spot_eq = N /\ length vol = N /\
    (forall t k, (t < n)%nat -> (k < N)%nat ->
       entry a (S t) k
       = vol_value (vov self) (texp / IZR (np_ceil (texp / dt self)))
           (draw g N) (tobs_grid (np_ceil (texp / dt self)) texp) t k) /\
    forall k, (k < N)%nat ->
      nth k vol 0 = sigma self * sqrt ((1 - rho self ^ 2) * nth k I_t 0) /\
      nth k spot_eq 0
      = spot + rho self / vov self * (entry a n k - 1).
Proof.
  intros HT Hdt Hv n N g1.
  destruct (cond_paths_ok self texp g HT Hdt)
    as (a & I_t & Ha & Hwf & H0 & H1 & Hn & HrT & Hr0 & HlT & HI & HIl & _ & He).
  fold n N g1 in Ha, H0, H1, Hn, HrT, Hr0, HlT, HI, HIl, He.
  exists a, I_t. do 2 eexists.
  split; [exact Ha |]. split; [exact HI |].
  split.
  { unfold normal_cond_equiv.
    rewrite (bind_ok _ _ _ _ _ Ha), (bind_ok _ _ _ _ _ HrT),
      (bind_ok _ _ _ _ _ Hr0), (bind_ok _ _ _ _ _ HI),
      (bind_ok _ _ _ _ _ (py_div_ok (rho self) (vov self) g1 Hv)).
    reflexivity. }
  assert (Hlo : length (ones N) = N) by (unfold ones; apply repeat_length).
  assert (Hlz : length (vzip Rminus (nth n (rows a) []) (ones N)) = N).
  { rewrite length_vzip; congruence. }
  split; [rewrite length_map; exact Hlz |].
  split; [rewrite length_map; exact HIl |].
  split; [exact He |].
  intros k Hk. split.
  - apply (nth_map_lt (fun x => sigma self * sqrt ((1 - rho self ^ 2) * x))).
    lia.
  - rewrite (nth_map_lt (fun d => spot + rho self / vov self * d) _ k 0 0)
      by lia.
    rewrite nth_vzip by lia.
    unfold ones. rewrite nth_repeat_lt by lia. reflexivity.
Qed.

Lemma base_model_beta0 self sigma_arg g :
  beta self = 0 ->
  base_model self sigma_arg g
  = (Ok (mk_pf Norm match sigma_arg with
                    | None => Scalar (sigma self)
                    | Some s => s
                    end (intr self)), g).
Proof.
  intros Hb. unfold base_model.
  destruct (Req_dec_T (beta self) 0); [reflexivity | contradiction].
Qed.

Lemma base_model_beta1 self sigma_arg g :
  beta self = 1 ->
  base_model self sigma_arg g
  = (Ok (mk_pf Bsm match sigma_arg with
                   | None => Scalar (sigma self)
                   | Some s => s
                   end (intr self)), g).
Proof.
  intros Hb. unfold base_model.
  destruct (Req_dec_T (beta self) 0); [lra |].
  destruct (Req_dec_T (beta self) 1); [reflexivity | contradiction].
Qed.

Lemma base_model_unsupported self sigma_arg g :
  beta self <> 0 -> beta self <> 1 ->
  base_model self sigma_arg g = (Raise ValueError, g).
Proof.
  intros H0 H1. unfold base_model.
  destruct (Req_dec_T (beta self) 0); [contradiction |].
  destruct (Req_dec_T (beta self) 1); [contradiction | reflexivity].
Qed.

(** Step (3) of the conditional pricers: row [j] of the price matrix is
    averaged over the paths. *)
Lemma cond_step3 pf m strike spot_eq vol texp cp j :
  pf_sigma m = Vector vol -> length spot_eq = length vol ->
  (j < length strike)%nat ->
  length (map mean (pf_price pf m strike spot_eq texp cp)) = length strike /\
  nth j (map mean (pf_price pf m strike spot_eq texp cp)) 0
  = mean (map (fun k => kernel_price pf (pf_kind_of m) (nth k vol 0) (pf_intr m)
                          (nth j strike 0) (nth k spot_eq 0) texp cp)
              (seq 0 (length spot_eq))).
Proof.
  intros Hs Hl Hj. unfold pf_price. rewrite Hs. simpl broadcast.
  split; [now rewrite !length_map |].
  rewrite map_map.
  rewrite (nth_map_lt _ strike j 0 0) by exact Hj.
  f_equal.
  exact (map_combine_seq
           (fun sv => kernel_price pf (pf_kind_of m) (snd sv) (pf_intr m)
                        (nth j strike 0) (fst sv) texp cp) spot_eq vol Hl).
Qed.

(** C6.  [ModelBsmCondMC.price] on a valid model ([beta] 0 or 1) with
    [vov > 0], a positive maturity and a positive time step.  With [a] the
    normalized path of [sigma_path] and [I_t] its integrated variance, path
    [k] has effective volatility [sigma * sqrt((1 - rho^2) * I_t[k])] and
    equivalent spot
    [spot * exp(rho/vov * (sigma * a[-1,k] - sigma)
                - rho^2 * sigma^2 * texp / 2 * I_t[k])],
    and the price of strike [j] is the average over the paths of the base
    model's price at (strike, equivalent spot, effective volatility, texp,
    cp); the base model is the log-normal one when [beta = 1]. *)
Theorem bsm_cond_price_formula pf self strike spot texp cp g :
  0 < vov self -> 0 < texp -> 0 < dt self ->
  beta self = 0 \/ beta self = 1 ->
  let n := Z.to_nat (np_ceil (texp / dt self)) in
  let N := n_path self in
  let g1 := advance g (n * N) in
  exists a I_t spot_eq vol m p,
    sigma_path self texp g = (Ok a, g1) /\
    intvar_normalized a g1 = (Ok I_t, g1) /\
    bsm_cond_equiv self spot texp g = (Ok (spot_eq, vol), g1) /\
    base_model self (Some (Vector vol)) g1 = (Ok m, g1) /\
    pf_sigma m = Vector vol /\ pf_intr m = intr self /\
    (beta self = 1 -> pf_kind_of m = Bsm) /\
    ModelBsmCondMC.price pf self strike spot texp cp g = (Ok p, g1) /\
    length spot_eq = N /\ length vol = N /\ length p = length strike /\
    (forall k, (k < N)%nat ->
       nth k vol 0 = sigma self * sqrt ((1 - rho self ^ 2) * nth k I_t 0) /\
       nth k spot_eq 0
       = spot * exp (rho self / vov self
                     * (sigma self * entry a n k - sigma self)
                     - rho self ^ 2 * sigma self ^ 2 * texp / 2 * nth k I_t 0)) /\
    (forall j, (j < length strike)%nat ->
       nth j p 0
       = mean (map (fun k => kernel_price pf (pf_kind_of m) (nth k vol 0)
                               (intr self) (nth j strike 0) (nth k spot_eq 0)
                               texp cp)
                   (seq 0 N))).
Proof.
  intros Hv HT Hdt Hb n N g1.
  destruct (bsm_cond_equiv_ok self spot texp g HT Hdt ltac:(lra))
    as (a & I_t & spot_eq & vol & Ha & HI & He & Hls & Hlv & Hk).
  fold n N g1 in Ha, HI, He, Hls, Hlv, Hk.
  assert (Hm : exists m,
             base_model self (Some (Vector vol)) g1 = (Ok m, g1) /\
             pf_sigma m = Vector vol /\ pf_intr m = intr self /\
             (beta self = 1 -> pf_kind_of m = Bsm)).
  { destruct Hb as [Hb | Hb].
    - eexists. split; [apply base_model_beta0, Hb |].
      repeat split. intros H1. lra.
    - eexists. split; [apply base_model_beta1, Hb |]. repeat split. }
  destruct Hm as (m & Hm & Hms & Hmi & Hmk).
  exists a, I_t, spot_eq, vol, m,
    (map mean (pf_price pf m strike spot_eq texp cp)).
  split; [exact Ha |]. split; [exact HI |]. split; [exact He |].
  split; [exact Hm |]. split; [exact Hms |]. split; [exact Hmi |].
  split; [exact Hmk |].
  split.
  { rewrite bsm_cond_price_steps, (bind_ok _ _ _ _ _ He).
    unfold cond_prices. cbn [fst snd].
    rewrite (bind_ok _ _ _ _ _ Hm). reflexivity. }
  split; [exact Hls |]. split; [exact Hlv |].
  split; [unfold pf_price; now rewrite !length_map |].
  split; [exact Hk |].
  intros j Hj.
  destruct (cond_step3 pf m strike spot_eq vol texp cp j Hms
              ltac:(congruence) Hj) as [_ Hp].
  rewrite Hp, Hmi, Hls. reflexivity.
Qed.

Lemma bsm_cond_price_formula_witness :
  exists a I_t spot_eq vol m p,
    sigma_path (mkModel 1 1 0 1 0 1 1) 1 (mkRng (fun _ => 0) 0)
    = (Ok a, advance (mkRng (fun _ => 0) 0)
               (Z.to_nat (np_ceil (1 / dt (mkModel 1 1 0 1 0 1 1)))
                * n_path (mkModel 1 1 0 1 0 1 1))) /\
    intvar_normalized a
      (advance (mkRng (fun _ => 0) 0)
         (Z.to_nat (np_ceil (1 / dt (mkModel 1 1 0 1 0 1 1)))
          * n_path (mkModel 1 1 0 1 0 1 1)))
    = (Ok I_t,
       advance (mkRng (fun _ => 0) 0)
         (Z.to_nat (np_ceil (1 / dt (mkModel 1 1 0 1 0 1 1)))
          * n_path (mkModel 1 1 0 1 0 1 1))) /\
    bsm_cond_equiv (mkModel 1 1 0 1 0 1 1) 2 1 (mkRng (fun _ => 0) 0)
    = (Ok (spot_eq, vol),
       advance (mkRng (fun _ => 0) 0)
         (Z.to_nat (np_ceil (1 / dt (mkModel 1 1 0 1 0 1 1)))
          * n_path (mkModel 1 1 0 1 0 1 1))) /\
    base_model (mkModel 1 1 0 1 0 1 1) (Some (Vector vol))
      (advance (mkRng (fun _ => 0) 0)
         (Z.to_nat (np_ceil (1 / dt (mkModel 1 1 0 1 0 1 1)))
          * n_path (mkModel 1 1 0 1 0 1 1)))
    = (Ok m,
       advance (mkRng (fun _ => 0) 0)
         (Z.to_nat (np_ceil (1 / dt (mkModel 1 1 0 1 0 1 1)))
          * n_path (mkModel 1 1 0 1 0 1 1))) /\
    pf_sigma m = Vector vol /\ pf_intr m = intr (mkModel 1 1 0 1 0 1 1) /\
    (beta (mkModel 1 1 0 1 0 1 1) = 1 -> pf_kind_of m = Bsm) /\
    ModelBsmCondMC.price
      (mk_pyfeng (fun _ _ _ _ _ _ _ => 0) (fun _ _ _ _ _ _ _ => 0))
      (mkModel 1 1 0 1 0 1 1) [2] 2 1 1 (mkRng (fun _ => 0) 0)
    = (Ok p,
       advance (mkRng (fun _ => 0) 0)
         (Z.to_nat (np_ceil (1 / dt (mkModel 1 1 0 1 0 1 1)))
          * n_path (mkModel 1 1 0 1 0 1 1))) /\
    length spot_eq = n_path (mkModel 1 1 0 1 0 1 1) /\
    length vol = n_path (mkModel 1 1 0 1 0 1 1) /\
    length p = length [2] /\
    (forall k, (k < n_path (mkModel 1 1 0 1 0 1 1))%nat ->
       nth k vol 0
       = sigma (mkModel 1 1 0 1 0 1 1)
         * sqrt ((1 - rho (mkModel 1 1 0 1 0 1 1) ^ 2) * nth k I_t 0) /\
       nth k spot_eq 0
       = 2 * exp (rho (mkModel 1 1 0 1 0 1 1) / vov (mkModel 1 1 0 1 0 1 1)
                  * (sigma (mkModel 1 1 0 1 0 1 1)
                     * entry a
                         (Z.to_nat (np_ceil (1 / dt (mkModel 1 1 0 1 0 1 1))))
                         k
                     - sigma (mkModel 1 1 0 1 0 1 1))
                  - rho (mkModel 1 1 0 1 0 1 1) ^ 2
                    * sigma (mkModel 1 1 0 1 0 1 1) ^ 2 * 1 / 2
                    * nth k I_t 0)) /\
    (forall j, (j < length [2])%nat ->
       nth j p 0
       = mean (map (fun k =>
                      kernel_price
                        (mk_pyfeng (fun _ _ _ _ _ _ _ => 0)
                           (fun _ _ _ _ _ _ _ => 0))
                        (pf_kind_of m) (nth k vol 0)
                        (intr (mkModel 1 1 0 1 0 1 1)) (nth j [2] 0)
                        (nth k spot_eq 0) 1 1)
                   (seq 0 (n_path (mkModel 1 1 0 1 0 1 1))))).
Proof.
  apply (bsm_cond_price_formula
           (mk_pyfeng (fun _ _ _ _ _ _ _ => 0) (fun _ _ _ _ _ _ _ => 0))
           (mkModel 1 1 0 1 0 1 1) [2] 2 1 1%Z (mkRng (fun _ => 0) 0));
    simpl; lra.
Defined.

(** [price] is the reading of [price_as] on Python scalars. *)
Lemma cond_price_as_py pf self strike spot texp cp :
  ModelBsmCondMC.price_as PyScalar pf self strike spot texp cp
  = ModelBsmCondMC.price pf self strike spot texp cp /\
  ModelNormalCondMC.price_as PyScalar pf self strike spot texp cp
  = ModelNormalCondMC.price pf self strike spot texp cp.
Proof. split; reflexivity. Qed.

(** On Python scalars a zero [vov] stops both conditional pricers at
    [self.rho / self.vov], once the path has been drawn. *)
Lemma cond_price_as_py_zero_vov pf self strike spot texp cp g :
  vov self = 0 -> 0 < texp -> 0 < dt self ->
  let g1 := advance g (Z.to_nat (np_ceil (texp / dt self)) * n_path self) in
  ModelBsmCondMC.price_as PyScalar pf self strike spot texp cp g
  = (Raise ZeroDivisionError, g1) /\
  ModelNormalCondMC.price_as PyScalar pf self strike spot texp cp g
  = (Raise ZeroDivisionError, g1).
Proof.
  intros Hv HT Hdt g1.
  destruct (cond_paths_ok self texp g HT Hdt)
    as (a & I_t & Ha & _ & _ & _ & _ & HrT & Hr0 & _ & HI & _).
  fold g1 in Ha, HrT, Hr0, HI.
  split.
  - unfold ModelBsmCondMC.price_as.
    rewrite (bind_ok _ _ _ _ _ Ha), (bind_ok _ _ _ _ _ HrT),
      (bind_ok _ _ _ _ _ HI).
    apply bind_raise. simpl div_as. rewrite Hv. apply py_div_zero.
  - unfold ModelNormalCondMC.price_as.
    rewrite (bind_ok _ _ _ _ _ Ha), (bind_ok _ _ _ _ _ HrT),
      (bind_ok _ _ _ _ _ Hr0), (bind_ok _ _ _ _ _ HI).
    apply bind_raise. simpl div_as. rewrite Hv. apply py_div_zero.
Qed.

(** With a NumPy-scalar operand the division raises nothing, whatever
    [vov]: both conditional pricers reach [base_model], and what they return
    is its outcome. *)
Lemma cond_price_as_np pf self strike spot texp cp g :
  0 < texp -> 0 < dt self ->
  let g1 := advance g (Z.to_nat (np_ceil (texp / dt self)) * n_path self) in
  (beta self = 0 \/ beta self = 1 ->
   (exists p,
       ModelBsmCondMC.price_as NpScalar pf self strike spot texp cp g
       = (Ok p, g1) /\ length p = length strike) /\
   (exists p,
       ModelNormalCondMC.price_as NpScalar pf self strike spot texp cp g
       = (Ok p, g1) /\ length p = length strike)) /\
  (beta self <> 0 -> beta self <> 1 ->
   ModelBsmCondMC.price_as NpScalar pf self strike spot texp cp g
   = (Raise ValueError, g1) /\
   ModelNormalCondMC.price_as NpScalar pf self strike spot texp cp g
   = (Raise ValueError, g1)).
Proof.
  intros HT Hdt g1.
  destruct (cond_paths_ok self texp g HT Hdt)
    as (a & I_t & Ha & _ & _ & _ & _ & HrT & Hr0 & _ & HI & _).
  fold g1 in Ha, HrT, Hr0, HI.
  assert (Hdiv : forall x y, div_as NpScalar x y g1 = (Ok (x / y), g1))
    by reflexivity.
  split.
  - intros Hb.
    assert (Hm : forall vol, exists m,
               base_model self (Some (Vector vol)) g1 = (Ok m, g1)).
    { intros vol. destruct Hb as [Hb | Hb]; eexists;
        [apply base_model_beta0, Hb | apply base_model_beta1, Hb]. }
    split.
    + destruct (Hm (map (fun x => sigma self
                                  * sqrt ((1 - rho self ^ 2) * x)) I_t))
        as [m Hm'].
      eexists. split.
      * unfold ModelBsmCondMC.price_as.
        rewrite (bind_ok _ _ _ _ _ Ha), (bind_ok _ _ _ _ _ HrT),
          (bind_ok _ _ _ _ _ HI), (bind_ok _ _ _ _ _ (Hdiv _ _)),
          (bind_ok _ _ _ _ _ Hm').
        reflexivity.
      * unfold pf_price. now rewrite !length_map.
    + destruct (Hm (map (fun x => sigma self
                                  * sqrt ((1 - rho self ^ 2) * x)) I_t))
        as [m Hm'].
      eexists. split.
      * unfold ModelNormalCondMC.price_as.
        rewrite (bind_ok _ _ _ _ _ Ha), (bind_ok _ _ _ _ _ HrT),
          (bind_ok _ _ _ _ _ Hr0), (bind_ok _ _ _ _ _ HI),
          (bind_ok _ _ _ _ _ (Hdiv _ _)), (bind_ok _ _ _ _ _ Hm').
        reflexivity.
      * unfold pf_price. now rewrite !length_map.
  - intros H0 H1. split.
    + unfold ModelBsmCondMC.price_as.
      rewrite (bind_ok _ _ _ _ _ Ha), (bind_ok _ _ _ _ _ HrT),
        (bind_ok _ _ _ _ _ HI), (bind_ok _ _ _ _ _ (Hdiv _ _)).
      apply bind_raise, base_model_unsupported; assumption.
    + unfold ModelNormalCondMC.price_as.
      rewrite (bind_ok _ _ _ _ _ Ha), (bind_ok _ _ _ _ _ HrT),
        (bind_ok _ _ _ _ _ Hr0), (bind_ok _ _ _ _ _ HI),
        (bind_ok _ _ _ _ _ (Hdiv _ _)).
      apply bind_raise, base_model_unsupported; assumption.
Qed.

(** C3, as the code has it.  Let [vov = 0], with a positive maturity and a
    positive time step.  Nothing in the code guards the division
    [self.rho / self.vov]; what happens depends on how [rho] and [vov] were
    given.
    - Both Python scalars (as the constructor's defaults are): both
      conditional pricers raise [ZeroDivisionError], after the path has been
      drawn.
    - One of them a NumPy scalar: the division raises nothing, and both
      pricers go on to the base model: they return one value per strike
      when [beta] is 0 or 1, and raise [ValueError] for any other [beta].
      No divide-by-zero error is raised. *)
Theorem cond_price_zero_vov_by_operands pf self strike spot texp cp g :
  vov self = 0 -> 0 < texp -> 0 < dt self ->
  let g1 := advance g (Z.to_nat (np_ceil (texp / dt self)) * n_path self) in
  (ModelBsmCondMC.price_as PyScalar pf self strike spot texp cp g
   = (Raise ZeroDivisionError, g1) /\
   ModelNormalCondMC.price_as PyScalar pf self strike spot texp cp g
   = (Raise ZeroDivisionError, g1)) /\
  (beta self = 0 \/ beta self = 1 ->
   (exists p,
       ModelBsmCondMC.price_as NpScalar pf self strike spot texp cp g
       = (Ok p, g1) /\ length p = length strike) /\
   (exists p,
       ModelNormalCondMC.price_as NpScalar pf self strike spot texp cp g
       = (Ok p, g1) /\ length p = length strike)) /\
  (beta self <> 0 -> beta self <> 1 ->
   ModelBsmCondMC.price_as NpScalar pf self strike spot texp cp g
   = (Raise ValueError, g1) /\
   ModelNormalCondMC.price_as NpScalar pf self strike spot texp cp g
   = (Raise ValueError, g1)).
Proof.
  intros Hv HT Hdt g1. split.
  - exact (cond_price_as_py_zero_vov pf self strike spot texp cp g Hv HT Hdt).
  - exact (cond_price_as_np pf self strike spot texp cp g HT Hdt).
Qed.

Lemma cond_price_zero_vov_by_operands_witness :
  ModelBsmCondMC.price_as PyScalar
    (mk_pyfeng (fun _ _ _ _ _ _ _ => 0) (fun _ _ _ _ _ _ _ => 0))
    (init 0.2 0 0 1 0) [90; 100; 110] 100 1 1 (mkRng (fun _ => 0) 0)
  = (Raise ZeroDivisionError,
     advance (mkRng (fun _ => 0) 0)
       (Z.to_nat (np_ceil (1 / dt (init 0.2 0 0 1 0)))
        * n_path (init 0.2 0 0 1 0))) /\
  ModelNormalCondMC.price_as PyScalar
    (mk_pyfeng (fun _ _ _ _ _ _ _ => 0) (fun _ _ _ _ _ _ _ => 0))
    (init 0.2 0 0 1 0) [90; 100; 110] 100 1 1 (mkRng (fun _ => 0) 0)
  = (Raise ZeroDivisionError,
     advance (mkRng (fun _ => 0) 0)
       (Z.to_nat (np_ceil (1 / dt (init 0.2 0 0 1 0)))
        * n_path (init 0.2 0 0 1 0))).
Proof.
  apply (cond_price_zero_vov_by_operands
           (mk_pyfeng (fun _ _ _ _ _ _ _ => 0) (fun _ _ _ _ _ _ _ => 0))
           (init 0.2 0 0 1 0) [90; 100; 110] 100 1 1%Z
           (mkRng (fun _ => 0) 0)); cbn [init vov dt]; lra.
Defined.

(** C3 fails as stated: on the default model ([vov = 0], [beta = 1]) with
    [vov] given as a NumPy scalar, the log-normal conditional pricer raises
    nothing and returns a value for every strike. *)
Lemma cond_price_zero_vov_counterexample :
  vov (init 0.2 0 0 1 0) = 0 /\
  (exists p g',
      ModelBsmCondMC.price_as NpScalar
        (mk_pyfeng (fun _ _ _ _ _ _ _ => 0) (fun _ _ _ _ _ _ _ => 0))
        (init 0.2 0 0 1 0) [90; 100; 110] 100 1 1 (mkRng (fun _ => 0) 0)
      = (Ok p, g') /\ length p = 3%nat) /\
  (forall e g',
      ModelBsmCondMC.price_as NpScalar
        (mk_pyfeng (fun _ _ _ _ _ _ _ => 0) (fun _ _ _ _ _ _ _ => 0))
        (init 0.2 0 0 1 0) [90; 100; 110] 100 1 1 (mkRng (fun _ => 0) 0)
      <> (Raise e, g')).
Proof.
  destruct (cond_price_as_np
              (mk_pyfeng (fun _ _ _ _ _ _ _ => 0) (fun _ _ _ _ _ _ _ => 0))
              (init 0.2 0 0 1 0) [90; 100; 110] 100 1 1%Z
              (mkRng (fun _ => 0) 0)) as [Hok _];
    try (cbn [init dt]; lra).
  destruct Hok as [(p & Hp & Hl) _]; [right; reflexivity |].
  split; [reflexivity |].
  split; [exists p; eexists; split; [exact Hp | exact Hl] |].
  intros e g'. rewrite Hp. discriminate.
Qed.

(** ** Unsupported [beta] *)

Lemma direct_price_ok self strike spot texp cp g :
  dt self <> 0 -> (0 <= np_ceil (texp / dt self))%Z ->
  (exists p g', ModelBsmMC.price self strike spot texp cp g = (Ok p, g') /\
                length p = length strike) /\
  (exists p g', ModelNormalMC.price self strike spot texp cp g = (Ok p, g') /\
                length p = length strike).
Proof.
  intros Hdt Hn. split.
  - destruct (bsm_terminal_spot_ok self spot texp g Hdt Hn) as (S_T & HS & _).
    eexists; eexists. split; [apply bsm_price_of_terminal, HS |].
    apply length_mc_prices.
  - destruct (normal_terminal_spot_ok self spot texp g Hdt Hn)
      as (S_T & HS & _).
    eexists; eexists. split; [apply normal_price_of_terminal, HS |].
    apply length_mc_prices.
Qed.

Lemma cond_price_unsupported pf self strike spot texp cp g :
  beta self <> 0 -> beta self <> 1 ->
  0 < texp -> 0 < dt self -> vov self <> 0 ->
  let g1 := advance g (Z.to_nat (np_ceil (texp / dt self)) * n_path self) in
  ModelBsmCondMC.price pf self strike spot texp cp g = (Raise ValueError, g1) /\
  ModelNormalCondMC.price pf self strike spot texp cp g
  = (Raise ValueError, g1).
Proof.
  intros Hb0 Hb1 HT Hdt Hv g1. split.
  - destruct (bsm_cond_equiv_ok self spot texp g HT Hdt Hv)
      as (a & I_t & spot_eq & vol & _ & _ & He & _).
    fold g1 in He. rewrite bsm_cond_price_steps, (bind_ok _ _ _ _ _ He).
    apply bind_raise, base_model_unsupported; assumption.
  - destruct (normal_cond_equiv_ok self spot texp g HT Hdt Hv)
      as (a & I_t & spot_eq & vol & _ & _ & He & _).
    fold g1 in He. rewrite normal_cond_price_steps, (bind_ok _ _ _ _ _ He).
    apply bind_raise, base_model_unsupported; assumption.
Qed.

(** The direct pricers never read [beta]. *)
Lemma direct_price_ignores_beta self b strike spot texp cp :
  ModelBsmMC.price (set_beta self b) strike spot texp cp
  = ModelBsmMC.price self strike spot texp cp /\
  ModelNormalMC.price (set_beta self b) strike spot texp cp
  = ModelNormalMC.price self strike spot texp cp.
Proof. split; reflexivity. Qed.

(** C4, as the code has it.  Let [beta] lie strictly between 0 and 1.
    - [base_model] raises [ValueError] for every argument, and leaves the
      generator untouched.
    - Every pricing call on the two conditional pricers with a positive
      maturity and time step and [vov <> 0] raises [ValueError], but only
      after the whole path has been drawn from the generator.
    - The two direct pricers do not read [beta]: their result is the same
      whatever [beta] is set to, and on a positive maturity and time step
      they return one price per strike.
    - On a positive maturity and time step [vol_smile] raises [ValueError]
      on the two direct classes, and on the two conditional classes when in
      addition [vov <> 0]. *)
Theorem unsupported_beta pf self strike spot texp cp g :
  0 < beta self < 1 ->
  (forall sigma_arg g0,
     base_model self sigma_arg g0 = (Raise ValueError, g0)) /\
  (0 < texp -> 0 < dt self -> vov self <> 0 ->
   ModelBsmCondMC.price pf self strike spot texp cp g
   = (Raise ValueError,
      advance g (Z.to_nat (np_ceil (texp / dt self)) * n_path self)) /\
   ModelNormalCondMC.price pf self strike spot texp cp g
   = (Raise ValueError,
      advance g (Z.to_nat (np_ceil (texp / dt self)) * n_path self))) /\
  (forall b,
     ModelBsmMC.price (set_beta self b) strike spot texp cp g
     = ModelBsmMC.price self strike spot texp cp g /\
     ModelNormalMC.price (set_beta self b) strike spot texp cp g
     = ModelNormalMC.price self strike spot texp cp g) /\
  (0 < texp -> 0 < dt self ->
   (exists p g', ModelBsmMC.price self strike spot texp cp g = (Ok p, g') /\
                 length p = length strike) /\
   (exists p g', ModelNormalMC.price self strike spot texp cp g = (Ok p, g') /\
                 length p = length strike)) /\
  (0 < texp -> 0 < dt self ->
   forall c, c = BsmMC \/ c = NormalMC \/ vov self <> 0 ->
   exists g',
     vol_smile pf (price_of pf c) self strike spot texp g
     = (Raise ValueError, g')).
Proof.
  intros [Hb0 Hb1].
  assert (H0 : beta self <> 0) by lra.
  assert (H1 : beta self <> 1) by lra.
  split; [intros; apply base_model_unsupported; assumption |].
  split; [intros HT Hdt Hv;
          apply cond_price_unsupported; assumption |].
  split.
  { intros b.
    destruct (direct_price_ignores_beta self b strike spot texp cp) as [E1 E2].
    now rewrite E1, E2. }
  split.
  { intros HT Hdt. apply direct_price_ok; [lra |].
    pose proof (np_ceil_pos _ (div_pos _ _ HT Hdt)). lia. }
  intros HT Hdt c Hc.
  assert (Hn : (0 <= np_ceil (texp / dt self))%Z).
  { pose proof (np_ceil_pos _ (div_pos _ _ HT Hdt)). lia. }
  destruct (direct_price_ok self strike spot texp 1%Z g ltac:(lra) Hn)
    as [(pb & gb & Hpb & _) (pn & gn & Hpn & _)].
  unfold vol_smile.
  destruct c; simpl price_of.
  - exists gb. rewrite (bind_ok _ _ _ _ _ Hpb).
    apply bind_raise, base_model_unsupported; assumption.
  - exists gn. rewrite (bind_ok _ _ _ _ _ Hpn).
    apply bind_raise, base_model_unsupported; assumption.
  - assert (Hv : vov self <> 0)
      by (destruct Hc as [Hc | [Hc | Hc]]; [discriminate | discriminate | exact Hc]).
    destruct (cond_price_unsupported pf self strike spot texp 1%Z g
                H0 H1 HT Hdt Hv) as [Hcb _].
    eexists. apply bind_raise. exact Hcb.
  - assert (Hv : vov self <> 0)
      by (destruct Hc as [Hc | [Hc | Hc]]; [discriminate | discriminate | exact Hc]).
    destruct (cond_price_unsupported pf self strike spot texp 1%Z g
                H0 H1 HT Hdt Hv) as [_ Hcn].
    eexists. apply bind_raise. exact Hcn.
Qed.

Lemma unsupported_beta_witness :
  (forall sigma_arg g0,
     base_model (mkModel 1 1 0 (1/2) 0 1 1) sigma_arg g0
     = (Raise ValueError, g0)) /\
  (0 < 1 -> 0 < dt (mkModel 1 1 0 (1/2) 0 1 1) ->
   vov (mkModel 1 1 0 (1/2) 0 1 1) <> 0 ->
   ModelBsmCondMC.price
     (mk_pyfeng (fun _ _ _ _ _ _ _ => 0) (fun _ _ _ _ _ _ _ => 0))
     (mkModel 1 1 0 (1/2) 0 1 1) [1] 1 1 1 (mkRng (fun _ => 0) 0)
   = (Raise ValueError,
      advance (mkRng (fun _ => 0) 0)
        (Z.to_nat (np_ceil (1 / dt (mkModel 1 1 0 (1/2) 0 1 1)))
         * n_path (mkModel 1 1 0 (1/2) 0 1 1))) /\
   ModelNormalCondMC.price
     (mk_pyfeng (fun _ _ _ _ _ _ _ => 0) (fun _ _ _ _ _ _ _ => 0))
     (mkModel 1 1 0 (1/2) 0 1 1) [1] 1 1 1 (mkRng (fun _ => 0) 0)
   = (Raise ValueError,
      advance (mkRng (fun _ => 0) 0)
        (Z.to_nat (np_ceil (1 / dt (mkModel 1 1 0 (1/2) 0 1 1)))
         * n_path (mkModel 1 1 0 (1/2) 0 1 1)))) /\
  (forall b,
     ModelBsmMC.price (set_beta (mkModel 1 1 0 (1/2) 0 1 1) b) [1] 1 1 1
       (mkRng (fun _ => 0) 0)
     = ModelBsmMC.price (mkModel 1 1 0 (1/2) 0 1 1) [1] 1 1 1
         (mkRng (fun _ => 0) 0) /\
     ModelNormalMC.price (set_beta (mkModel 1 1 0 (1/2) 0 1 1) b) [1] 1 1 1
       (mkRng (fun _ => 0) 0)
     = ModelNormalMC.price (mkModel 1 1 0 (1/2) 0 1 1) [1] 1 1 1
         (mkRng (fun _ => 0) 0)) /\
  (0 < 1 -> 0 < dt (mkModel 1 1 0 (1/2) 0 1 1) ->
   (exists p g',
       ModelBsmMC.price (mkModel 1 1 0 (1/2) 0 1 1) [1] 1 1 1
         (mkRng (fun _ => 0) 0) = (Ok p, g') /\
       length p = length [1]) /\
   (exists p g',
       ModelNormalMC.price (mkModel 1 1 0 (1/2) 0 1 1) [1] 1 1 1
         (mkRng (fun _ => 0) 0) = (Ok p, g') /\
       length p = length [1])) /\
  (0 < 1 -> 0 < dt (mkModel 1 1 0 (1/2) 0 1 1) ->
   forall c, c = BsmMC \/ c = NormalMC \/ vov (mkModel 1 1 0 (1/2) 0 1 1) <> 0 ->
   exists g',
     vol_smile
       (mk_pyfeng (fun _ _ _ _ _ _ _ => 0) (fun _ _ _ _ _ _ _ => 0))
       (price_of
          (mk_pyfeng (fun _ _ _ _ _ _ _ => 0) (fun _ _ _ _ _ _ _ => 0)) c)
       (mkModel 1 1 0 (1/2) 0 1 1) [1] 1 1 (mkRng (fun _ => 0) 0)
     = (Raise ValueError, g')).
Proof.
  apply (unsupported_beta
           (mk_pyfeng (fun _ _ _ _ _ _ _ => 0) (fun _ _ _ _ _ _ _ => 0))
           (mkModel 1 1 0 (1/2) 0 1 1) [1] 1 1 1%Z (mkRng (fun _ => 0) 0)).
  simpl. lra.
Defined.

(** C4 fails as stated: with [beta = 1/2] a direct pricer returns a price,
    and the conditional pricer that does fail has consumed a draw first. *)
Lemma unsupported_beta_counterexample :
  0 < beta (mkModel 1 1 0 (1/2) 0 1 1) < 1 /\
  (exists p g',
      ModelNormalMC.price (mkModel 1 1 0 (1/2) 0 1 1) [1] 1 1 1
        (mkRng (fun _ => 0) 0) = (Ok p, g')) /\
  (forall e g',
      ModelNormalMC.price (mkModel 1 1 0 (1/2) 0 1 1) [1] 1 1 1
        (mkRng (fun _ => 0) 0) <> (Raise e, g')) /\
  (exists g',
      ModelBsmCondMC.price
        (mk_pyfeng (fun _ _ _ _ _ _ _ => 0) (fun _ _ _ _ _ _ _ => 0))
        (mkModel 1 1 0 (1/2) 0 1 1) [1] 1 1 1 (mkRng (fun _ => 0) 0)
      = (Raise ValueError, g') /\
      cursor g' = 1%nat).
Proof.
  assert (Hc : np_ceil (1 / 1) = 1%Z) by (apply np_ceil_unique; lra).
  split; [simpl; lra |].
  destruct (direct_price_ok (mkModel 1 1 0 (1/2) 0 1 1) [1] 1 1 1%Z
              (mkRng (fun _ => 0) 0)) as [_ (p & g' & Hp & _)].
  { simpl. lra. }
  { simpl. rewrite Hc. lia. }
  split; [exists p, g'; exact Hp |].
  split; [intros e g''; rewrite Hp; discriminate |].
  destruct (cond_price_unsupported
              (mk_pyfeng (fun _ _ _ _ _ _ _ => 0) (fun _ _ _ _ _ _ _ => 0))
              (mkModel 1 1 0 (1/2) 0 1 1) [1] 1 1 1%Z (mkRng (fun _ => 0) 0))
    as [Hb _]; simpl; try lra.
  eexists. split; [exact Hb |].
  simpl. rewrite Hc. reflexivity.
Qed.

(** ** Non-positive maturity *)

Lemma np_ceil_zero_steps texp h :
  0 < h -> - h < texp -> texp <= 0 -> np_ceil (texp / h) = 0%Z.
Proof.
  intros Hh H1 H2. apply np_ceil_unique.
  assert (Hq : texp = texp / h * h) by (field; lra).
  set (q := texp / h) in *. simpl. nra.
Qed.

Lemma np_ceil_negative_steps texp h :
  0 < h -> texp <= - h -> (np_ceil (texp / h) < 0)%Z.
Proof.
  intros Hh H1. destruct (np_ceil_spec (texp / h)) as [H2 _].
  assert (Hq : texp = texp / h * h) by (field; lra).
  set (q := texp / h) in *.
  assert (Hlt : IZR (np_ceil q) < IZR 0) by (simpl; nra).
  apply lt_IZR in Hlt. exact Hlt.
Qed.

Lemma sigma_path_zero_steps self texp g :
  dt self <> 0 -> np_ceil (texp / dt self) = 0%Z ->
  sigma_path self texp g = (Raise ZeroDivisionError, g).
Proof.
  intros Hdt Hn. unfold sigma_path.
  rewrite (bind_ok _ _ _ _ _ (py_div_ok texp (dt self) g Hdt)).
  rewrite Hn. apply bind_raise, py_div_zero.
Qed.

Lemma sigma_path_negative_steps self texp g :
  dt self <> 0 -> (np_ceil (texp / dt self) < 0)%Z ->
  sigma_path self texp g = (Raise IndexError, g).
Proof.
  intros Hdt Hn. unfold sigma_path.
  rewrite (bind_ok _ _ _ _ _ (py_div_ok texp (dt self) g Hdt)).
  assert (HnR : IZR (np_ceil (texp / dt self)) <> 0)
    by (apply not_0_IZR; lia).
  rewrite (bind_ok _ _ _ _ _ (py_div_ok texp _ g HnR)).
  apply bind_raise.
  assert (Hg : tobs_grid (np_ceil (texp / dt self)) texp = []).
  { unfold tobs_grid, arange1.
    destruct (np_ceil (texp / dt self)); try lia. reflexivity. }
  rewrite Hg. reflexivity.
Qed.

Lemma cond_price_of_path_error pf self strike spot texp cp g e g' :
  sigma_path self texp g = (Raise e, g') ->
  ModelBsmCondMC.price pf self strike spot texp cp g = (Raise e, g') /\
  ModelNormalCondMC.price pf self strike spot texp cp g = (Raise e, g').
Proof.
  intros H. split.
  - rewrite bsm_cond_price_steps. unfold bsm_cond_equiv.
    apply bind_raise, bind_raise, H.
  - rewrite normal_cond_price_steps. unfold normal_cond_equiv.
    apply bind_raise, bind_raise, H.
Qed.

Lemma direct_price_negative_steps self strike spot texp cp g :
  dt self <> 0 -> (np_ceil (texp / dt self) < 0)%Z ->
  ModelBsmMC.price self strike spot texp cp g = (Raise ValueError, g) /\
  ModelNormalMC.price self strike spot texp cp g = (Raise ValueError, g).
Proof.
  intros Hdt Hn.
  pose proof (mc_paths_negative self texp g Hdt Hn) as Hp. split.
  - rewrite bsm_price_steps. unfold bsm_terminal_spot.
    apply bind_raise, bind_raise, Hp.
  - rewrite normal_price_steps. unfold normal_terminal_spot.
    apply bind_raise, bind_raise, Hp.
Qed.

(** With no step at all the loops of the direct pricers do not run: the
    terminal spots are [exp(log(spot))] (log-normal) and [spot] (normal). *)
Lemma direct_price_zero_steps self strike spot texp cp g :
  dt self <> 0 -> np_ceil (texp / dt self) = 0%Z ->
  (exists S_T g',
      ModelBsmMC.price self strike spot texp cp g
      = (Ok (mc_prices self strike texp cp S_T), g') /\
      length S_T = n_path self /\
      forall i, (i < n_path self)%nat -> nth i S_T 0 = exp (ln spot)) /\
  (exists S_T g',
      ModelNormalMC.price self strike spot texp cp g
      = (Ok (mc_prices self strike texp cp S_T), g') /\
      length S_T = n_path self /\
      forall i, (i < n_path self)%nat -> nth i S_T 0 = spot).
Proof.
  intros Hdt Hn. split.
  - destruct (bsm_terminal_spot_ok self spot texp g Hdt ltac:(lia))
      as (S_T & HS & HL & HE).
    exists S_T. eexists. split; [apply bsm_price_of_terminal, HS |].
    split; [exact HL |]. intros i Hi. rewrite HE by exact Hi.
    rewrite Hn. unfold sum_over. simpl. f_equal. lra.
  - destruct (normal_terminal_spot_ok self spot texp g Hdt ltac:(lia))
      as (S_T & HS & HL & HE).
    exists S_T. eexists. split; [apply normal_price_of_terminal, HS |].
    split; [exact HL |]. intros i Hi. rewrite HE by exact Hi.
    rewrite Hn. unfold sum_over. simpl. lra.
Qed.

(** C5, as the code has it.  Let [texp <= 0] and [dt > 0].
    - If [texp <= -dt] the number of steps is negative and every pricer
      fails: the conditional ones with [IndexError] (last point of an empty
      grid), the direct ones with [ValueError] (negative array dimension).
    - If [-dt < texp <= 0] the number of steps is 0 and the conditional
      pricers fail with [ZeroDivisionError], at [texp / n_dt] in
      [sigma_path].  Every failure is raised before any draw. *)
Theorem nonpositive_maturity pf self strike spot texp cp g :
  texp <= 0 -> 0 < dt self ->
  (texp <= - dt self ->
   ModelBsmCondMC.price pf self strike spot texp cp g = (Raise IndexError, g) /\
   ModelNormalCondMC.price pf self strike spot texp cp g
   = (Raise IndexError, g) /\
   ModelBsmMC.price self strike spot texp cp g = (Raise ValueError, g) /\
   ModelNormalMC.price self strike spot texp cp g = (Raise ValueError, g)) /\
  (- dt self < texp ->
   ModelBsmCondMC.price pf self strike spot texp cp g
   = (Raise ZeroDivisionError, g) /\
   ModelNormalCondMC.price pf self strike spot texp cp g
   = (Raise ZeroDivisionError, g)).
Proof.
  intros HT Hdt.
  assert (Hdt0 : dt self <> 0) by lra.
  split.
  - intros Hneg.
    pose proof (np_ceil_negative_steps texp (dt self) Hdt Hneg) as Hn.
    destruct (cond_price_of_path_error pf self strike spot texp cp g _ _
                (sigma_path_negative_steps self texp g Hdt0 Hn)) as [H1 H2].
    destruct (direct_price_negative_steps self strike spot texp cp g Hdt0 Hn)
      as [H3 H4].
    repeat split; assumption.
  - intros Hsmall.
    pose proof (np_ceil_zero_steps texp (dt self) Hdt Hsmall HT) as Hn.
    exact (cond_price_of_path_error pf self strike spot texp cp g _ _
             (sigma_path_zero_steps self texp g Hdt0 Hn)).
Qed.

Lemma nonpositive_maturity_witness :
  (-2 <= - dt (mkModel 1 0 0 1 0 1 1) ->
   ModelBsmCondMC.price
     (mk_pyfeng (fun _ _ _ _ _ _ _ => 0) (fun _ _ _ _ _ _ _ => 0))
     (mkModel 1 0 0 1 0 1 1) [1] 2 (-2) 1 (mkRng (fun _ => 0) 0)
   = (Raise IndexError, mkRng (fun _ => 0) 0) /\
   ModelNormalCondMC.price
     (mk_pyfeng (fun _ _ _ _ _ _ _ => 0) (fun _ _ _ _ _ _ _ => 0))
     (mkModel 1 0 0 1 0 1 1) [1] 2 (-2) 1 (mkRng (fun _ => 0) 0)
   = (Raise IndexError, mkRng (fun _ => 0) 0) /\
   ModelBsmMC.price (mkModel 1 0 0 1 0 1 1) [1] 2 (-2) 1
     (mkRng (fun _ => 0) 0)
   = (Raise ValueError, mkRng (fun _ => 0) 0) /\
   ModelNormalMC.price (mkModel 1 0 0 1 0 1 1) [1] 2 (-2) 1
     (mkRng (fun _ => 0) 0)
   = (Raise ValueError, mkRng (fun _ => 0) 0)) /\
  (- dt (mkModel 1 0 0 1 0 1 1) < -2 ->
   ModelBsmCondMC.price
     (mk_pyfeng (fun _ _ _ _ _ _ _ => 0) (fun _ _ _ _ _ _ _ => 0))
     (mkModel 1 0 0 1 0 1 1) [1] 2 (-2) 1 (mkRng (fun _ => 0) 0)
   = (Raise ZeroDivisionError, mkRng (fun _ => 0) 0) /\
   ModelNormalCondMC.price
     (mk_pyfeng (fun _ _ _ _ _ _ _ => 0) (fun _ _ _ _ _ _ _ => 0))
     (mkModel 1 0 0 1 0 1 1) [1] 2 (-2) 1 (mkRng (fun _ => 0) 0)
   = (Raise ZeroDivisionError, mkRng (fun _ => 0) 0)).
Proof.
  apply (nonpositive_maturity
           (mk_pyfeng (fun _ _ _ _ _ _ _ => 0) (fun _ _ _ _ _ _ _ => 0))
           (mkModel 1 0 0 1 0 1 1) [1] 2 (-2) 1%Z (mkRng (fun _ => 0) 0));
    simpl; lra.
Defined.

(** C5 fails as stated: at [texp = 0] the direct pricers return a price. *)
Lemma nonpositive_maturity_counterexample :
  (exists p g',
      ModelBsmMC.price (mkModel 1 0 0 1 0 1 1) [1] 2 0 1
        (mkRng (fun _ => 0) 0) = (Ok p, g')) /\
  (forall e g',
      ModelBsmMC.price (mkModel 1 0 0 1 0 1 1) [1] 2 0 1
        (mkRng (fun _ => 0) 0) <> (Raise e, g')) /\
  (exists p g',
      ModelNormalMC.price (mkModel 1 0 0 1 0 1 1) [1] 2 0 1
        (mkRng (fun _ => 0) 0) = (Ok p, g')) /\
  (forall e g',
      ModelNormalMC.price (mkModel 1 0 0 1 0 1 1) [1] 2 0 1
        (mkRng (fun _ => 0) 0) <> (Raise e, g')).
Proof.
  assert (Hc : np_ceil (0 / 1) = 0%Z) by (apply np_ceil_unique; simpl; lra).
  destruct (direct_price_ok (mkModel 1 0 0 1 0 1 1) [1] 2 0 1%Z
              (mkRng (fun _ => 0) 0))
    as [(pb & gb & Hb & _) (pn & gn & Hn & _)].
  { simpl. lra. }
  { simpl. rewrite Hc. lia. }
  split; [exists pb, gb; exact Hb |].
  split; [intros e g'; rewrite Hb; discriminate |].
  split; [exists pn, gn; exact Hn |].
  intros e g'; rewrite Hn; discriminate.
Qed.

(** ** Evaluations at concrete inputs *)

Lemma singleton_nth (l : list R) : length l = 1%nat -> l = [nth 0 l 0].
Proof.
  destruct l as [|x [|y l]]; simpl; intros H; try discriminate. reflexivity.
Qed.

Lemma exp_half_lt_1 : exp (-1/2) < 1.
Proof. rewrite <- exp_0. apply exp_increasing. lra. Qed.

(** C1.  The normal conditional pricer at [sigma = 2], [vov = 1],
    [rho = 1/2], one path, one step of length 1, a draw equal to 0 and
    [spot = 100].  The normalized terminal volatility is [exp(-1/2)], so the
    un-normalized values are [2 * exp(-1/2)] and [2].  The code shifts the
    spot by [rho/vov * (exp(-1/2) - 1)], computed from the normalized
    values, which is not [rho/vov * (2 * exp(-1/2) - 2)]; that equivalent
    spot is what [price] hands to the Bachelier kernel. *)
Theorem normal_cond_spot_equiv_normalized_shift :
  exists spot_eq vol g',
    normal_cond_equiv (mkModel 2 1 (1/2) 0 0 1 1) 100 1
      (mkRng (fun _ => 0) 0) = (Ok (spot_eq, vol), g') /\
    (forall pf strike cp,
        ModelNormalCondMC.price pf (mkModel 2 1 (1/2) 0 0 1 1) strike 100 1 cp
          (mkRng (fun _ => 0) 0)
        = (Ok (map mean
                 (pf_price pf (mk_pf Norm (Vector vol) 0) strike spot_eq 1 cp)),
           g')) /\
    spot_eq = [100 + 1/2 / 1 * (exp (-1/2) - 1)] /\
    100 + 1/2 / 1 * (exp (-1/2) - 1)
    <> 100 + 1/2 / 1 * (2 * exp (-1/2) - 2 * 1).
Proof.
  assert (Hc : np_ceil (1 / 1) = 1%Z) by (apply np_ceil_unique; lra).
  destruct (normal_cond_equiv_ok (mkModel 2 1 (1/2) 0 0 1 1) 100 1
              (mkRng (fun _ => 0) 0))
    as (a & I_t & spot_eq & vol & _ & _ & He & Hls & _ & Hentry & Hk);
    cbn [dt vov]; try lra.
  cbn [dt vov rho sigma n_path] in *. rewrite Hc in *.
  change (Z.to_nat 1) with 1%nat in *.
  exists spot_eq, vol. eexists. split; [exact He |].
  split; [| split].
  - intros pf strike cp.
    rewrite normal_cond_price_steps, (bind_ok _ _ _ _ _ He).
    unfold cond_prices. cbn [fst snd].
    rewrite (bind_ok _ _ _ _ _
               (base_model_beta0 (mkModel 2 1 (1/2) 0 0 1 1)
                  (Some (Vector vol)) _ eq_refl)).
    reflexivity.
  - rewrite (singleton_nth spot_eq Hls). f_equal.
    destruct (Hk 0%nat ltac:(lia)) as [_ Hs]. rewrite Hs.
    rewrite (Hentry 0%nat 0%nat) by lia.
    unfold vol_value. rewrite nth_tobs_grid by (simpl; lia).
    change (Z.of_nat 0 + 1)%Z with 1%Z.
    unfold sum_over, draw. cbn [seq map vsum fold_right tape].
    do 4 f_equal. lra.
  - pose proof exp_half_lt_1. lra.
Qed.

Lemma sqrt_tenth_twelfth : sqrt (1/10) <> sqrt (1/4 / 3).
Proof.
  intros H. apply sqrt_inj in H; lra.
Qed.

(** C2.  Maturity 1/4 with nominal step 1/10: [ceil(2.5) = 3] steps, so the
    effective step is [(1/4)/3].  With [sigma = 1], [vov = 0], [rho = 0],
    one path and all draws equal to 1, the normal pricer returns
    [3 * sqrt(1/10)] for the at-the-money call, and the log-normal pricer
    ends at [exp(log(100) + 3*sqrt(1/10) - 3 * (0.5 * (1/10)))]: the nominal
    step in the spot increments and in the Ito correction, not the
    effective one. *)
Theorem direct_mc_uses_nominal_step :
  np_ceil (1/4 / (1/10)) = 3%Z /\
  (exists g',
      ModelNormalMC.price (mkModel 1 0 0 0 0 (1/10) 1) [100] 100 (1/4) 1
        (mkRng (fun _ => 1) 0) = (Ok [3 * sqrt (1/10)], g')) /\
  3 * sqrt (1/10) <> 3 * sqrt (1/4 / 3) /\
  (exists g',
      bsm_terminal_spot (mkModel 1 0 0 1 0 (1/10) 1) 100 (1/4)
        (mkRng (fun _ => 1) 0)
      = (Ok [exp (ln 100 + (3 * sqrt (1/10) - 3 * (0.5 * (1/10))))], g')) /\
  3 * sqrt (1/10) - 3 * (0.5 * (1/10))
  <> 3 * sqrt (1/4 / 3) - 3 * (0.5 * (1/4 / 3)).
Proof.
  assert (Hc : np_ceil (1/4 / (1/10)) = 3%Z).
  { apply np_ceil_unique. replace (1/4 / (1/10)) with (5/2) by field. lra. }
  assert (Hsig : forall beta0 g1 tobs t,
             mc_sigma (mkModel 1 0 0 beta0 0 (1/10) 1) g1 tobs t 0 = 1).
  { intros beta0 g1 tobs [|t]; unfold mc_sigma, vol_value; cbn [sigma vov];
      [lra |]. rewrite Rmult_0_l, exp_0. lra. }
  assert (HW : forall beta0 g1 t,
             mc_W (mkModel 1 0 0 beta0 0 (1/10) 1) (mkRng (fun _ => 1) 0)
               g1 t 0 = 1).
  { intros beta0 g1 t. unfold mc_W, draw. cbn [rho tape].
    replace (1 - 0 ^ 2) with 1 by ring. rewrite sqrt_1. lra. }
  split; [exact Hc |].
  split; [| split; [| split]].
  - destruct (normal_terminal_spot_ok (mkModel 1 0 0 0 0 (1/10) 1) 100 (1/4)
                (mkRng (fun _ => 1) 0)) as (S_T & HS & HL & HE);
      cbn [dt]; [lra | rewrite Hc; lia |].
    cbn [dt n_path] in *. rewrite Hc in *.
    change (Z.to_nat 3) with 3%nat in *.
    eexists. rewrite (normal_price_of_terminal _ _ _ _ _ _ _ _ HS).
    f_equal.
    rewrite (singleton_nth S_T HL), (HE 0%nat) by lia.
    rewrite (sum_over_ext 3 _ (fun _ => sqrt (1/10)))
      by (intros t _; rewrite Hsig, HW; lra).
    unfold mc_prices, mean, sum_over. cbn [map seq vsum fold_right length intr].
    replace (- 0 * (1 / 4)) with 0 by lra. rewrite exp_0.
    replace (100 + (sqrt (1/10) + (sqrt (1/10) + (sqrt (1/10) + 0))) - 100)
      with (3 * sqrt (1/10)) by lra.
    pose proof (sqrt_pos (1/10)) as Hp.
    rewrite Rmax_left by (simpl; lra). simpl. do 2 f_equal. field.
  - pose proof sqrt_tenth_twelfth. lra.
  - destruct (bsm_terminal_spot_ok (mkModel 1 0 0 1 0 (1/10) 1) 100 (1/4)
                (mkRng (fun _ => 1) 0)) as (S_T & HS & HL & HE);
      cbn [dt]; [lra | rewrite Hc; lia |].
    cbn [dt n_path] in *. rewrite Hc in *.
    change (Z.to_nat 3) with 3%nat in *.
    eexists. rewrite HS. f_equal. f_equal.
    rewrite (singleton_nth S_T HL), (HE 0%nat) by lia.
    rewrite (sum_over_ext 3 _ (fun _ => sqrt (1/10) - 0.5 * (1/10)))
      by (intros t _; rewrite Hsig, HW; lra).
    unfold sum_over. cbn [map seq vsum fold_right].
    f_equal. f_equal. f_equal. lra.
  - pose proof (sqrt_pos (1/10)) as Ha.
    pose proof (sqrt_pos (1/4 / 3)) as Hb.
    pose proof (sqrt_sqrt (1/10) ltac:(lra)) as Haa.
    pose proof (sqrt_sqrt (1/4 / 3) ltac:(lra)) as Hbb.
    set (x := sqrt (1/10)) in *. set (y := sqrt (1/4 / 3)) in *.
    intros H. assert (Hx : x = y + 1/120) by lra.
    rewrite Hx in Haa. nra.
Qed.

(** * Further properties of the module *)

(** ** The path generator *)

(** X1.  On a positive maturity and time step every entry of the array
    returned by [sigma_path] is strictly positive: row 0 is 1 and every later
    row is an exponential. *)
Theorem sigma_path_entries_positive self texp g :
  0 < texp -> 0 < dt self ->
  exists a g',
    sigma_path self texp g = (Ok a, g') /\
    forall t k, (t < shape0 a)%nat -> (k < shape1 a)%nat -> 0 < entry a t k.
Proof.
  intros HT Hdt.
  destruct (sigma_path_ok self texp g HT Hdt)
    as (a & Ha & H0 & H1 & Hwf & Hrow & He).
  exists a. eexists. split; [exact Ha |].
  intros t k Ht Hk. destruct t as [|t].
  - unfold entry. rewrite Hrow. unfold ones.
    rewrite nth_repeat_lt by lia. lra.
  - rewrite He by lia. unfold vol_value. apply exp_pos.
Qed.

Lemma sigma_path_entries_positive_witness :
  exists a g',
    sigma_path (mkModel 1 1 0 1 0 1 2) 3 (mkRng (fun _ => 1) 0) = (Ok a, g') /\
    forall t k, (t < shape0 a)%nat -> (k < shape1 a)%nat -> 0 < entry a t k.
Proof.
  apply (sigma_path_entries_positive (mkModel 1 1 0 1 0 1 2) 3
           (mkRng (fun _ => 1) 0)); simpl; lra.
Defined.

(** X2.  With [vov = 0] the path is flat: every entry of the array returned
    by [sigma_path] is exactly 1, whatever the draws. *)
Theorem sigma_path_flat_without_vov self texp g :
  vov self = 0 -> 0 < texp -> 0 < dt self ->
  exists a g',
    sigma_path self texp g = (Ok a, g') /\
    forall t k, (t < shape0 a)%nat -> (k < shape1 a)%nat -> entry a t k = 1.
Proof.
  intros Hv HT Hdt.
  destruct (sigma_path_ok self texp g HT Hdt)
    as (a & Ha & H0 & H1 & Hwf & Hrow & He).
  exists a. eexists. split; [exact Ha |].
  intros t k Ht Hk. destruct t as [|t].
  - unfold entry. rewrite Hrow. unfold ones. now rewrite nth_repeat_lt by lia.
  - rewrite He by lia. unfold vol_value. rewrite Hv, Rmult_0_l. apply exp_0.
Qed.

Lemma sigma_path_flat_without_vov_witness :
  exists a g',
    sigma_path (mkModel 1 0 0 1 0 1 2) 3 (mkRng (fun _ => 1) 0) = (Ok a, g') /\
    forall t k, (t < shape0 a)%nat -> (k < shape1 a)%nat -> entry a t k = 1.
Proof.
  apply (sigma_path_flat_without_vov (mkModel 1 0 0 1 0 1 2) 3
           (mkRng (fun _ => 1) 0)); simpl; [reflexivity | lra | lra].
Defined.

(** ** The variance aggregator *)

Lemma sum_over_le n f h :
  (forall t, (t < n)%nat -> f t <= h t) -> sum_over n f <= sum_over n h.
Proof.
  induction n as [|n IH]; intros H; [unfold sum_over; simpl; lra |].
  rewrite !sum_over_S_right.
  assert (sum_over n f <= sum_over n h) by (apply IH; intros; apply H; lia).
  assert (f n <= h n) by (apply H; lia). lra.
Qed.

Lemma normalized_trap_weights n :
  (1 <= n)%nat ->
  sum_over (S n) (fun t => trap_weight n t / INR n) = 1 /\
  forall t, 0 <= trap_weight n t / INR n.
Proof.
  intros Hn.
  assert (HnR : 0 < INR n) by (apply lt_0_INR; lia).
  split.
  - unfold Rdiv. rewrite sum_over_scal, sum_trap_weight by exact Hn.
    field. lra.
  - intros t. apply Rmult_le_pos; [apply trap_weight_nonneg |].
    apply Rlt_le, Rinv_0_lt_compat, HnR.
Qed.

(** X3.  [intvar_normalized] is a weighted average of the squared path: if,
    on path [k], every squared entry lies between [lo] and [hi], so does the
    integrated variance of that path.  (At least two rows.) *)
Theorem intvar_normalized_between a n lo hi k g :
  (1 <= n)%nat -> shape0 a = S n -> wf a -> (k < shape1 a)%nat ->
  (forall t, (t <= n)%nat -> lo <= entry a t k ^ 2 <= hi) ->
  exists v,
    intvar_normalized a g = (Ok v, g) /\
    lo <= nth k v 0 <= hi.
Proof.
  intros Hn H0 Hwf Hk Hb.
  destruct (intvar_normalized_ok a n g Hn H0 Hwf) as (v & Hv & _ & He).
  destruct (normalized_trap_weights n Hn) as [Hsum Hpos].
  exists v. split; [exact Hv |]. rewrite He by exact Hk.
  split.
  - replace lo with (sum_over (S n) (fun t => trap_weight n t / INR n * lo))
      by (rewrite sum_over_scal, Hsum; lra).
    apply sum_over_le. intros t Ht.
    apply Rmult_le_compat_l; [apply Hpos | apply Hb; lia].
  - replace hi with (sum_over (S n) (fun t => trap_weight n t / INR n * hi))
      by (rewrite sum_over_scal, Hsum; lra).
    apply sum_over_le. intros t Ht.
    apply Rmult_le_compat_l; [apply Hpos | apply Hb; lia].
Qed.

Lemma intvar_normalized_between_witness :
  exists v,
    intvar_normalized (mkArr 1 [[1]; [2]; [1]]) (mkRng (fun _ => 0) 0)
    = (Ok v, mkRng (fun _ => 0) 0) /\
    1 <= nth 0 v 0 <= 4.
Proof.
  apply (intvar_normalized_between (mkArr 1 [[1]; [2]; [1]]) 2 1 4 0
           (mkRng (fun _ => 0) 0)).
  - lia.
  - reflexivity.
  - repeat constructor.
  - simpl. lia.
  - intros [|[|[|t]]] Ht; unfold entry; simpl; try lra; lia.
Defined.

(** X4.  The integrated variance of a constant path is the square of the
    constant: if every entry of path [k] is [c], entry [k] of
    [intvar_normalized] is [c^2].  In particular it is 1 on the flat path of
    a model without vol-of-vol. *)
Theorem intvar_normalized_constant a n c k g :
  (1 <= n)%nat -> shape0 a = S n -> wf a -> (k < shape1 a)%nat ->
  (forall t, (t <= n)%nat -> entry a t k = c) ->
  exists v,
    intvar_normalized a g = (Ok v, g) /\ nth k v 0 = c ^ 2.
Proof.
  intros Hn H0 Hwf Hk Hc.
  destruct (intvar_normalized_ok a n g Hn H0 Hwf) as (v & Hv & _ & He).
  destruct (normalized_trap_weights n Hn) as [Hsum _].
  exists v. split; [exact Hv |]. rewrite He by exact Hk.
  rewrite (sum_over_ext (S n) _ (fun t => trap_weight n t / INR n * c ^ 2))
    by (intros t Ht; rewrite Hc by lia; reflexivity).
  rewrite sum_over_scal, Hsum. lra.
Qed.

Lemma intvar_normalized_constant_witness :
  exists v,
    intvar_normalized (mkArr 1 [[3]; [3]; [3]]) (mkRng (fun _ => 0) 0)
    = (Ok v, mkRng (fun _ => 0) 0) /\
    nth 0 v 0 = 3 ^ 2.
Proof.
  apply (intvar_normalized_constant (mkArr 1 [[3]; [3]; [3]]) 2 3 0
           (mkRng (fun _ => 0) 0)).
  - lia.
  - reflexivity.
  - repeat constructor.
  - simpl. lia.
  - intros [|[|[|t]]] Ht; unfold entry; simpl; try reflexivity; lia.
Defined.

(** X5.  Scaling a path by [c] scales its integrated variance by [c^2]. *)
Theorem intvar_normalized_scaling a n c g :
  (1 <= n)%nat -> shape0 a = S n -> wf a ->
  exists v vc,
    intvar_normalized a g = (Ok v, g) /\
    intvar_normalized (amap (fun x => c * x) a) g = (Ok vc, g) /\
    length vc = length v /\
    forall k, (k < shape1 a)%nat -> nth k vc 0 = c ^ 2 * nth k v 0.
Proof.
  intros Hn H0 Hwf.
  destruct (intvar_normalized_ok a n g Hn H0 Hwf) as (v & Hv & Hl & He).
  destruct (intvar_normalized_ok (amap (fun x => c * x) a) n g Hn)
    as (vc & Hvc & Hlc & Hec);
    [now rewrite shape0_amap | apply wf_amap, Hwf |].
  exists v, vc. split; [exact Hv |]. split; [exact Hvc |].
  split; [simpl in Hlc; congruence |].
  intros k Hk. rewrite He, Hec by exact Hk.
  replace (c ^ 2 * sum_over (S n)
                     (fun t => trap_weight n t / INR n * entry a t k ^ 2))
    with (sum_over (S n)
            (fun t => trap_weight n t / INR n * entry a t k ^ 2) * c ^ 2)
    by lra.
  rewrite <- sum_over_scal. apply sum_over_ext. intros t Ht.
  rewrite entry_amap by (try assumption; lia). ring.
Qed.

Lemma intvar_normalized_scaling_witness :
  exists v vc,
    intvar_normalized (mkArr 1 [[1]; [2]]) (mkRng (fun _ => 0) 0)
    = (Ok v, mkRng (fun _ => 0) 0) /\
    intvar_normalized (amap (fun x => 3 * x) (mkArr 1 [[1]; [2]]))
      (mkRng (fun _ => 0) 0)
    = (Ok vc, mkRng (fun _ => 0) 0) /\
    length vc = length v /\
    forall k, (k < 1)%nat -> nth k vc 0 = 3 ^ 2 * nth k v 0.
Proof.
  apply (intvar_normalized_scaling (mkArr 1 [[1]; [2]]) 1 3
           (mkRng (fun _ => 0) 0)).
  - lia.
  - reflexivity.
  - repeat constructor.
Defined.

(** X6.  The edge shapes of [intvar_normalized].  On an array without rows
    the weight assignment [weight[[0, -1]] = 0.5] raises [IndexError]; on an
    array with a single row the one weight normalizes to 1 and the result is
    the squared row. *)
Theorem intvar_normalized_edge_shapes a g :
  wf a ->
  (shape0 a = 0%nat -> intvar_normalized a g = (Raise IndexError, g)) /\
  (shape0 a = 1%nat ->
   exists v,
     intvar_normalized a g = (Ok v, g) /\ length v = shape1 a /\
     forall k, (k < shape1 a)%nat -> nth k v 0 = entry a 0 k ^ 2).
Proof.
  intros Hwf. split.
  - intros H0. unfold intvar_normalized. rewrite H0. reflexivity.
  - intros H1. unfold intvar_normalized. rewrite H1.
    unfold setitem_first_last, bind, ret. cbn [ones repeat length list_set Nat.sub].
    eexists. split; [reflexivity |].
    set (b := amap (fun x => x ^ 2) a).
    set (wn := map (fun w => w / vsum [0.5]) [0.5]).
    assert (Hwfb : wf b) by apply wf_amap, Hwf.
    assert (Hsb : shape0 b = 1%nat) by (unfold b; now rewrite shape0_amap).
    assert (Hlw : length wn = shape0 b) by (rewrite Hsb; reflexivity).
    destruct (sum_axis0_spec (mul_col wn b) (wf_mul_col wn b Hwfb)) as [S1 S2].
    split; [exact S1 |].
    intros k Hk. rewrite S2 by exact Hk.
    rewrite shape0_mul_col, Hsb by exact Hlw.
    unfold sum_over. cbn [seq map vsum fold_right].
    rewrite entry_mul_col by (try assumption; try lia; exact Hk).
    unfold b. rewrite entry_amap by (try assumption; try lia; exact Hk).
    unfold wn. simpl. field. lra.
Qed.

Lemma intvar_normalized_edge_shapes_witness :
  (shape0 (mkArr 2 [[3; 4]]) = 0%nat ->
   intvar_normalized (mkArr 2 [[3; 4]]) (mkRng (fun _ => 0) 0)
   = (Raise IndexError, mkRng (fun _ => 0) 0)) /\
  (shape0 (mkArr 2 [[3; 4]]) = 1%nat ->
   exists v,
     intvar_normalized (mkArr 2 [[3; 4]]) (mkRng (fun _ => 0) 0)
     = (Ok v, mkRng (fun _ => 0) 0) /\
     length v = shape1 (mkArr 2 [[3; 4]]) /\
     forall k, (k < 2)%nat -> nth k v 0 = entry (mkArr 2 [[3; 4]]) 0 k ^ 2).
Proof.
  apply (intvar_normalized_edge_shapes (mkArr 2 [[3; 4]])
           (mkRng (fun _ => 0) 0)).
  repeat constructor.
Defined.

(** ** A zero time step *)

(** X8.  With a zero time step nothing is simulated: [sigma_path] and the
    four pricers raise [ZeroDivisionError] at [texp / self.dt], before any
    draw is taken from the generator. *)
Theorem zero_time_step pf self strike spot texp cp g :
  dt self = 0 ->
  sigma_path self texp g = (Raise ZeroDivisionError, g) /\
  forall c, price_of pf c self strike spot texp cp g
            = (Raise ZeroDivisionError, g).
Proof.
  intros Hdt.
  assert (Hdiv : py_div texp (dt self) g = (Raise ZeroDivisionError, g))
    by (rewrite Hdt; apply py_div_zero).
  assert (Hsp : sigma_path self texp g = (Raise ZeroDivisionError, g))
    by (unfold sigma_path; apply bind_raise, Hdiv).
  assert (Hmc : mc_paths self texp g = (Raise ZeroDivisionError, g))
    by (unfold mc_paths; apply bind_raise, Hdiv).
  split; [exact Hsp |].
  intros [| | |]; simpl price_of.
  - rewrite bsm_price_steps. unfold bsm_terminal_spot.
    apply bind_raise, bind_raise, Hmc.
  - rewrite normal_price_steps. unfold normal_terminal_spot.
    apply bind_raise, bind_raise, Hmc.
  - apply (cond_price_of_path_error pf self strike spot texp cp g _ _ Hsp).
  - apply (cond_price_of_path_error pf self strike spot texp cp g _ _ Hsp).
Qed.

Lemma zero_time_step_witness :
  sigma_path (mkModel 1 1 0 1 0 0 5) 1 (mkRng (fun _ => 0) 0)
  = (Raise ZeroDivisionError, mkRng (fun _ => 0) 0) /\
  forall c,
    price_of (mk_pyfeng (fun _ _ _ _ _ _ _ => 0) (fun _ _ _ _ _ _ _ => 0)) c
      (mkModel 1 1 0 1 0 0 5) [1] 1 1 1%Z (mkRng (fun _ => 0) 0)
    = (Raise ZeroDivisionError, mkRng (fun _ => 0) 0).
Proof.
  apply (zero_time_step
           (mk_pyfeng (fun _ _ _ _ _ _ _ => 0) (fun _ _ _ _ _ _ _ => 0))
           (mkModel 1 1 0 1 0 0 5) [1] 1 1 1%Z (mkRng (fun _ => 0) 0)).
  reflexivity.
Defined.

(** ** The direct pricers, in closed form *)

Lemma list_eq_map_seq (l : list R) N (f : nat -> R) :
  length l = N -> (forall i, (i < N)%nat -> nth i l 0 = f i) ->
  l = map f (seq 0 N).
Proof.
  intros HL HE. apply (nth_ext _ _ 0 0).
  - now rewrite length_map, length_seq.
  - intros i Hi. rewrite (nth_map_lt f (seq 0 N) i 0%nat 0)
      by (rewrite length_seq; lia).
    rewrite seq_nth by lia. apply HE. lia.
Qed.

Lemma normal_price_closed self strike spot texp cp g :
  0 < texp -> 0 < dt self ->
  let n_dt := np_ceil (texp / dt self) in
  let n := Z.to_nat n_dt in
  let N := n_path self in
  let g1 := advance g (n * N) in
  let tobs := tobs_grid n_dt texp in
  ModelNormalMC.price self strike spot texp cp g
  = (Ok (mc_prices self strike texp cp
           (map (fun k =>
                   spot
                   + sum_over n (fun t =>
                       mc_sigma self g1 tobs t k * mc_W self g g1 t k
                       * sqrt (dt self)))
                (seq 0 N))),
     advance g1 (n * N)).
Proof.
  intros HT Hdt n_dt n N g1 tobs.
  assert (Hn : (0 <= np_ceil (texp / dt self))%Z).
  { pose proof (np_ceil_pos _ (div_pos _ _ HT Hdt)). lia. }
  destruct (normal_terminal_spot_ok self spot texp g ltac:(lra) Hn)
    as (S_T & HS & HL & HE).
  fold n_dt n N g1 tobs in HS, HL, HE.
  rewrite (normal_price_of_terminal _ _ _ _ _ _ _ _ HS).
  now rewrite (list_eq_map_seq S_T N _ HL HE).
Qed.

Lemma bsm_price_closed self strike spot texp cp g :
  0 < texp -> 0 < dt self -> 0 < spot ->
  let n_dt := np_ceil (texp / dt self) in
  let n := Z.to_nat n_dt in
  let N := n_path self in
  let g1 := advance g (n * N) in
  let tobs := tobs_grid n_dt texp in
  ModelBsmMC.price self strike spot texp cp g
  = (Ok (mc_prices self strike texp cp
           (map (fun i =>
                   spot
                   * exp (sum_over n (fun t =>
                            mc_sigma self g1 tobs t i * mc_W self g g1 t i
                            * sqrt (dt self)
                            - 0.5 * mc_sigma self g1 tobs t i ^ 2 * dt self)))
                (seq 0 N))),
     advance g1 (n * N)).
Proof.
  intros HT Hdt Hspot n_dt n N g1 tobs.
  assert (Hn : (0 <= np_ceil (texp / dt self))%Z).
  { pose proof (np_ceil_pos _ (div_pos _ _ HT Hdt)). lia. }
  destruct (bsm_terminal_spot_ok self spot texp g ltac:(lra) Hn)
    as (S & HS & HL & HE).
  fold n_dt n N g1 tobs in HS, HL, HE.
  rewrite (bsm_price_of_terminal _ _ _ _ _ _ _ _ HS).
  do 3 f_equal. apply list_eq_map_seq; [exact HL |].
  intros i Hi. rewrite HE by exact Hi.
  rewrite exp_plus, exp_ln by exact Hspot. reflexivity.
Qed.

(** X9.  [ModelNormalMC.price] in closed form.  On a positive maturity and
    time step no array access of the two nested loops is out of range, the
    call consumes two arrays of draws ([W] first, then [Z]), and path [k]
    ends at [spot + sum_t sigma_t[t,k] * W[t,k] * sqrt(dt)], where
    [sigma_t[0,k] = sigma], [sigma_t[t+1,k]] is [sigma] times the log-normal
    volatility built from [Z] and [W[t,k] = rho*Z[t,k] + sqrt(1-rho^2)*W0[t,k]];
    the prices are the discounted mean payoffs of those terminal spots. *)
Theorem normal_price_closed_form self strike spot texp cp g :
  0 < texp -> 0 < dt self ->
  let n_dt := np_ceil (texp / dt self) in
  let n := Z.to_nat n_dt in
  let N := n_path self in
  let g1 := advance g (n * N) in
  let tobs := tobs_grid n_dt texp in
  ModelNormalMC.price self strike spot texp cp g
  = (Ok (mc_prices self strike texp cp
           (map (fun k =>
                   spot
                   + sum_over n (fun t =>
                       mc_sigma self g1 tobs t k * mc_W self g g1 t k
                       * sqrt (dt self)))
                (seq 0 N))),
     advance g1 (n * N)).
Proof. exact (normal_price_closed self strike spot texp cp g). Qed.

Lemma normal_price_closed_form_witness :
  exists p g',
    ModelNormalMC.price (mkModel 2 1 (1/2) 0 0 1 2) [1; 3] 2 1 1
      (mkRng (fun _ => 1) 0) = (Ok p, g') /\
    cursor g' = 4%nat.
Proof.
  assert (Hc : np_ceil (1 / 1) = 1%Z) by (apply np_ceil_unique; lra).
  eexists; eexists. split.
  - apply (normal_price_closed_form (mkModel 2 1 (1/2) 0 0 1 2) [1; 3] 2 1 1%Z
             (mkRng (fun _ => 1) 0)); simpl; lra.
  - simpl. rewrite Hc. reflexivity.
Defined.

(** X10.  [ModelBsmMC.price] in closed form, for a positive spot.  No array
    access of the loops is out of range, and path [i] ends at
    [spot * exp(sum_t (sigma_t[t,i] * W[t,i] * sqrt(dt)
                       - 0.5 * sigma_t[t,i]^2 * dt))];
    so every terminal spot of the log-Euler scheme is strictly positive. *)
Theorem bsm_price_closed_form self strike spot texp cp g :
  0 < texp -> 0 < dt self -> 0 < spot ->
  let n_dt := np_ceil (texp / dt self) in
  let n := Z.to_nat n_dt in
  let N := n_path self in
  let g1 := advance g (n * N) in
  let tobs := tobs_grid n_dt texp in
  let S_T :=
    map (fun i =>
           spot
           * exp (sum_over n (fun t =>
                    mc_sigma self g1 tobs t i * mc_W self g g1 t i
                    * sqrt (dt self)
                    - 0.5 * mc_sigma self g1 tobs t i ^ 2 * dt self)))
        (seq 0 N) in
  ModelBsmMC.price self strike spot texp cp g
  = (Ok (mc_prices self strike texp cp S_T), advance g1 (n * N)) /\
  Forall (fun s => 0 < s) S_T.
Proof.
  intros HT Hdt Hspot n_dt n N g1 tobs S_T. split.
  - exact (bsm_price_closed self strike spot texp cp g HT Hdt Hspot).
  - unfold S_T. apply Forall_map, Forall_forall. intros i _.
    apply Rmult_lt_0_compat; [exact Hspot | apply exp_pos].
Qed.

Lemma bsm_price_closed_form_witness :
  exists p g',
    ModelBsmMC.price (mkModel 2 1 (1/2) 1 0 1 2) [1; 3] 2 1 1
      (mkRng (fun _ => 1) 0) = (Ok p, g') /\
    cursor g' = 4%nat.
Proof.
  assert (Hc : np_ceil (1 / 1) = 1%Z) by (apply np_ceil_unique; lra).
  eexists; eexists. split.
  - apply (bsm_price_closed_form (mkModel 2 1 (1/2) 1 0 1 2) [1; 3] 2 1 1%Z
             (mkRng (fun _ => 1) 0)); simpl; lra.
  - simpl. rewrite Hc. reflexivity.
Defined.

(** ** How the direct prices move with the strikes and the spot *)

Lemma vsum_map_le {A} (f h : A -> R) l :
  (forall x, In x l -> f x <= h x) -> vsum (map f l) <= vsum (map h l).
Proof.
  induction l as [|x l IH]; intros H; simpl; [lra |].
  assert (f x <= h x) by (apply H; now left).
  assert (vsum (map f l) <= vsum (map h l)) by (apply IH; intros; apply H; now right).
  unfold vsum in *. lra.
Qed.

Lemma mean_map_le {A} (f h : A -> R) l :
  (forall x, In x l -> f x <= h x) -> mean (map f l) <= mean (map h l).
Proof.
  intros H. unfold mean. rewrite !length_map.
  destruct l as [|x l]; [simpl; lra |].
  apply Rmult_le_compat_r; [| apply vsum_map_le, H].
  apply Rlt_le, Rinv_0_lt_compat, lt_0_INR. simpl. lia.
Qed.

Lemma vsum_map_plus_const {A} (f : A -> R) c l :
  vsum (map (fun x => f x + c) l) = vsum (map f l) + INR (length l) * c.
Proof.
  induction l as [|x l IH]; [simpl; lra |].
  cbn [map vsum fold_right length]. rewrite S_INR.
  change (fold_right Rplus 0) with vsum. rewrite IH. lra.
Qed.

Lemma mean_map_plus_const {A} (f : A -> R) c l :
  (0 < length l)%nat -> mean (map (fun x => f x + c) l) = mean (map f l) + c.
Proof.
  intros Hl. unfold mean. rewrite !length_map, vsum_map_plus_const.
  field. apply not_0_INR. lia.
Qed.

Lemma vsum_map_scal {A} (f : A -> R) c l :
  vsum (map (fun x => c * f x) l) = c * vsum (map f l).
Proof.
  induction l as [|x l IH]; [simpl; lra |].
  cbn [map vsum fold_right]. change (fold_right Rplus 0) with vsum.
  rewrite IH. lra.
Qed.

Lemma mean_map_scal {A} (f : A -> R) c l :
  mean (map (fun x => c * f x) l) = c * mean (map f l).
Proof.
  unfold mean. rewrite !length_map, vsum_map_scal. unfold Rdiv. ring.
Qed.

(** The prices of step (3) on a fixed ensemble: ordered like the strikes
    for calls, the other way for puts, and never moving faster than the
    discounted strike. *)
Lemma mc_prices_strike_order self strike texp S_T i j :
  (0 < length S_T)%nat -> (i < length strike)%nat -> (j < length strike)%nat ->
  nth i strike 0 <= nth j strike 0 ->
  let df := exp (- intr self * texp) in
  let pc := mc_prices self strike texp 1 S_T in
  let pp := mc_prices self strike texp (-1) S_T in
  nth j pc 0 <= nth i pc 0 <= nth j pc 0 + df * (nth j strike 0 - nth i strike 0) /\
  nth i pp 0 <= nth j pp 0 <= nth i pp 0 + df * (nth j strike 0 - nth i strike 0).
Proof.
  intros HL Hi Hj Hk df pc pp. unfold pc, pp.
  rewrite !nth_mc_prices by assumption. fold df.
  set (ki := nth i strike 0) in *. set (kj := nth j strike 0) in *.
  assert (Hdf : 0 < df) by apply exp_pos.
  assert (Hmax : forall a b, a <= b -> Rmax a 0 <= Rmax b 0 <= Rmax a 0 + (b - a)).
  { intros a b Hab. unfold Rmax.
    destruct (Rle_dec a 0), (Rle_dec b 0); lra. }
  assert (Hc1 : mean (map (fun s => Rmax (IZR 1 * (s - kj)) 0) S_T)
                <= mean (map (fun s => Rmax (IZR 1 * (s - ki)) 0) S_T)).
  { apply mean_map_le. intros s _. apply Hmax. lra. }
  assert (Hc2 : mean (map (fun s => Rmax (IZR 1 * (s - ki)) 0) S_T)
                <= mean (map (fun s => Rmax (IZR 1 * (s - kj)) 0) S_T)
                   + (kj - ki)).
  { rewrite <- mean_map_plus_const by exact HL.
    apply mean_map_le. intros s _.
    destruct (Hmax (IZR 1 * (s - kj)) (IZR 1 * (s - ki)) ltac:(lra)). lra. }
  assert (Hp1 : mean (map (fun s => Rmax (IZR (-1) * (s - ki)) 0) S_T)
                <= mean (map (fun s => Rmax (IZR (-1) * (s - kj)) 0) S_T)).
  { apply mean_map_le. intros s _. apply Hmax. lra. }
  assert (Hp2 : mean (map (fun s => Rmax (IZR (-1) * (s - kj)) 0) S_T)
                <= mean (map (fun s => Rmax (IZR (-1) * (s - ki)) 0) S_T)
                   + (kj - ki)).
  { rewrite <- mean_map_plus_const by exact HL.
    apply mean_map_le. intros s _.
    destruct (Hmax (IZR (-1) * (s - ki)) (IZR (-1) * (s - kj)) ltac:(lra)). lra. }
  split; split; nra.
Qed.

(** X11.  Within one call of a direct pricer (positive maturity and time
    step, at least one path) the prices are ordered by the strikes: for
    [strike[i] <= strike[j]] the call price at [j] is at most the call price
    at [i] and exceeds it by no more than
    [exp(-intr*texp) * (strike[j] - strike[i])] from below; the put prices
    are ordered the other way under the same bound.  Calls and puts are
    taken on the same generator state. *)
Theorem direct_prices_ordered_by_strike self strike spot texp g i j :
  0 < texp -> 0 < dt self -> (0 < n_path self)%nat ->
  (i < length strike)%nat -> (j < length strike)%nat ->
  nth i strike 0 <= nth j strike 0 ->
  let df := exp (- intr self * texp) in
  (exists pc pp g',
      ModelBsmMC.price self strike spot texp 1 g = (Ok pc, g') /\
      ModelBsmMC.price self strike spot texp (-1) g = (Ok pp, g') /\
      nth j pc 0 <= nth i pc 0
      <= nth j pc 0 + df * (nth j strike 0 - nth i strike 0) /\
      nth i pp 0 <= nth j pp 0
      <= nth i pp 0 + df * (nth j strike 0 - nth i strike 0)) /\
  (exists pc pp g',
      ModelNormalMC.price self strike spot texp 1 g = (Ok pc, g') /\
      ModelNormalMC.price self strike spot texp (-1) g = (Ok pp, g') /\
      nth j pc 0 <= nth i pc 0
      <= nth j pc 0 + df * (nth j strike 0 - nth i strike 0) /\
      nth i pp 0 <= nth j pp 0
      <= nth i pp 0 + df * (nth j strike 0 - nth i strike 0)).
Proof.
  intros HT Hdt HN Hi Hj Hk df.
  assert (Hdt0 : dt self <> 0) by lra.
  assert (Hn : (0 <= np_ceil (texp / dt self))%Z).
  { pose proof (np_ceil_pos _ (div_pos _ _ HT Hdt)). lia. }
  split.
  - destruct (bsm_terminal_spot_ok self spot texp g Hdt0 Hn)
      as (S_T & HS & HL & _).
    do 3 eexists.
    split; [apply bsm_price_of_terminal, HS |].
    split; [apply bsm_price_of_terminal, HS |].
    apply mc_prices_strike_order; try assumption. lia.
  - destruct (normal_terminal_spot_ok self spot texp g Hdt0 Hn)
      as (S_T & HS & HL & _).
    do 3 eexists.
    split; [apply normal_price_of_terminal, HS |].
    split; [apply normal_price_of_terminal, HS |].
    apply mc_prices_strike_order; try assumption. lia.
Qed.

Lemma direct_prices_ordered_by_strike_witness :
  exists pc pp g',
    ModelNormalMC.price (mkModel 1 1 0 0 0 1 2) [90; 110] 100 1 1
      (mkRng (fun _ => 1) 0) = (Ok pc, g') /\
    ModelNormalMC.price (mkModel 1 1 0 0 0 1 2) [90; 110] 100 1 (-1)
      (mkRng (fun _ => 1) 0) = (Ok pp, g') /\
    nth 1 pc 0 <= nth 0 pc 0 /\ nth 0 pp 0 <= nth 1 pp 0.
Proof.
  destruct (direct_prices_ordered_by_strike (mkModel 1 1 0 0 0 1 2) [90; 110]
              100 1 (mkRng (fun _ => 1) 0) 0 1) as [_ (pc & pp & g' & H)];
    simpl; try lra; try lia.
  exists pc, pp, g'. simpl in H. intuition.
Defined.

(** X12.  The normal direct pricer is invariant under translation: moving
    the spot and every strike by the same amount [c] leaves the prices (and
    the generator state) unchanged. *)
Theorem normal_price_translation_invariant self strike spot texp cp g c :
  0 < texp -> 0 < dt self ->
  ModelNormalMC.price self (map (fun k => k + c) strike) (spot + c) texp cp g
  = ModelNormalMC.price self strike spot texp cp g.
Proof.
  intros HT Hdt.
  rewrite !normal_price_closed by assumption.
  do 2 f_equal. unfold mc_prices. rewrite map_map.
  apply map_ext. intros k. f_equal. unfold mean. rewrite !length_map.
  f_equal. f_equal. rewrite !map_map.
  apply map_ext. intros i. f_equal. ring.
Qed.

Lemma normal_price_translation_invariant_witness :
  ModelNormalMC.price (mkModel 1 1 0 0 0 1 2)
    (map (fun k => k + 5) [90; 110]) (100 + 5) 1 1 (mkRng (fun _ => 1) 0)
  = ModelNormalMC.price (mkModel 1 1 0 0 0 1 2) [90; 110] 100 1 1
      (mkRng (fun _ => 1) 0).
Proof.
  apply (normal_price_translation_invariant (mkModel 1 1 0 0 0 1 2) [90; 110]
           100 1 1%Z (mkRng (fun _ => 1) 0) 5); simpl; lra.
Defined.

Lemma Rmax_scal_0 c a : 0 <= c -> Rmax (c * a) 0 = c * Rmax a 0.
Proof.
  intros Hc. unfold Rmax.
  destruct (Rle_dec (c * a) 0), (Rle_dec a 0); nra.
Qed.

Lemma mc_prices_scal {A} self strike texp cp (f : A -> R) (l : list A) c :
  0 <= c ->
  mc_prices self (map (fun k => c * k) strike) texp cp
    (map (fun i => c * f i) l)
  = map (fun x => c * x) (mc_prices self strike texp cp (map f l)).
Proof.
  intros Hc. unfold mc_prices. rewrite !map_map.
  apply map_ext. intros k. rewrite !map_map.
  rewrite (map_ext (fun i => Rmax (IZR cp * (c * f i - c * k)) 0)
                   (fun i => c * Rmax (IZR cp * (f i - k)) 0)).
  - rewrite mean_map_scal. ring.
  - intros i. rewrite <- Rmax_scal_0 by exact Hc. f_equal. ring.
Qed.

(** X13.  The log-normal direct pricer is homogeneous of degree one: for a
    positive spot and a factor [c > 0], multiplying the spot and every
    strike by [c] multiplies every price by [c], on the same draws. *)
Theorem bsm_price_homogeneous self strike spot texp cp g c :
  0 < texp -> 0 < dt self -> 0 < spot -> 0 < c ->
  exists p g',
    ModelBsmMC.price self strike spot texp cp g = (Ok p, g') /\
    ModelBsmMC.price self (map (fun k => c * k) strike) (c * spot) texp cp g
    = (Ok (map (fun x => c * x) p), g').
Proof.
  intros HT Hdt Hspot Hc.
  assert (Hcs : 0 < c * spot) by (apply Rmult_lt_0_compat; assumption).
  do 2 eexists. split; [apply bsm_price_closed; assumption |].
  rewrite bsm_price_closed by assumption.
  do 2 f_equal. rewrite <- mc_prices_scal by lra.
  f_equal. apply map_ext. intros i. ring.
Qed.

Lemma bsm_price_homogeneous_witness :
  exists p g',
    ModelBsmMC.price (mkModel 1 1 0 1 0 1 2) [90; 110] 100 1 1
      (mkRng (fun _ => 1) 0) = (Ok p, g') /\
    ModelBsmMC.price (mkModel 1 1 0 1 0 1 2)
      (map (fun k => 2 * k) [90; 110]) (2 * 100) 1 1 (mkRng (fun _ => 1) 0)
    = (Ok (map (fun x => 2 * x) p), g').
Proof.
  apply (bsm_price_homogeneous (mkModel 1 1 0 1 0 1 2) [90; 110] 100 1 1%Z
           (mkRng (fun _ => 1) 0) 2); simpl; lra.
Defined.

(** ** The conditional pricers, further *)

(** Step (3) never touches the generator. *)
Lemma cond_prices_state pf self strike texp cp sv g :
  exists r, cond_prices pf self strike texp cp sv g = (r, g).
Proof.
  unfold cond_prices, base_model, bind, ret, raise.
  destruct (Req_dec_T (beta self) 0); [eexists; reflexivity |].
  destruct (Req_dec_T (beta self) 1); eexists; reflexivity.
Qed.

Lemma cond_prices_ok pf self strike texp cp spot_eq vol g :
  beta self = 0 \/ beta self = 1 ->
  exists m,
    base_model self (Some (Vector vol)) g = (Ok m, g) /\
    pf_sigma m = Vector vol /\ pf_intr m = intr self /\
    (beta self = 0 -> pf_kind_of m = Norm) /\
    (beta self = 1 -> pf_kind_of m = Bsm) /\
    cond_prices pf self strike texp cp (spot_eq, vol) g
    = (Ok (map mean (pf_price pf m strike spot_eq texp cp)), g).
Proof.
  intros [Hb | Hb].
  - eexists. split; [apply base_model_beta0, Hb |].
    repeat split; try (intros; lra).
    unfold cond_prices. cbn [fst snd].
    rewrite (bind_ok _ _ _ _ _ (base_model_beta0 self _ g Hb)). reflexivity.
  - eexists. split; [apply base_model_beta1, Hb |].
    repeat split; try (intros; lra).
    unfold cond_prices. cbn [fst snd].
    rewrite (bind_ok _ _ _ _ _ (base_model_beta1 self _ g Hb)). reflexivity.
Qed.

(** X14.  [ModelNormalCondMC.price] in full, on a valid call ([vov <> 0],
    positive maturity and time step, [beta] 0 or 1).  With [a] the
    normalized path and [I_t] its integrated variance, path [k] gets the
    volatility [sigma * sqrt((1 - rho^2) * I_t[k])] and the equivalent spot
    [spot + rho/vov * (a[-1,k] - 1)], and the price of strike [j] is the
    average over the paths of the base kernel.  The kernel is chosen by the
    instance's [beta], not by the class: Bachelier for [beta = 0], but
    Black-Scholes for [beta = 1], the constructor's default. *)
Theorem normal_cond_price_formula pf self strike spot texp cp g :
  vov self <> 0 -> 0 < texp -> 0 < dt self ->
  beta self = 0 \/ beta self = 1 ->
  let n := Z.to_nat (np_ceil (texp / dt self)) in
  let N := n_path self in
  let g1 := advance g (n * N) in
  exists a I_t spot_eq vol m p,
    sigma_path self texp g = (Ok a, g1) /\
    intvar_normalized a g1 = (Ok I_t, g1) /\
    normal_cond_equiv self spot texp g = (Ok (spot_eq, vol), g1) /\
    base_model self (Some (Vector vol)) g1 = (Ok m, g1) /\
    (beta self = 0 -> pf_kind_of m = Norm) /\
    (beta self = 1 -> pf_kind_of m = Bsm) /\
    ModelNormalCondMC.price pf self strike spot texp cp g = (Ok p, g1) /\
    length spot_eq = N /\ length vol = N /\ length p = length strike /\
    (forall k, (k < N)%nat ->
       nth k vol 0 = sigma self * sqrt ((1 - rho self ^ 2) * nth k I_t 0) /\
       nth k spot_eq 0 = spot + rho self / vov self * (entry a n k - 1)) /\
    (forall j, (j < length strike)%nat ->
       nth j p 0
       = mean (map (fun k => kernel_price pf (pf_kind_of m) (nth k vol 0)
                               (intr self) (nth j strike 0) (nth k spot_eq 0)
                               texp cp)
                   (seq 0 N))).
Proof.
  intros Hv HT Hdt Hb n N g1.
  destruct (normal_cond_equiv_ok self spot texp g HT Hdt Hv)
    as (a & I_t & spot_eq & vol & Ha & HI & He & Hls & Hlv & _ & Hk).
  fold n N g1 in Ha, HI, He, Hls, Hlv, Hk.
  destruct (cond_prices_ok pf self strike texp cp spot_eq vol g1 Hb)
    as (m & Hm & Hms & Hmi & Hk0 & Hk1 & Hp).
  exists a, I_t, spot_eq, vol, m,
    (map mean (pf_price pf m strike spot_eq texp cp)).
  split; [exact Ha |]. split; [exact HI |]. split; [exact He |].
  split; [exact Hm |]. split; [exact Hk0 |]. split; [exact Hk1 |].
  split; [rewrite normal_cond_price_steps, (bind_ok _ _ _ _ _ He); exact Hp |].
  split; [exact Hls |]. split; [exact Hlv |].
  split; [unfold pf_price; now rewrite !length_map |].
  split; [exact Hk |].
  intros j Hj.
  destruct (cond_step3 pf m strike spot_eq vol texp cp j Hms
              ltac:(congruence) Hj) as [_ Hpj].
  rewrite Hpj, Hmi, Hls. reflexivity.
Qed.

Lemma normal_cond_price_formula_witness :
  exists p g',
    ModelNormalCondMC.price
      (mk_pyfeng (fun _ _ _ _ _ _ _ => 0) (fun _ _ _ _ _ _ _ => 0))
      (mkModel 2 1 (1/2) 0 0 1 3) [90; 110] 100 1 1 (mkRng (fun _ => 1) 0)
    = (Ok p, g') /\
    length p = 2%nat.
Proof.
  destruct (normal_cond_price_formula
              (mk_pyfeng (fun _ _ _ _ _ _ _ => 0) (fun _ _ _ _ _ _ _ => 0))
              (mkModel 2 1 (1/2) 0 0 1 3) [90; 110] 100 1 1%Z
              (mkRng (fun _ => 1) 0))
    as (a & I_t & spot_eq & vol & m & p & H);
    simpl; try lra.
  exists p. eexists. split; [apply H | apply H].
Defined.

(** X15.  Without correlation ([rho = 0], [vov <> 0]) the two conditional
    pricers coincide: both leave the spot unchanged on every path, both use
    the volatility [sigma * sqrt(I_t[k])], and they return the same prices
    for the same instance and draws. *)
Theorem cond_pricers_without_correlation pf self strike spot texp cp g :
  rho self = 0 -> vov self <> 0 -> 0 < texp -> 0 < dt self ->
  let N := n_path self in
  exists a I_t g1,
    sigma_path self texp g = (Ok a, g1) /\
    intvar_normalized a g1 = (Ok I_t, g1) /\
    bsm_cond_equiv self spot texp g
    = (Ok (map (fun _ => spot) (seq 0 N),
           map (fun k => sigma self * sqrt (nth k I_t 0)) (seq 0 N)), g1) /\
    normal_cond_equiv self spot texp g
    = (Ok (map (fun _ => spot) (seq 0 N),
           map (fun k => sigma self * sqrt (nth k I_t 0)) (seq 0 N)), g1) /\
    ModelBsmCondMC.price pf self strike spot texp cp g
    = ModelNormalCondMC.price pf self strike spot texp cp g.
Proof.
  intros Hr Hv HT Hdt N.
  destruct (bsm_cond_equiv_ok self spot texp g HT Hdt Hv)
    as (a & I_t & sb & vb & Ha & HI & Heb & Hlsb & Hlvb & Hkb).
  destruct (normal_cond_equiv_ok self spot texp g HT Hdt Hv)
    as (a' & I_t' & sn & vn & Ha' & HI' & Hen & Hlsn & Hlvn & _ & Hkn).
  rewrite Ha in Ha'. injection Ha' as <-.
  rewrite HI in HI'. injection HI' as <-.
  fold N in Hlsb, Hlvb, Hkb, Hlsn, Hlvn, Hkn.
  assert (Hvol : forall x, sigma self * sqrt ((1 - rho self ^ 2) * x)
                           = sigma self * sqrt x).
  { intros x. rewrite Hr. do 2 f_equal. ring. }
  assert (Esb : sb = map (fun _ => spot) (seq 0 N)).
  { apply list_eq_map_seq; [exact Hlsb |]. intros k Hk.
    destruct (Hkb k Hk) as [_ H]. rewrite H, Hr.
    replace (0 / vov self * (sigma self * entry a _ k - sigma self)
             - 0 ^ 2 * sigma self ^ 2 * texp / 2 * nth k I_t 0) with 0
      by (field; exact Hv).
    rewrite exp_0. ring. }
  assert (Esn : sn = map (fun _ => spot) (seq 0 N)).
  { apply list_eq_map_seq; [exact Hlsn |]. intros k Hk.
    destruct (Hkn k Hk) as [_ H]. rewrite H, Hr. field. exact Hv. }
  assert (Evb : vb = map (fun k => sigma self * sqrt (nth k I_t 0)) (seq 0 N)).
  { apply list_eq_map_seq; [exact Hlvb |]. intros k Hk.
    destruct (Hkb k Hk) as [H _]. now rewrite H, Hvol. }
  assert (Evn : vn = map (fun k => sigma self * sqrt (nth k I_t 0)) (seq 0 N)).
  { apply list_eq_map_seq; [exact Hlvn |]. intros k Hk.
    destruct (Hkn k Hk) as [H _]. now rewrite H, Hvol. }
  subst sb sn vb vn.
  exists a, I_t. eexists.
  split; [exact Ha |]. split; [exact HI |].
  split; [exact Heb |]. split; [exact Hen |].
  rewrite bsm_cond_price_steps, normal_cond_price_steps.
  rewrite (bind_ok _ _ _ _ _ Heb), (bind_ok _ _ _ _ _ Hen). reflexivity.
Qed.

Lemma cond_pricers_without_correlation_witness :
  ModelBsmCondMC.price
    (mk_pyfeng (fun _ _ _ _ _ _ _ => 0) (fun _ _ _ _ _ _ _ => 0))
    (mkModel 2 1 0 1 0 1 3) [90; 110] 100 1 1 (mkRng (fun _ => 1) 0)
  = ModelNormalCondMC.price
      (mk_pyfeng (fun _ _ _ _ _ _ _ => 0) (fun _ _ _ _ _ _ _ => 0))
      (mkModel 2 1 0 1 0 1 3) [90; 110] 100 1 1 (mkRng (fun _ => 1) 0).
Proof.
  destruct (cond_pricers_without_correlation
              (mk_pyfeng (fun _ _ _ _ _ _ _ => 0) (fun _ _ _ _ _ _ _ => 0))
              (mkModel 2 1 0 1 0 1 3) [90; 110] 100 1 1%Z
              (mkRng (fun _ => 1) 0))
    as (a & I_t & g1 & H); simpl; try lra.
  apply H.
Defined.

(** ** What a call takes from the generator *)

Lemma advance_twice g a :
  advance (advance g a) a = mkRng (tape g) (cursor g + 2 * a).
Proof. unfold advance. simpl. f_equal. lia. Qed.

Lemma cond_price_state pf self strike spot texp cp g :
  0 < texp -> 0 < dt self ->
  let g1 := advance g (Z.to_nat (np_ceil (texp / dt self)) * n_path self) in
  (exists r, ModelBsmCondMC.price pf self strike spot texp cp g = (r, g1)) /\
  (exists r, ModelNormalCondMC.price pf self strike spot texp cp g = (r, g1)).
Proof.
  intros HT Hdt g1.
  destruct (cond_paths_ok self texp g HT Hdt)
    as (a & I_t & Ha & _ & _ & _ & _ & HrT & Hr0 & _ & HI & _).
  fold g1 in Ha, HrT, Hr0, HI.
  destruct (Req_dec_T (vov self) 0) as [Hv | Hv].
  - split; eexists.
    + rewrite bsm_cond_price_steps. apply bind_raise.
      unfold bsm_cond_equiv.
      rewrite (bind_ok _ _ _ _ _ Ha), (bind_ok _ _ _ _ _ HrT),
        (bind_ok _ _ _ _ _ HI).
      apply bind_raise. rewrite Hv. apply py_div_zero.
    + rewrite normal_cond_price_steps. apply bind_raise.
      unfold normal_cond_equiv.
      rewrite (bind_ok _ _ _ _ _ Ha), (bind_ok _ _ _ _ _ HrT),
        (bind_ok _ _ _ _ _ Hr0), (bind_ok _ _ _ _ _ HI).
      apply bind_raise. rewrite Hv. apply py_div_zero.
  - destruct (bsm_cond_equiv_ok self spot texp g HT Hdt Hv)
      as (_ & _ & sb & vb & _ & _ & Heb & _).
    destruct (normal_cond_equiv_ok self spot texp g HT Hdt Hv)
      as (_ & _ & sn & vn & _ & _ & Hen & _).
    fold g1 in Heb, Hen.
    destruct (cond_prices_state pf self strike texp cp (sb, vb) g1) as [rb Hb].
    destruct (cond_prices_state pf self strike texp cp (sn, vn) g1) as [rn Hn].
    split.
    + exists rb. now rewrite bsm_cond_price_steps, (bind_ok _ _ _ _ _ Heb).
    + exists rn. now rewrite normal_cond_price_steps, (bind_ok _ _ _ _ _ Hen).
Qed.

(** X16.  The draws a pricing call consumes, on a positive maturity and time
    step with [n = ceil(texp/dt)] steps and [N] paths.  A direct pricer
    returns its prices and leaves the generator [2 * n * N] draws further; a
    conditional pricer leaves it [n * N] draws further whether it returns
    prices or raises ([vov = 0], unsupported [beta]): the path is always
    drawn first.  The sequence of draws itself is never altered. *)
Theorem draws_consumed pf self strike spot texp cp g :
  0 < texp -> 0 < dt self ->
  let n := Z.to_nat (np_ceil (texp / dt self)) in
  let N := n_path self in
  (exists p, ModelBsmMC.price self strike spot texp cp g
             = (Ok p, mkRng (tape g) (cursor g + 2 * (n * N)))) /\
  (exists p, ModelNormalMC.price self strike spot texp cp g
             = (Ok p, mkRng (tape g) (cursor g + 2 * (n * N)))) /\
  (exists r, ModelBsmCondMC.price pf self strike spot texp cp g
             = (r, mkRng (tape g) (cursor g + n * N))) /\
  (exists r, ModelNormalCondMC.price pf self strike spot texp cp g
             = (r, mkRng (tape g) (cursor g + n * N))).
Proof.
  intros HT Hdt n N.
  assert (Hn : (0 <= np_ceil (texp / dt self))%Z).
  { pose proof (np_ceil_pos _ (div_pos _ _ HT Hdt)). lia. }
  destruct (bsm_terminal_spot_ok self spot texp g ltac:(lra) Hn)
    as (Sb & HSb & _).
  destruct (normal_terminal_spot_ok self spot texp g ltac:(lra) Hn)
    as (Sn & HSn & _).
  fold n N in HSb, HSn. rewrite advance_twice in HSb, HSn.
  destruct (cond_price_state pf self strike spot texp cp g HT Hdt) as [Hb Hc].
  split; [eexists; apply bsm_price_of_terminal, HSb |].
  split; [eexists; apply normal_price_of_terminal, HSn |].
  split; [exact Hb | exact Hc].
Qed.

Lemma draws_consumed_witness :
  (exists p,
      ModelBsmMC.price (mkModel 1 1 0 1 0 1 3) [1] 1 2 1 (mkRng (fun _ => 0) 5)
      = (Ok p, mkRng (fun _ => 0) 17)) /\
  (exists r,
      ModelNormalCondMC.price
        (mk_pyfeng (fun _ _ _ _ _ _ _ => 0) (fun _ _ _ _ _ _ _ => 0))
        (mkModel 1 1 0 1 0 1 3) [1] 1 2 1 (mkRng (fun _ => 0) 5)
      = (r, mkRng (fun _ => 0) 11)).
Proof.
  assert (Hc : np_ceil (2 / 1) = 2%Z) by (apply np_ceil_unique; simpl; lra).
  destruct (draws_consumed
              (mk_pyfeng (fun _ _ _ _ _ _ _ => 0) (fun _ _ _ _ _ _ _ => 0))
              (mkModel 1 1 0 1 0 1 3) [1] 1 2 1%Z (mkRng (fun _ => 0) 5))
    as (Hb & _ & _ & Hn); simpl; try lra.
  cbn [dt n_path tape cursor] in Hb, Hn. rewrite Hc in Hb, Hn.
  split; [exact Hb | exact Hn].
Defined.

(** ** [vol_smile] *)

(** X17.  [vol_smile] on any concrete class.  It prices calls ([cp = 1])
    and then inverts them with the flat-volatility base model of the
    instance: an exception of [price] is passed on unchanged; if [price]
    returns one price per strike and [beta] is 0 or 1 the result holds one
    implied volatility per strike, each computed from that strike's price;
    and if [beta] is anything else it raises [ValueError] after the prices
    have been computed. *)
Theorem vol_smile_after_price pf (price : price_method) self strike spot texp g :
  (forall e g', price self strike spot texp 1%Z g = (Raise e, g') ->
     vol_smile pf price self strike spot texp g = (Raise e, g')) /\
  (forall p g', price self strike spot texp 1%Z g = (Ok p, g') ->
     beta self <> 0 -> beta self <> 1 ->
     vol_smile pf price self strike spot texp g = (Raise ValueError, g')) /\
  (forall p g', price self strike spot texp 1%Z g = (Ok p, g') ->
     beta self = 0 \/ beta self = 1 -> length p = length strike ->
     exists m iv,
       base_model self None g' = (Ok m, g') /\
       pf_sigma m = Scalar (sigma self) /\
       vol_smile pf price self strike spot texp g = (Ok iv, g') /\
       length iv = length strike /\
       forall j, (j < length strike)%nat ->
         nth j iv 0
         = kernel_impvol pf (pf_kind_of m) (intr self) (nth j p 0)
             (nth j strike 0) spot texp 1).
Proof.
  split; [| split].
  - intros e g' H. unfold vol_smile. now apply bind_raise.
  - intros p g' H H0 H1. unfold vol_smile. rewrite (bind_ok _ _ _ _ _ H).
    apply bind_raise, base_model_unsupported; assumption.
  - intros p g' H Hb Hl.
    assert (Hm : exists m, base_model self None g' = (Ok m, g') /\
                           pf_sigma m = Scalar (sigma self) /\
                           pf_intr m = intr self).
    { destruct Hb as [Hb | Hb].
      - eexists. split; [apply base_model_beta0, Hb | split; reflexivity].
      - eexists. split; [apply base_model_beta1, Hb | split; reflexivity]. }
    destruct Hm as (m & Hm & Hms & Hmi).
    exists m. eexists. split; [exact Hm |]. split; [exact Hms |].
    split.
    { unfold vol_smile.
      rewrite (bind_ok _ _ _ _ _ H), (bind_ok _ _ _ _ _ Hm). reflexivity. }
    unfold pf_impvol. split.
    + rewrite length_map, length_combine. lia.
    + intros j Hj.
      rewrite (nth_map_lt _ (combine p strike) j (0, 0) 0)
        by (rewrite length_combine; lia).
      rewrite nth_combine_lt by lia. simpl. now rewrite Hmi.
Qed.

Lemma vol_smile_after_price_witness :
  exists iv g',
    vol_smile (mk_pyfeng (fun _ _ _ _ _ _ _ => 0) (fun _ _ _ _ _ _ _ => 7))
      (fun _ strike _ _ _ => ret strike)
      (mkModel 1 0 0 1 0 1 1) [90; 110] 100 1 (mkRng (fun _ => 0) 0)
    = (Ok iv, g') /\
    length iv = 2%nat.
Proof.
  destruct (vol_smile_after_price
              (mk_pyfeng (fun _ _ _ _ _ _ _ => 0) (fun _ _ _ _ _ _ _ => 7))
              (fun _ strike _ _ _ => ret strike)
              (mkModel 1 0 0 1 0 1 1) [90; 110] 100 1 (mkRng (fun _ => 0) 0))
    as (_ & _ & H).
  destruct (H [90; 110] (mkRng (fun _ => 0) 0) eq_refl) as (m & iv & H');
    [simpl; lra | reflexivity |].
  exists iv. eexists. split; apply H'.
Defined.

(** ** The prices depend on the consumed draws only *)

Lemma draws_agree g g' n N t k :
  agree_on g g' (2 * (n * N)) -> (t < n)%nat -> (k < N)%nat ->
  draw g N t k = draw g' N t k /\
  draw (advance g (n * N)) N t k = draw (advance g' (n * N)) N t k.
Proof.
  intros [Hc Ht] Htn Hk. unfold draw, advance. simpl.
  assert (Hidx : (t * N + k < n * N)%nat) by nia.
  split.
  - rewrite <- !Nat.add_assoc. apply Ht. lia.
  - replace (cursor g + n * N + t * N + k)%nat
      with (cursor g + (n * N + t * N + k))%nat by lia.
    replace (cursor g' + n * N + t * N + k)%nat
      with (cursor g' + (n * N + t * N + k))%nat by lia.
    apply Ht. lia.
Qed.

Lemma mc_entries_agree self g g' n tobs t k :
  agree_on g g' (2 * (n * n_path self)) ->
  (t < n)%nat -> (k < n_path self)%nat ->
  mc_W self g (advance g (n * n_path self)) t k
  = mc_W self g' (advance g' (n * n_path self)) t k /\
  mc_sigma self (advance g (n * n_path self)) tobs t k
  = mc_sigma self (advance g' (n * n_path self)) tobs t k.
Proof.
  intros Hag Ht Hk. split.
  - unfold mc_W.
    destruct (draws_agree g g' n (n_path self) t k Hag Ht Hk) as [-> ->].
    reflexivity.
  - destruct t as [|t]; [reflexivity |].
    unfold mc_sigma, vol_value. do 4 f_equal.
    apply sum_over_ext. intros s Hs.
    destruct (draws_agree g g' n (n_path self) s k Hag ltac:(lia) Hk)
      as [_ ->].
    reflexivity.
Qed.

(** X18.  A direct pricer reads nothing of the generator beyond the
    [2 * n * N] draws it consumes: from two generator states at the same
    position that hold the same next [2 * n * N] draws, the same call
    returns the same prices. *)
Theorem direct_price_reads_consumed_draws self strike spot texp cp g g' :
  0 < texp -> 0 < dt self ->
  agree_on g g'
    (2 * (Z.to_nat (np_ceil (texp / dt self)) * n_path self)) ->
  fst (ModelBsmMC.price self strike spot texp cp g)
  = fst (ModelBsmMC.price self strike spot texp cp g') /\
  fst (ModelNormalMC.price self strike spot texp cp g)
  = fst (ModelNormalMC.price self strike spot texp cp g').
Proof.
  intros HT Hdt Hag.
  assert (Hn : (0 <= np_ceil (texp / dt self))%Z).
  { pose proof (np_ceil_pos _ (div_pos _ _ HT Hdt)). lia. }
  set (n := Z.to_nat (np_ceil (texp / dt self))) in *.
  split.
  - destruct (bsm_terminal_spot_ok self spot texp g ltac:(lra) Hn)
      as (S & HS & HL & HE).
    destruct (bsm_terminal_spot_ok self spot texp g' ltac:(lra) Hn)
      as (S' & HS' & HL' & HE').
    fold n in HS, HE, HS', HE'.
    rewrite (bsm_price_of_terminal _ _ _ _ _ _ _ _ HS),
      (bsm_price_of_terminal _ _ _ _ _ _ _ _ HS').
    simpl. do 2 f_equal.
    apply (nth_ext _ _ 0 0); [congruence |].
    intros i Hi. rewrite HE, HE' by lia. do 2 f_equal.
    apply sum_over_ext. intros t Ht.
    destruct (mc_entries_agree self g g' n
                (tobs_grid (np_ceil (texp / dt self)) texp) t i Hag Ht
                ltac:(lia)) as [-> ->].
    reflexivity.
  - destruct (normal_terminal_spot_ok self spot texp g ltac:(lra) Hn)
      as (S & HS & HL & HE).
    destruct (normal_terminal_spot_ok self spot texp g' ltac:(lra) Hn)
      as (S' & HS' & HL' & HE').
    fold n in HS, HE, HS', HE'.
    rewrite (normal_price_of_terminal _ _ _ _ _ _ _ _ HS),
      (normal_price_of_terminal _ _ _ _ _ _ _ _ HS').
    simpl. do 2 f_equal.
    apply (nth_ext _ _ 0 0); [congruence |].
    intros i Hi. rewrite HE, HE' by lia. f_equal.
    apply sum_over_ext. intros t Ht.
    destruct (mc_entries_agree self g g' n
                (tobs_grid (np_ceil (texp / dt self)) texp) t i Hag Ht
                ltac:(lia)) as [-> ->].
    reflexivity.
Qed.

Lemma direct_price_reads_consumed_draws_witness :
  fst (ModelNormalMC.price (mkModel 1 1 0 0 0 1 1) [1] 1 1 1
         (mkRng (fun i => if (i <? 2)%nat then 1 else 0) 0))
  = fst (ModelNormalMC.price (mkModel 1 1 0 0 0 1 1) [1] 1 1 1
           (mkRng (fun _ => 1) 0)).
Proof.
  assert (Hc : np_ceil (1 / 1) = 1%Z) by (apply np_ceil_unique; lra).
  apply (direct_price_reads_consumed_draws (mkModel 1 1 0 0 0 1 1) [1] 1 1 1%Z
           (mkRng (fun i => if (i <? 2)%nat then 1 else 0) 0)
           (mkRng (fun _ => 1) 0)); cbn [dt n_path]; try lra.
  rewrite Hc. split; [reflexivity |].
  intros i Hi. cbn [tape cursor Nat.add].
  destruct (Nat.ltb_spec i 2); [reflexivity |].
  change (Z.to_nat 1) with 1%nat in Hi. lia.
Defined.

(** ** The direct pricers without vol-of-vol *)

Lemma mc_sigma_flat self g1 tobs t k :
  vov self = 0 -> mc_sigma self g1 tobs t k = sigma self.
Proof.
  intros Hv. destruct t as [|t]; unfold mc_sigma; [lra |].
  unfold vol_value. rewrite Hv, Rmult_0_l, exp_0. lra.
Qed.

Lemma sum_over_const n c : sum_over n (fun _ => c) = INR n * c.
Proof.
  induction n as [|n IH]; [unfold sum_over; simpl; lra |].
  rewrite sum_over_S_right, IH, S_INR. lra.
Qed.

Lemma sum_over_plus n f h :
  sum_over n (fun t => f t + h t) = sum_over n f + sum_over n h.
Proof.
  induction n as [|n IH]; [unfold sum_over; simpl; lra |].
  rewrite !sum_over_S_right, IH. lra.
Qed.

(** X19.  With [vov = 0] the volatility of the direct pricers is the
    constant [sigma], and the schemes reduce to a random walk in the
    correlated noise [W]: the normal pricer ends path [k] at
    [spot + sigma * sqrt(dt) * sum_t W[t,k]], the log-normal one at
    [exp(log(spot) + sigma * sqrt(dt) * sum_t W[t,k] - 0.5 * sigma^2 * (n * dt))],
    with the nominal [dt] and the number of steps [n]. *)
Theorem direct_terminal_spot_without_vov self spot texp g :
  vov self = 0 -> 0 < texp -> 0 < dt self ->
  let n := Z.to_nat (np_ceil (texp / dt self)) in
  let g1 := advance g (n * n_path self) in
  (exists S_T g',
      normal_terminal_spot self spot texp g = (Ok S_T, g') /\
      length S_T = n_path self /\
      forall k, (k < n_path self)%nat ->
        nth k S_T 0
        = spot + sigma self * sqrt (dt self)
                 * sum_over n (fun t => mc_W self g g1 t k)) /\
  (exists S_T g',
      bsm_terminal_spot self spot texp g = (Ok S_T, g') /\
      length S_T = n_path self /\
      forall k, (k < n_path self)%nat ->
        nth k S_T 0
        = exp (ln spot
               + sigma self * sqrt (dt self)
                 * sum_over n (fun t => mc_W self g g1 t k)
               - 0.5 * sigma self ^ 2 * (INR n * dt self))).
Proof.
  intros Hv HT Hdt n g1.
  assert (Hn : (0 <= np_ceil (texp / dt self))%Z).
  { pose proof (np_ceil_pos _ (div_pos _ _ HT Hdt)). lia. }
  split.
  - destruct (normal_terminal_spot_ok self spot texp g ltac:(lra) Hn)
      as (S & HS & HL & HE).
    fold n g1 in HS, HE.
    exists S. eexists. split; [exact HS |]. split; [exact HL |].
    intros k Hk. rewrite HE by exact Hk. f_equal.
    replace (sigma self * sqrt (dt self)
             * sum_over n (fun t => mc_W self g g1 t k))
      with (sum_over n (fun t => mc_W self g g1 t k)
            * (sigma self * sqrt (dt self))) by ring.
    rewrite <- sum_over_scal. apply sum_over_ext. intros t _.
    rewrite mc_sigma_flat by exact Hv. ring.
  - destruct (bsm_terminal_spot_ok self spot texp g ltac:(lra) Hn)
      as (S & HS & HL & HE).
    fold n g1 in HS, HE.
    exists S. eexists. split; [exact HS |]. split; [exact HL |].
    intros k Hk. rewrite HE by exact Hk. f_equal.
    rewrite (sum_over_ext n _
               (fun t => mc_W self g g1 t k * (sigma self * sqrt (dt self))
                         + - (0.5 * sigma self ^ 2 * dt self)))
      by (intros t _; rewrite mc_sigma_flat by exact Hv; ring).
    rewrite sum_over_plus, sum_over_scal, sum_over_const. ring.
Qed.

Lemma direct_terminal_spot_without_vov_witness :
  exists S_T g',
    normal_terminal_spot (mkModel 2 0 (1/2) 0 0 1 3) 100 2
      (mkRng (fun _ => 1) 0) = (Ok S_T, g') /\
    length S_T = 3%nat.
Proof.
  destruct (direct_terminal_spot_without_vov (mkModel 2 0 (1/2) 0 0 1 3) 100 2
              (mkRng (fun _ => 1) 0)) as [(S_T & g' & H) _];
    simpl; try lra.
  exists S_T, g'. split; apply H.
Defined.

(** ** Bounds and the strike list *)

Lemma mean_map_const {A} (c : R) (l : list A) :
  (0 < length l)%nat -> mean (map (fun _ => c) l) = c.
Proof.
  intros Hl. unfold mean. rewrite length_map.
  assert (Hs : vsum (map (fun _ => c) l) = INR (length l) * c).
  { clear Hl. induction l as [|x l IH]; [simpl; lra |].
    cbn [map vsum fold_right length]. rewrite S_INR.
    change (fold_right Rplus 0) with vsum. rewrite IH. lra. }
  rewrite Hs. field. apply not_0_INR. lia.
Qed.

(** X20.  Bounds of the log-normal direct pricer for a positive spot and a
    non-negative strike, within one call: the terminal spots are positive,
    so the put price is at most the discounted strike and the call price at
    most the discounted mean terminal spot. *)
Theorem bsm_price_bounds self strike spot texp g j :
  0 < texp -> 0 < dt self -> (0 < n_path self)%nat -> 0 < spot ->
  (j < length strike)%nat -> 0 <= nth j strike 0 ->
  exists S_T pc pp g',
    bsm_terminal_spot self spot texp g = (Ok S_T, g') /\
    ModelBsmMC.price self strike spot texp 1 g = (Ok pc, g') /\
    ModelBsmMC.price self strike spot texp (-1) g = (Ok pp, g') /\
    0 <= nth j pp 0 <= exp (- intr self * texp) * nth j strike 0 /\
    0 <= nth j pc 0 <= exp (- intr self * texp) * mean S_T.
Proof.
  intros HT Hdt HN Hspot Hj Hk.
  assert (Hn : (0 <= np_ceil (texp / dt self))%Z).
  { pose proof (np_ceil_pos _ (div_pos _ _ HT Hdt)). lia. }
  destruct (bsm_terminal_spot_ok self spot texp g ltac:(lra) Hn)
    as (S & HS & HL & HE).
  assert (Hpos : forall s, In s S -> 0 < s).
  { intros s Hs. destruct (In_nth _ _ 0 Hs) as (i & Hi & <-).
    rewrite HE by lia. apply exp_pos. }
  exists S. do 3 eexists. split; [exact HS |].
  split; [apply bsm_price_of_terminal, HS |].
  split; [apply bsm_price_of_terminal, HS |].
  rewrite !nth_mc_prices by exact Hj.
  set (k := nth j strike 0) in *.
  assert (Hdf : 0 < exp (- intr self * texp)) by apply exp_pos.
  assert (Hnn : forall c : Z,
             0 <= mean (map (fun s => Rmax (IZR c * (s - k)) 0) S)).
  { intros c. apply mean_nonneg; [rewrite length_map; lia |].
    apply Forall_map, Forall_forall. intros s _. apply Rmax_r. }
  assert (Hput : mean (map (fun s => Rmax (IZR (-1) * (s - k)) 0) S) <= k).
  { apply Rle_trans with (mean (map (fun _ : R => k) S));
      [| rewrite mean_map_const by lia; lra].
    apply mean_map_le. intros s Hs. pose proof (Hpos s Hs).
    unfold Rmax. destruct (Rle_dec (-1 * (s - k)) 0); lra. }
  assert (Hcall : mean (map (fun s => Rmax (IZR 1 * (s - k)) 0) S) <= mean S).
  { apply Rle_trans with (mean (map (fun s : R => s) S));
      [| rewrite map_id; lra].
    apply mean_map_le. intros s Hs. pose proof (Hpos s Hs).
    unfold Rmax. destruct (Rle_dec (1 * (s - k)) 0); lra. }
  pose proof (Hnn 1%Z). pose proof (Hnn (-1)%Z).
  split; split; nra.
Qed.

Lemma bsm_price_bounds_witness :
  exists S_T pc pp g',
    bsm_terminal_spot (mkModel 1 1 0 1 0 1 2) 100 1 (mkRng (fun _ => 1) 0)
    = (Ok S_T, g') /\
    ModelBsmMC.price (mkModel 1 1 0 1 0 1 2) [90; 110] 100 1 1
      (mkRng (fun _ => 1) 0) = (Ok pc, g') /\
    ModelBsmMC.price (mkModel 1 1 0 1 0 1 2) [90; 110] 100 1 (-1)
      (mkRng (fun _ => 1) 0) = (Ok pp, g') /\
    0 <= nth 1 pp 0
    <= exp (- intr (mkModel 1 1 0 1 0 1 2) * 1) * nth 1 [90; 110] 0 /\
    0 <= nth 1 pc 0 <= exp (- intr (mkModel 1 1 0 1 0 1 2) * 1) * mean S_T.
Proof.
  apply (bsm_price_bounds (mkModel 1 1 0 1 0 1 2) [90; 110] 100 1
           (mkRng (fun _ => 1) 0) 1); simpl; try lra; lia.
Defined.

(** X21.  The strikes of one call are priced on one shared ensemble and
    independently of each other: entry [j] of the returned vector is what
    the same call returns for the single strike [strike[j]] on the same
    generator state.  (For the conditional pricers: [vov <> 0] and [beta] 0
    or 1, so that the call returns.) *)
Theorem price_strike_by_strike pf c self strike spot texp cp g j :
  0 < texp -> 0 < dt self -> (j < length strike)%nat ->
  (c = BsmCondMC \/ c = NormalCondMC ->
   vov self <> 0 /\ (beta self = 0 \/ beta self = 1)) ->
  exists p q g',
    price_of pf c self strike spot texp cp g = (Ok p, g') /\
    price_of pf c self [nth j strike 0] spot texp cp g = (Ok q, g') /\
    length p = length strike /\ length q = 1%nat /\
    nth j p 0 = nth 0 q 0.
Proof.
  intros HT Hdt Hj Hcond.
  assert (Hn : (0 <= np_ceil (texp / dt self))%Z).
  { pose proof (np_ceil_pos _ (div_pos _ _ HT Hdt)). lia. }
  destruct c; simpl price_of.
  - destruct (bsm_terminal_spot_ok self spot texp g ltac:(lra) Hn)
      as (S & HS & _).
    do 3 eexists. split; [apply bsm_price_of_terminal, HS |].
    split; [apply bsm_price_of_terminal, HS |].
    split; [apply length_mc_prices |]. split; [reflexivity |].
    rewrite !nth_mc_prices by (simpl; lia). reflexivity.
  - destruct (normal_terminal_spot_ok self spot texp g ltac:(lra) Hn)
      as (S & HS & _).
    do 3 eexists. split; [apply normal_price_of_terminal, HS |].
    split; [apply normal_price_of_terminal, HS |].
    split; [apply length_mc_prices |]. split; [reflexivity |].
    rewrite !nth_mc_prices by (simpl; lia). reflexivity.
  - destruct (Hcond (or_introl eq_refl)) as [Hv Hb].
    destruct (bsm_cond_equiv_ok self spot texp g HT Hdt Hv)
      as (a & I_t & se & vol & _ & _ & He & Hls & Hlv & _).
    destruct (cond_prices_ok pf self strike texp cp se vol
                (advance g (Z.to_nat (np_ceil (texp / dt self)) * n_path self)) Hb)
      as (m & Hm & Hms & _ & _ & _ & Hp).
    destruct (cond_prices_ok pf self [nth j strike 0] texp cp se vol
                (advance g (Z.to_nat (np_ceil (texp / dt self)) * n_path self)) Hb)
      as (m' & Hm' & _ & _ & _ & _ & Hq).
    rewrite Hm in Hm'. injection Hm' as <-.
    do 3 eexists.
    split; [rewrite bsm_cond_price_steps, (bind_ok _ _ _ _ _ He); exact Hp |].
    split; [rewrite bsm_cond_price_steps, (bind_ok _ _ _ _ _ He); exact Hq |].
    split; [unfold pf_price; now rewrite !length_map |].
    split; [reflexivity |].
    destruct (cond_step3 pf m strike se vol texp cp j Hms
                ltac:(congruence) Hj) as [_ ->].
    destruct (cond_step3 pf m [nth j strike 0] se vol texp cp 0 Hms
                ltac:(congruence) ltac:(simpl; lia)) as [_ ->].
    reflexivity.
  - destruct (Hcond (or_intror eq_refl)) as [Hv Hb].
    destruct (normal_cond_equiv_ok self spot texp g HT Hdt Hv)
      as (a & I_t & se & vol & _ & _ & He & Hls & Hlv & _).
    destruct (cond_prices_ok pf self strike texp cp se vol
                (advance g (Z.to_nat (np_ceil (texp / dt self)) * n_path self)) Hb)
      as (m & Hm & Hms & _ & _ & _ & Hp).
    destruct (cond_prices_ok pf self [nth j strike 0] texp cp se vol
                (advance g (Z.to_nat (np_ceil (texp / dt self)) * n_path self)) Hb)
      as (m' & Hm' & _ & _ & _ & _ & Hq).
    rewrite Hm in Hm'. injection Hm' as <-.
    do 3 eexists.
    split; [rewrite normal_cond_price_steps, (bind_ok _ _ _ _ _ He); exact Hp |].
    split; [rewrite normal_cond_price_steps, (bind_ok _ _ _ _ _ He); exact Hq |].
    split; [unfold pf_price; now rewrite !length_map |].
    split; [reflexivity |].
    destruct (cond_step3 pf m strike se vol texp cp j Hms
                ltac:(congruence) Hj) as [_ ->].
    destruct (cond_step3 pf m [nth j strike 0] se vol texp cp 0 Hms
                ltac:(congruence) ltac:(simpl; lia)) as [_ ->].
    reflexivity.
Qed.

Lemma price_strike_by_strike_witness :
  exists p q g',
    price_of (mk_pyfeng (fun _ _ _ _ _ _ _ => 0) (fun _ _ _ _ _ _ _ => 0))
      BsmCondMC (mkModel 1 1 (1/2) 1 0 1 2) [90; 100; 110] 100 1 1%Z
      (mkRng (fun _ => 1) 0) = (Ok p, g') /\
    price_of (mk_pyfeng (fun _ _ _ _ _ _ _ => 0) (fun _ _ _ _ _ _ _ => 0))
      BsmCondMC (mkModel 1 1 (1/2) 1 0 1 2) [nth 2 [90; 100; 110] 0] 100 1 1%Z
      (mkRng (fun _ => 1) 0) = (Ok q, g') /\
    length p = length [90; 100; 110] /\ length q = 1%nat /\
    nth 2 p 0 = nth 0 q 0.
Proof.
  apply (price_strike_by_strike
           (mk_pyfeng (fun _ _ _ _ _ _ _ => 0) (fun _ _ _ _ _ _ _ => 0))
           BsmCondMC (mkModel 1 1 (1/2) 1 0 1 2) [90; 100; 110] 100 1 1%Z
           (mkRng (fun _ => 1) 0) 2); simpl; try lra; try lia.
Defined.
